(** * The "label" badge firmware, cooperative version (src/cooperative/main.c)

    A shallow embedding of the animation and synchronisation engine:
    the millisecond counter, the charlieplexed LED driver [setled], the
    step waiter [waituntil], the IR pulse transmitter [syncpulse], the
    eight pattern functions and the scheduler [loop].

    The globals of the C program and the I/O registers it writes are the
    fields of one record, threaded through a state monad.  What the
    hardware supplies (interrupts of timer T16, the level on the pins of
    port A) is a list of instants, one per call of [millis]; a computation
    that needs an instant the list does not hold has no result. *)

From Stdlib Require Import ZArith List Bool Lia Permutation.
Import ListNotations.
Open Scope Z_scope.

(** ** Machine integers *)

Definition wrap8 (x : Z) : Z := x mod 2 ^ 8.
Definition wrap32 (x : Z) : Z := x mod 2 ^ 32.

(** An [int16_t] operand meeting a [uint32_t] one is converted to
    [uint32_t] (value modulo 2^32). *)
Definition u32_of_i16 (x : Z) : Z := wrap32 x.

(** ** Registers *)

Inductive reg : Type :=
| PA | PAC | PB | PBC | PAPH | PBPH | TM2C | TM2CT | TM2B | TM2S.

Record regs : Type := mkRegs {
  r_pa : Z; r_pac : Z; r_pb : Z; r_pbc : Z; r_paph : Z; r_pbph : Z;
  r_tm2c : Z; r_tm2ct : Z; r_tm2b : Z; r_tm2s : Z }.

Definition rd (r : reg) (p : regs) : Z :=
  match r with
  | PA => r_pa p | PAC => r_pac p | PB => r_pb p | PBC => r_pbc p
  | PAPH => r_paph p | PBPH => r_pbph p
  | TM2C => r_tm2c p | TM2CT => r_tm2ct p | TM2B => r_tm2b p | TM2S => r_tm2s p
  end.

Definition wr (r : reg) (v : Z) (p : regs) : regs :=
  let '(mkRegs a ac b bc ah bh c ct cb cs) := p in
  match r with
  | PA => mkRegs v ac b bc ah bh c ct cb cs
  | PAC => mkRegs a v b bc ah bh c ct cb cs
  | PB => mkRegs a ac v bc ah bh c ct cb cs
  | PBC => mkRegs a ac b v ah bh c ct cb cs
  | PAPH => mkRegs a ac b bc v bh c ct cb cs
  | PBPH => mkRegs a ac b bc ah v c ct cb cs
  | TM2C => mkRegs a ac b bc ah bh v ct cb cs
  | TM2CT => mkRegs a ac b bc ah bh c v cb cs
  | TM2B => mkRegs a ac b bc ah bh c ct v cs
  | TM2S => mkRegs a ac b bc ah bh c ct cb v
  end.

(** The three assignment forms the program applies to a register. *)
Inductive stmt : Type :=
| AndAssign (r : reg) (c : Z)
| OrAssign (r : reg) (c : Z)
| Assign (r : reg) (c : Z).

Notation "r '&=' c" := (AndAssign r c) (at level 70, no associativity).
Notation "r '|=' c" := (OrAssign r c) (at level 70, no associativity).
Notation "r '::=' c" := (Assign r c) (at level 70, no associativity).

(** [r &= c] and [r |= c] take the register as it was last written.
    For the port data registers the device reads the pins instead: that
    is the value written for a pin driven as an output; at an input pin
    it is the level on the pin, and the data bit written back does not
    change what the pin drives. *)
Definition exec1 (s : stmt) (p : regs) : regs :=
  match s with
  | r &= c => wr r (Z.land (rd r p) c) p
  | r |= c => wr r (Z.lor (rd r p) c) p
  | r ::= c => wr r c p
  end.

Definition exec (l : list stmt) (p : regs) : regs :=
  fold_left (fun p s => exec1 s p) l p.

(** ** The environment and the machine state *)

(** One instant per call of [millis]: the number of T16 interrupts that
    fired since the previous call (each runs [elapsedmillis++]), and the
    levels on the pins of port A that a read of [PA] finds from then on.
    PA4 is an input all along ([PAC] bit 4 is never set), so bit 4 of a
    read of [PA] is the level of the IR receiver. *)
Record instant : Type := mkInstant { ticks : nat; pa_in : Z }.

Record mcu : Type := mkMcu {
  elapsedmillis : Z;
  state : Z;
  previoustime : Z;
  previouspinstate : Z;
  io : regs;
  pa_pins : Z;
  future : list instant }.

Definition set_elapsedmillis (v : Z) (m : mcu) : mcu :=
  mkMcu v (state m) (previoustime m) (previouspinstate m) (io m) (pa_pins m) (future m).
Definition set_state (v : Z) (m : mcu) : mcu :=
  mkMcu (elapsedmillis m) v (previoustime m) (previouspinstate m) (io m) (pa_pins m) (future m).
Definition set_previoustime (v : Z) (m : mcu) : mcu :=
  mkMcu (elapsedmillis m) (state m) v (previouspinstate m) (io m) (pa_pins m) (future m).
Definition set_previouspinstate (v : Z) (m : mcu) : mcu :=
  mkMcu (elapsedmillis m) (state m) (previoustime m) v (io m) (pa_pins m) (future m).
Definition set_io (v : regs) (m : mcu) : mcu :=
  mkMcu (elapsedmillis m) (state m) (previoustime m) (previouspinstate m) v (pa_pins m) (future m).

(** ** The monad: state, and no result when the environment is exhausted *)

Definition M (A : Type) : Type := mcu -> option (A * mcu).

Definition ret {A} (a : A) : M A := fun m => Some (a, m).

Definition bind {A B} (c : M A) (k : A -> M B) : M B :=
  fun m => match c m with
           | Some (a, m') => k a m'
           | None => None
           end.

Declare Scope mcu_scope.
Delimit Scope mcu_scope with mcu.
Notation "x <- c ;; k" := (bind c (fun x => k))
  (at level 61, c at next level, right associativity) : mcu_scope.
Notation "c ;; k" := (bind c (fun _ => k))
  (at level 61, right associativity) : mcu_scope.
Open Scope mcu_scope.

Definition get {A} (f : mcu -> A) : M A := fun m => Some (f m, m).
Definition modify (f : mcu -> mcu) : M unit := fun m => Some (tt, f m).

(** A block of register assignments. *)
Definition regops (l : list stmt) : M unit :=
  modify (fun m => set_io (exec l (io m)) m).

(** [while (cond) body] over the local variables [s].  Every loop of the
    program calls [millis] in its body, so it runs out of fuel only when
    the environment runs out of instants. *)
Fixpoint while_fuel {S} (fuel : nat) (cond : S -> mcu -> bool)
    (body : S -> M S) (s : S) : M S :=
  fun m =>
    if cond s m then
      match fuel with
      | O => None
      | Datatypes.S fuel' =>
          match body s m with
          | Some (s', m') => while_fuel fuel' cond body s' m'
          | None => None
          end
      end
    else Some (s, m).

Definition while_ {S} (cond : S -> mcu -> bool) (body : S -> M S) (s : S) : M S :=
  fun m => while_fuel (length (future m)) cond body s m.

(** ** millis *)

(** The interrupt handler has run [ticks] times since the last read;
    [elapsedmillis] is a [uint32_t]. *)
Definition millis : M Z :=
  fun m =>
    match future m with
    | [] => None
    | i :: w =>
        let current := wrap32 (elapsedmillis m + Z.of_nat (ticks i)) in
        Some (current,
              mkMcu current (state m) (previoustime m) (previouspinstate m)
                    (io m) (pa_in i) w)
    end.

Definition setup_millis : M unit :=
  modify (set_elapsedmillis 0).

(** [(PA >> 4) & 1]: the level of the sync input in a read of port A. *)
Definition syncbit (pa : Z) : Z := Z.land (Z.shiftr pa 4) 1.

Definition syncpin : M Z :=
  get (fun m => syncbit (pa_pins m)).

(** ** setled *)

Definition left_case (left : Z) : list stmt :=
  match left with
  | 0 => [PA &= 0x7f; PAC |= 0x80; PB |= 0x10; PBC |= 0x10]
  | 1 => [PB &= 0x7f; PBC |= 0x80; PB |= 0x10; PBC |= 0x10]
  | 2 => [PB &= 0xbf; PBC |= 0x40; PB |= 0x10; PBC |= 0x10]
  | 3 => [PB &= 0xdf; PBC |= 0x20; PB |= 0x10; PBC |= 0x10]
  | 4 => [PA &= 0x7f; PAC |= 0x80; PB |= 0x20; PBC |= 0x20]
  | 5 => [PB &= 0x7f; PBC |= 0x80; PB |= 0x20; PBC |= 0x20]
  | 6 => [PB &= 0xbf; PBC |= 0x40; PB |= 0x20; PBC |= 0x20]
  | 7 => [PB &= 0xef; PBC |= 0x10; PB |= 0x20; PBC |= 0x20]
  | 8 => [PA &= 0x7f; PAC |= 0x80; PB |= 0x40; PBC |= 0x40]
  | 9 => [PB &= 0x7f; PBC |= 0x80; PB |= 0x40; PBC |= 0x40]
  | 10 => [PB &= 0xdf; PBC |= 0x20; PB |= 0x40; PBC |= 0x40]
  | 11 => [PB &= 0xef; PBC |= 0x10; PB |= 0x40; PBC |= 0x40]
  | 12 => [PA &= 0x7f; PAC |= 0x80; PB |= 0x80; PBC |= 0x80]
  | 13 => [PB &= 0xbf; PBC |= 0x40; PB |= 0x80; PBC |= 0x80]
  | 14 => [PB &= 0xdf; PBC |= 0x20; PB |= 0x80; PBC |= 0x80]
  | 15 => [PB &= 0xef; PBC |= 0x10; PB |= 0x80; PBC |= 0x80]
  | 16 => [PB &= 0x7f; PBC |= 0x80; PA |= 0x80; PAC |= 0x80]
  | 17 => [PB &= 0xbf; PBC |= 0x40; PA |= 0x80; PAC |= 0x80]
  | 18 => [PB &= 0xdf; PBC |= 0x20; PA |= 0x80; PAC |= 0x80]
  | 19 => [PB &= 0xef; PBC |= 0x10; PA |= 0x80; PAC |= 0x80]
  | _ => []
  end.

Definition right_case (right : Z) : list stmt :=
  match right with
  | 0 => [PA &= 0xfe; PAC |= 0x01; PB |= 0x08; PBC |= 0x08]
  | 1 => [PB &= 0xfe; PBC |= 0x01; PB |= 0x08; PBC |= 0x08]
  | 2 => [PB &= 0xfd; PBC |= 0x02; PB |= 0x08; PBC |= 0x08]
  | 3 => [PB &= 0xfb; PBC |= 0x04; PB |= 0x08; PBC |= 0x08]
  | 4 => [PA &= 0xfe; PAC |= 0x01; PB |= 0x04; PBC |= 0x04]
  | 5 => [PB &= 0xfe; PBC |= 0x01; PB |= 0x04; PBC |= 0x04]
  | 6 => [PB &= 0xfd; PBC |= 0x02; PB |= 0x04; PBC |= 0x04]
  | 7 => [PB &= 0xf7; PBC |= 0x08; PB |= 0x04; PBC |= 0x04]
  | 8 => [PA &= 0xfe; PAC |= 0x01; PB |= 0x02; PBC |= 0x02]
  | 9 => [PB &= 0xfe; PBC |= 0x01; PB |= 0x02; PBC |= 0x02]
  | 10 => [PB &= 0xfb; PBC |= 0x04; PB |= 0x02; PBC |= 0x02]
  | 11 => [PB &= 0xf7; PBC |= 0x08; PB |= 0x02; PBC |= 0x02]
  | 12 => [PA &= 0xfe; PAC |= 0x01; PB |= 0x01; PBC |= 0x01]
  | 13 => [PB &= 0xfd; PBC |= 0x02; PB |= 0x01; PBC |= 0x01]
  | 14 => [PB &= 0xfb; PBC |= 0x04; PB |= 0x01; PBC |= 0x01]
  | 15 => [PB &= 0xf7; PBC |= 0x08; PB |= 0x01; PBC |= 0x01]
  | 16 => [PB &= 0xfe; PBC |= 0x01; PA |= 0x01; PAC |= 0x01]
  | 17 => [PB &= 0xfd; PBC |= 0x02; PA |= 0x01; PAC |= 0x01]
  | 18 => [PB &= 0xfb; PBC |= 0x04; PA |= 0x01; PAC |= 0x01]
  | 19 => [PB &= 0xf7; PBC |= 0x08; PA |= 0x01; PAC |= 0x01]
  | _ => []
  end.

(** The body of [if (left < 21)]: all left outputs disabled, then the switch. *)
Definition left_block (left : Z) : list stmt :=
  [PAC &= 0x7f; PBC &= 0x0f] ++ left_case left.

(** The body of [if (right < 21)]. *)
Definition right_block (right : Z) : list stmt :=
  [PAC &= 0xfe; PBC &= 0xf0] ++ right_case right.

(** The register assignments of one call, in program order. *)
Definition setled_ops (left right : Z) : list stmt :=
  (if left <? 21 then left_block left else []) ++
  (if right <? 21 then right_block right else []).

Definition setled (left right : Z) : M unit :=
  (if left <? 21 then regops (left_block left) else ret tt) ;;
  (if right <? 21 then regops (right_block right) else ret tt).

(** ** waituntil *)

(** The locals of [waituntil]: [currenttime] and [currentpinstate]. *)
Definition waiting (time : Z) (l : Z * Z) (m : mcu) : bool :=
  let '(currenttime, currentpinstate) := l in
  (wrap32 (currenttime - previoustime m) <? u32_of_i16 time)
  && ((currentpinstate =? 0) || (previouspinstate m =? 1)).

Definition resample (l : Z * Z) : M (Z * Z) :=
  let '(_, currentpinstate) := l in
  currenttime <- millis ;;
  modify (set_previouspinstate currentpinstate) ;;
  currentpinstate <- syncpin ;;
  ret (currenttime, currentpinstate).

(** The sampling part of [waituntil]: the two initial reads and the
    [while] loop; its result is the final [currenttime] and
    [currentpinstate]. *)
Definition polling (time : Z) : M (Z * Z) :=
  currenttime <- millis ;;
  currentpinstate <- syncpin ;;
  while_ (waiting time) resample (currenttime, currentpinstate).

Definition waituntil (time : Z) : M Z :=
  l <- polling time ;;
  let '(currenttime, currentpinstate) := l in
  previous <- get previouspinstate ;;
  if (currentpinstate =? 1) && (previous =? 0) then
    (* rising edge on sync pin *)
    modify (set_state 0) ;;
    modify (set_previoustime currenttime) ;;
    modify (set_previouspinstate 1) ;;
    ret 1
  else
    (* timeout *)
    modify (fun m => set_previoustime (wrap32 (previoustime m + u32_of_i16 time)) m) ;;
    ret 0.

(** ** syncpulse *)

(** [TM2C = 0b00101000] starts the 38 kHz carrier; the literal is 0x28. *)
Definition syncpulse (time : Z) : M unit :=
  regops [TM2C ::= 0; TM2CT ::= 0; TM2B ::= 211; TM2S ::= 0; TM2C ::= 0x28] ;;
  currenttime <- millis ;;
  modify (set_previoustime currenttime) ;;
  while_ (fun currenttime m =>
            wrap32 (currenttime - previoustime m) <? u32_of_i16 time)
         (fun _ => millis) currenttime ;;
  regops [TM2C ::= 0; PA ::= 0].

(** ** setup *)

(** The timer and interrupt configuration ([T16M], [T16C], [INTEN],
    [INTRQ], [__engint]) is what makes the environment deliver ticks; the
    model keeps the part the program reads back: the counter reset. *)
Definition setup : M unit :=
  regops [PAPH ::= 0x76; PBPH ::= 0x00; PA ::= 0x00; PB ::= 0x00;
          PAC ::= 0x08; PBC ::= 0x00] ;;
  setup_millis ;;
  t <- millis ;;
  modify (set_previoustime t) ;;
  modify (set_previouspinstate 1) ;;
  modify (set_state 0).

(** ** The pattern functions *)

(** Statements of a function body that may execute [return]: the result
    [true] says that the function has returned. *)
Definition and_then (a b : M bool) : M bool :=
  returned <- a ;; if returned then ret true else b.

Notation "a ;;; b" := (and_then a b)
  (at level 62, right associativity) : mcu_scope.

(** [for (x in l) body] *)
Fixpoint for_ {A} (l : list A) (body : A -> M bool) : M bool :=
  match l with
  | [] => ret false
  | x :: l' => body x ;;; for_ l' body
  end.

(** The values of [i] in [for (i = 0; i < n; i++)]. *)
Definition range (n : Z) : list Z := map Z.of_nat (seq 0 (Z.to_nat n)).

(** One step: [setled(left,right); if (waituntil(25)) {return;}] *)
Definition step (left right : Z) : M bool :=
  setled left right ;;
  detected <- waituntil 25 ;;
  ret (negb (detected =? 0)).

Definition finish (body : M bool) : M unit := body ;; ret tt.

Definition singleledccw (n : Z) : M unit :=
  finish (for_ (range n) (fun r =>
    for_ (range 20) (fun i => step i 20) ;;;
    for_ (range 20) (fun i => step 20 (19 - i)))).

Definition singleledcw (n : Z) : M unit :=
  finish (for_ (range n) (fun r =>
    for_ (range 20) (fun i => step 20 i) ;;;
    for_ (range 20) (fun i => step (19 - i) 20))).

Definition twoledsccw (n : Z) : M unit :=
  finish (for_ (range n) (fun r =>
    for_ (range 20) (fun i => step i (19 - i)))).

Definition twoledscw (n : Z) : M unit :=
  finish (for_ (range n) (fun r =>
    for_ (range 20) (fun i => step (19 - i) i))).

Definition twoledsflapdown (n : Z) : M unit :=
  finish (for_ (range n) (fun r =>
    for_ (range 20) (fun i => step i i))).

Definition twoledsflapup (n : Z) : M unit :=
  finish (for_ (range n) (fun r =>
    for_ (range 20) (fun i => step (19 - i) (19 - i)))).

Definition twoledsflap (n : Z) : M unit :=
  finish (for_ (range n) (fun r =>
    for_ (range 20) (fun i => step i i) ;;;
    for_ (range 20) (fun i => step (19 - i) (19 - i)))).

Definition randomsequence : list Z :=
  [9; 19; 3; 2; 16; 17; 6; 18; 1; 8; 0; 14; 15; 5; 7; 10; 11; 12; 4; 10;
   10; 1; 15; 8; 17; 9; 6; 16; 7; 13; 11; 0; 2; 3; 4; 18; 12; 14; 5; 19].

(** [randomsequence[i]]; every index the program uses is below 40. *)
Definition rs (i : Z) : Z := nth (Z.to_nat i) randomsequence 0.

Definition twoledsrandom (n : Z) : M unit :=
  finish (for_ (range n) (fun r =>
    for_ (range 20) (fun i => step (rs i) (rs (i + 20))) ;;;
    for_ (range 20) (fun i => step (rs (i + 20)) (rs i)) ;;;
    for_ (range 20) (fun i => step (rs (19 - i)) (rs (39 - i))) ;;;
    for_ (range 20) (fun i => step (rs (39 - i)) (rs (19 - i))))).

(** ** loop *)

(** [state++] on a [uint8_t]. *)
Definition advance : M unit :=
  modify (fun m => set_state (wrap8 (state m + 1)) m).

(** The [switch (state)]. *)
Definition dispatch : M unit :=
  s <- get state ;;
  match s with
  | 1 => singleledccw 4
  | 2 => singleledcw 4
  | 3 => twoledsccw 8
  | 4 => twoledscw 8
  | 5 => twoledsflapdown 8
  | 6 => twoledsflapup 8
  | 7 => twoledsflap 4
  | 8 => twoledsrandom 4
  | _ => syncpulse 25 ;; modify (set_state 0)
  end.

Definition loop : M unit := advance ;; dispatch.

(** [n] passes of the endless loop of [main]. *)
Fixpoint ticks_of_loop (n : nat) : M unit :=
  match n with
  | O => ret tt
  | Datatypes.S n' => loop ;; ticks_of_loop n'
  end.

(** [main] cut after [n] passes. *)
Definition main (n : nat) : M unit := setup ;; ticks_of_loop n.

(** * Vocabulary of the properties *)

Definition is_bit (x : Z) : Prop := x = 0 \/ x = 1.

(** Milliseconds by which the clock is ahead of the Timing Baseline, as
    the program computes it. *)
Definition elapsed (m : mcu) : Z := wrap32 (elapsedmillis m - previoustime m).

(** The budget has not elapsed at clock value [t], for baseline [p]. *)
Definition within (time p t : Z) : Prop := wrap32 (t - p) < u32_of_i16 time.

(** What a caller that samples at every instant sees: the clock value and
    the level of the sync input, per instant, for a counter that holds
    [e] before the first of them. *)
Fixpoint samples (e : Z) (w : list instant) : list (Z * Z) :=
  match w with
  | [] => []
  | i :: w' =>
      let e' := wrap32 (e + Z.of_nat (ticks i)) in
      (e', syncbit (pa_in i)) :: samples e' w'
  end.

(** The level of the last sample of [l], or [prev] when there is none. *)
Fixpoint level_after (prev : Z) (l : list (Z * Z)) : Z :=
  match l with
  | [] => prev
  | s :: l' => level_after (snd s) l'
  end.

(** Some sample of [l] is HIGH right after a LOW one ([prev] comes first). *)
Fixpoint rising (prev : Z) (l : list (Z * Z)) : bool :=
  match l with
  | [] => false
  | s :: l' => ((prev =? 0) && (snd s =? 1)) || rising (snd s) l'
  end.

(** The specification's condition for detection, an edge seen strictly
    before the budget elapses: some sample is HIGH, follows a LOW level,
    and is taken within the budget. *)
Definition edge_before_budget (time : Z) (m : mcu) : Prop :=
  exists pre t post,
    samples (elapsedmillis m) (future m) = pre ++ (t, 1) :: post /\
    level_after (previouspinstate m) pre = 0 /\
    within time (previoustime m) t.

(** What the code detects: the first LOW-then-HIGH pair of samples,
    when every sample before the HIGH one is within the budget. *)
Definition first_edge (time : Z) (m : mcu) : Prop :=
  exists pre t post,
    samples (elapsedmillis m) (future m) = pre ++ (t, 1) :: post /\
    level_after (previouspinstate m) pre = 0 /\
    rising (previouspinstate m) pre = false /\
    Forall (fun s => within time (previoustime m) (fst s)) pre.

(** ** The loops in closed form *)

(** Summary of the [while] loop of [waituntil] from clock value [e], port
    read [pa] and previous level [prev]: the final values and the
    instants left. *)
Fixpoint scan (time p : Z) (w : list instant) (e pa prev : Z)
    : option (Z * Z * Z * list instant) :=
  if (wrap32 (e - p) <? u32_of_i16 time)
     && ((syncbit pa =? 0) || (prev =? 1))
  then
    match w with
    | [] => None
    | i :: w' =>
        scan time p w' (wrap32 (e + Z.of_nat (ticks i))) (pa_in i) (syncbit pa)
    end
  else Some (e, pa, prev, w).

(** Summary of the [while] loop of [syncpulse]. *)
Fixpoint hold (time p : Z) (w : list instant) (e pa : Z)
    : option (Z * Z * list instant) :=
  if wrap32 (e - p) <? u32_of_i16 time then
    match w with
    | [] => None
    | i :: w' => hold time p w' (wrap32 (e + Z.of_nat (ticks i))) (pa_in i)
    end
  else Some (e, pa, w).

(** [waituntil] in closed form. *)
Definition waituntil_summary (time : Z) (m : mcu) : option (Z * mcu) :=
  match future m with
  | [] => None
  | i :: w =>
      match scan time (previoustime m) w
                 (wrap32 (elapsedmillis m + Z.of_nat (ticks i)))
                 (pa_in i) (previouspinstate m) with
      | Some (e, pa, prev, w') =>
          if (syncbit pa =? 1) && (prev =? 0)
          then Some (1, mkMcu e 0 e 1 (io m) pa w')
          else Some (0, mkMcu e (state m)
                              (wrap32 (previoustime m + u32_of_i16 time))
                              prev (io m) pa w')
      | None => None
      end
  end.

(** [syncpulse] in closed form. *)
Definition syncpulse_summary (time : Z) (m : mcu) : option (unit * mcu) :=
  match future m with
  | [] => None
  | i :: w =>
      let start := wrap32 (elapsedmillis m + Z.of_nat (ticks i)) in
      match hold time start w start (pa_in i) with
      | Some (e, pa, w') =>
          Some (tt,
                mkMcu e (state m) start (previouspinstate m)
                  (exec [TM2C ::= 0; PA ::= 0]
                     (exec [TM2C ::= 0; TM2CT ::= 0; TM2B ::= 211;
                            TM2S ::= 0; TM2C ::= 0x28] (io m)))
                  pa w')
      | None => None
      end
  end.

(** [setup] in closed form. *)
Definition setup_summary (m : mcu) : option (unit * mcu) :=
  match future m with
  | [] => None
  | i :: w =>
      let t := wrap32 (0 + Z.of_nat (ticks i)) in
      Some (tt,
            mkMcu t 0 t 1
              (exec [PAPH ::= 0x76; PBPH ::= 0x00; PA ::= 0x00; PB ::= 0x00;
                     PAC ::= 0x08; PBC ::= 0x00] (io m))
              (pa_in i) w)
  end.

(** ** The two sides of the LED array *)

Definition reg_eq_dec (a b : reg) : {a = b} + {a <> b}.
Proof. decide equality. Defined.

(** The bits of each register that drive the pins of the left side
    (PA7, PB4..PB7) and of the right side (PA0, PB0..PB3). *)
Definition left_mask (r : reg) : Z :=
  match r with
  | PA | PAC => 0x80
  | PB | PBC => 0xf0
  | _ => 0
  end.

Definition right_mask (r : reg) : Z :=
  match r with
  | PA | PAC => 0x01
  | PB | PBC => 0x0f
  | _ => 0
  end.



(** An assignment that cannot change the bits selected by [mask]. *)
Definition keeps (mask : reg -> Z) (s : stmt) : bool :=
  match s with
  | r &= c => Z.land c (mask r) =? mask r
  | r |= c => Z.land c (mask r) =? 0
  | r ::= c => mask r =? 0
  end.

(** ** Time *)

(** Milliseconds the environment still has to deliver. *)
Fixpoint total_ticks (w : list instant) : Z :=
  match w with
  | [] => 0
  | i :: w' => Z.of_nat (ticks i) + total_ticks w'
  end.

(** [b] is at or after [a] on the 32-bit clock: the unsigned difference
    is less than half the range. *)
Definition ahead32 (a b : Z) : Prop := wrap32 (b - a) < 2 ^ 31.

(** The clock is at or after the Timing Baseline and stays less than
    half the range ahead of it for as long as the environment lasts. *)
Definition clock_leads (m : mcu) : Prop :=
  elapsed m + total_ticks (future m) < 2 ^ 31.

(** ** Patterns as step lists *)

Inductive pattern : Type :=
| Singleledccw | Singleledcw | Twoledsccw | Twoledscw
| Twoledsflapdown | Twoledsflapup | Twoledsflap | Twoledsrandom.

(** The pattern function of each pattern. *)
Definition play (p : pattern) : Z -> M unit :=
  match p with
  | Singleledccw => singleledccw
  | Singleledcw => singleledcw
  | Twoledsccw => twoledsccw
  | Twoledscw => twoledscw
  | Twoledsflapdown => twoledsflapdown
  | Twoledsflapup => twoledsflapup
  | Twoledsflap => twoledsflap
  | Twoledsrandom => twoledsrandom
  end.

(** One step on an LED Pair Command. *)
Definition stepc (c : Z * Z) : M bool := step (fst c) (snd c).

(** The four passes of the random pattern, as pairs of table indices. *)
Definition pass_forward : list (Z * Z) := map (fun i => (i, i + 20)) (range 20).
Definition pass_swapped : list (Z * Z) := map (fun i => (i + 20, i)) (range 20).
Definition pass_reverse : list (Z * Z) := map (fun i => (19 - i, 39 - i)) (range 20).
Definition pass_reverse_swapped : list (Z * Z) :=
  map (fun i => (39 - i, 19 - i)) (range 20).

(** The LED Pair Commands of a pass: the table entries at its indices. *)
Definition lookup (pass : list (Z * Z)) : list (Z * Z) :=
  map (fun c => (rs (fst c), rs (snd c))) pass.

(** The LED Pair Commands of one repeat of a pattern, in order. *)
Definition body_steps (p : pattern) : list (Z * Z) :=
  match p with
  | Singleledccw =>
      map (fun i => (i, 20)) (range 20) ++ map (fun i => (20, 19 - i)) (range 20)
  | Singleledcw =>
      map (fun i => (20, i)) (range 20) ++ map (fun i => (19 - i, 20)) (range 20)
  | Twoledsccw => map (fun i => (i, 19 - i)) (range 20)
  | Twoledscw => map (fun i => (19 - i, i)) (range 20)
  | Twoledsflapdown => map (fun i => (i, i)) (range 20)
  | Twoledsflapup => map (fun i => (19 - i, 19 - i)) (range 20)
  | Twoledsflap =>
      map (fun i => (i, i)) (range 20) ++ map (fun i => (19 - i, 19 - i)) (range 20)
  | Twoledsrandom =>
      lookup pass_forward ++ lookup pass_swapped ++
      lookup pass_reverse ++ lookup pass_reverse_swapped
  end.

(** The LED Pair Commands of [n] repeats. *)
Definition steps (p : pattern) (n : Z) : list (Z * Z) :=
  flat_map (fun _ => body_steps p) (range n).

(** The steps of [l] are all taken and none reports a sync: the machine
    after the last of them. *)
Fixpoint timeouts (l : list (Z * Z)) (m : mcu) : option mcu :=
  match l with
  | [] => Some m
  | c :: l' =>
      match (setled (fst c) (snd c) ;; waituntil 25) m with
      | Some (0, m') => timeouts l' m'
      | _ => None
      end
  end.

(** The positions a list of LED Pair Commands visits, left then right. *)
Definition visited (l : list (Z * Z)) : list Z :=
  flat_map (fun c => [fst c; snd c]) l.

(** Removal of one occurrence, and a checker for permutations. *)
Fixpoint remove_one (x : Z) (l : list Z) : option (list Z) :=
  match l with
  | [] => None
  | y :: l' =>
      if x =? y then Some l'
      else option_map (cons y) (remove_one x l')
  end.

Fixpoint permb (l1 l2 : list Z) : bool :=
  match l1 with
  | [] => match l2 with [] => true | _ => false end
  | x :: l1' =>
      match remove_one x l2 with
      | Some l2' => permb l1' l2'
      | None => false
      end
  end.

(** The four passes of one repeat, in program order. *)
Definition passes : list (list (Z * Z)) :=
  [pass_forward; pass_swapped; pass_reverse; pass_reverse_swapped].

(** How often a pass visits position [v]. *)
Definition visits (pass : list (Z * Z)) (v : Z) : nat :=
  count_occ Z.eq_dec (visited (lookup pass)) v.

(** The specification's wording of the random pattern: the table is a
    permutation, and every value in it is visited once per pass, four
    times by the four passes together. *)
Definition every_value_once_per_pass : Prop :=
  NoDup randomsequence /\
  forall v, In v randomsequence ->
    (forall pass, In pass passes -> visits pass v = 1%nat) /\
    count_occ Z.eq_dec (visited (body_steps Twoledsrandom)) v = 4%nat.

(** Pointwise equality of computations. *)
Definition eqM {A} (c c' : M A) : Prop := forall m, c m = c' m.

(** ** Environments without sync edges, on a clock polled fast enough *)

(** The sync input never goes from LOW to HIGH ([prev] is the level
    before the first instant). *)
Fixpoint quietb (prev : Z) (w : list instant) : bool :=
  match w with
  | [] => true
  | i :: w' =>
      negb ((prev =? 0) && (syncbit (pa_in i) =? 1))
      && quietb (syncbit (pa_in i)) w'
  end.

(** Every value of the clock is read at least twice in a row: at most
    one interrupt between two reads, and none right after a read that
    saw one ([fresh] tells whether the last read saw one). *)
Fixpoint pacedb (fresh : bool) (w : list instant) : bool :=
  match w with
  | [] => true
  | i :: w' =>
      match ticks i with
      | O => pacedb false w'
      | Datatypes.S O => negb fresh && pacedb true w'
      | _ => false
      end
  end.

(** The time left: what the clock has on the baseline plus what the
    environment still delivers. *)
Definition reserve (m : mcu) : Z := elapsed m + total_ticks (future m).

(** A machine in a quiet, paced environment whose clock is at most one
    step budget ahead of the baseline. *)
Definition steady (m : mcu) : Prop :=
  ((previouspinstate m =? 0) || (previouspinstate m =? 1))
  && quietb (previouspinstate m) (future m)
  && pacedb (elapsed m =? 25) (future m)
  && (elapsed m <=? 25) = true.

(** ** The scheduler *)

(** The table of the Sequence Scheduler as the specification gives it:
    patterns 1 to 8 with their repeat counts. *)
Definition schedule : list (pattern * Z) :=
  [(Singleledccw, 4); (Singleledcw, 4); (Twoledsccw, 8); (Twoledscw, 8);
   (Twoledsflapdown, 8); (Twoledsflapup, 8); (Twoledsflap, 4);
   (Twoledsrandom, 4)].

(** The terminal action of the scheduler. *)
Definition pulse_and_reset : M unit := syncpulse 25 ;; modify (set_state 0).

(** The Sequence State after each of [n] passes of [loop]. *)
Fixpoint states_after (n : nat) (m : mcu) : option (list Z) :=
  match n with
  | O => Some []
  | Datatypes.S n' =>
      match loop m with
      | Some (_, m') => option_map (cons (state m')) (states_after n' m')
      | None => None
      end
  end.



(** All the steps of one cycle of the schedule. *)
Definition cycle_steps : list (Z * Z) :=
  flat_map (fun e => steps (fst e) (snd e)) schedule.

(** ** Concrete machines and environments, for the examples *)

Definition regs_reset : regs := mkRegs 0 0 0 0 0 0 0 0 0 0.

(** A badge right after [setup], baseline and clock at 0; the sync input
    is LOW 24 ms later and HIGH at 25 ms. *)
Definition badge_edge_at_25 : mcu :=
  mkMcu 0 0 0 1 regs_reset 0 [mkInstant 24 0x00; mkInstant 1 0x10].

(** That badge when the sampling part of [waituntil 25] has run. *)
Definition badge_edge_polled : mcu :=
  mkMcu 25 0 0 0 regs_reset 0x10 [].

(** The same badge under a sync input that stays HIGH, polled once per
    millisecond for 30 ms. *)
Definition badge_idle : mcu :=
  mkMcu 0 0 0 1 regs_reset 0 (repeat (mkInstant 1 0x10) 30).

(** A badge whose clock is about to wrap around, the baseline 10 ms
    behind it, polled once per millisecond; the sync input rises. *)
Definition badge_near_wrap : mcu :=
  mkMcu (2 ^ 32 - 5) 3 (2 ^ 32 - 15) 1 regs_reset 0x10
        (repeat (mkInstant 1 0x00) 8 ++ repeat (mkInstant 1 0x10) 40).

(** A badge right after [setup]; the clock jumps 25 ms between the first
    polls, then the sync input goes LOW and HIGH again. *)
Definition badge_interrupted : mcu :=
  mkMcu 0 8 0 1 regs_reset 0
        [mkInstant 25 0x10; mkInstant 25 0x10; mkInstant 0 0x00;
         mkInstant 0 0x10; mkInstant 1 0x10].

(** The machine of [badge_interrupted] after two steps of the random
    pattern, and after the third. *)
Definition badge_interrupted_2 : mcu :=
  match timeouts (firstn 2 (steps Twoledsrandom 4)) badge_interrupted with
  | Some m => m
  | None => badge_interrupted
  end.

Definition badge_interrupted_3 : mcu :=
  match (setled 3 15 ;; waituntil 25) badge_interrupted_2 with
  | Some (_, m) => m
  | None => badge_interrupted_2
  end.

(** A clock polled exactly twice per millisecond under a sync input
    that stays HIGH, for [ms] milliseconds. *)
Definition paced_high (ms : Z) : list instant :=
  concat (repeat [mkInstant 0 0x10; mkInstant 1 0x10] (Z.to_nat ms)).


(** A badge at power-on with 36025 ms of it ahead (and one more read). *)
Definition badge_power_on : mcu :=
  mkMcu 0 0 0 0 regs_reset 0
        (paced_high 36025 ++ [mkInstant 0 0x10]).

(** A badge whose clock jumps 25 ms between polls, sync input HIGH. *)
Definition badge_jumpy : mcu :=
  mkMcu 0 8 0 1 regs_reset 0x10 (repeat (mkInstant 25 0x10) 80).

Definition badge_jumpy_after_unit : mcu :=
  match twoledsrandom 1 badge_jumpy with
  | Some (_, m) => m
  | None => badge_jumpy
  end.

(** A badge at power-on whose clock starts at 0 and advances by 1 ms at
    every read after the first, sync input HIGH. *)
Definition badge_tick_per_read : mcu :=
  mkMcu 0 0 0 0 regs_reset 0
        (mkInstant 0 0x10 :: repeat (mkInstant 1 0x10) (Z.to_nat 36026)).

Definition badge_tick_per_read_after : mcu :=
  match main 9 badge_tick_per_read with
  | Some (_, m) => m
  | None => badge_tick_per_read
  end.

(** A badge at power-on that sees the end of a sync pulse during its
    first step. *)
Definition badge_synced_at_once : mcu :=
  mkMcu 0 0 0 0 regs_reset 0
        [mkInstant 0 0x10; mkInstant 0 0x00; mkInstant 0 0x10].

Definition badge_synced_at_once_after : mcu :=
  match main 1 badge_synced_at_once with
  | Some (_, m) => m
  | None => badge_synced_at_once
  end.

(** * Further vocabulary *)

(** ** What the pins show *)

(** A pin is an input (high impedance) or an output driven high or low. *)
Inductive drive : Type := HiZ | High | Low.

Definition drive_eqb (a b : drive) : bool :=
  match a, b with
  | HiZ, HiZ | High, High | Low, Low => true
  | _, _ => false
  end.

Definition drive_of (direction level : bool) : drive :=
  if direction then (if level then High else Low) else HiZ.

(** The pin at [bit] of a port, from its control and data registers. *)
Definition pin (control data : reg) (bit : Z) (p : regs) : drive :=
  drive_of (Z.testbit (rd control p) bit) (Z.testbit (rd data p) bit).

(** The five pins of each side, in the order of the wiring table in the
    source: PB4 PB5 PB6 PB7 PA7 on the left, and their mirror images
    PB3 PB2 PB1 PB0 PA0 on the right. *)
Definition left_wires : list (reg * reg * Z) :=
  [(PBC, PB, 4); (PBC, PB, 5); (PBC, PB, 6); (PBC, PB, 7); (PAC, PA, 7)].

Definition right_wires : list (reg * reg * Z) :=
  [(PBC, PB, 3); (PBC, PB, 2); (PBC, PB, 1); (PBC, PB, 0); (PAC, PA, 0)].

Definition side_pins (wires : list (reg * reg * Z)) (p : regs) : list drive :=
  map (fun w => pin (fst (fst w)) (snd (fst w)) (snd w) p) wires.

Definition left_pins : regs -> list drive := side_pins left_wires.
Definition right_pins : regs -> list drive := side_pins right_wires.

(** The wiring table of the source comment: LED [k] of a side sits
    between a plus pin and a minus pin, given as positions in the lists
    above (L00 is PB4 plus, PA7 minus; L07 is PB5 plus, PB4 minus). *)
Definition wiring : list (nat * nat) :=
  [(0, 4); (0, 3); (0, 2); (0, 1); (1, 4); (1, 3); (1, 2); (1, 0);
   (2, 4); (2, 3); (2, 1); (2, 0); (3, 4); (3, 2); (3, 1); (3, 0);
   (4, 3); (4, 2); (4, 1); (4, 0)]%nat.

Definition all_off : list drive := repeat HiZ 5.

(** The pin states that light LED [k] and no other. *)
Definition lit_pattern (k : nat) : list drive :=
  match nth_error wiring k with
  | Some (plus, minus) =>
      map (fun j => if Nat.eqb j plus then High
                    else if Nat.eqb j minus then Low else HiZ)
          (seq 0 5)
  | None => all_off
  end.

Fixpoint pins_eqb (a b : list drive) : bool :=
  match a, b with
  | [], [] => true
  | x :: a', y :: b' => drive_eqb x y && pins_eqb a' b'
  | _, _ => false
  end.

(** The LED that a side's pins light, if they light exactly one. *)
Definition shown (pins : list drive) : option Z :=
  option_map Z.of_nat
    (find (fun k => pins_eqb (lit_pattern k) pins) (seq 0 20)).

(** One bit of a register after a block of assignments, from the bit
    before. *)
Definition bit_after1 (s : stmt) (r : reg) (bit : Z) (b : bool) : bool :=
  match s with
  | r' &= c => if reg_eq_dec r' r then b && Z.testbit c bit else b
  | r' |= c => if reg_eq_dec r' r then b || Z.testbit c bit else b
  | r' ::= c => if reg_eq_dec r' r then Z.testbit c bit else b
  end.

Definition bit_after (l : list stmt) (r : reg) (bit : Z) (b : bool) : bool :=
  fold_left (fun b s => bit_after1 s r bit b) l b.

(** A block drives the pins [wires] to [expected] whatever they were. *)
Fixpoint settles (l : list stmt) (wires : list (reg * reg * Z))
    (expected : list drive) : bool :=
  match wires, expected with
  | [], [] => true
  | w :: wires', x :: expected' =>
      forallb (fun cb =>
        forallb (fun db =>
          drive_eqb
            (drive_of (bit_after l (fst (fst w)) (snd w) cb)
                      (bit_after l (snd (fst w)) (snd w) db)) x)
          [true; false]) [true; false]
      && settles l wires' expected'
  | _, _ => false
  end.

(** ** Calls in a row *)

(** [waituntil] called once for each budget of the list, one call after
    the other; the results in order. *)
Fixpoint waits (budgets : list Z) : M (list Z) :=
  match budgets with
  | [] => ret []
  | time :: budgets' =>
      r <- waituntil time ;;
      rs <- waits budgets' ;;
      ret (r :: rs)
  end.

(** ** More concrete machines *)

(** [badge_idle] after its first wait of 25 ms. *)
Definition badge_idle_after : mcu :=
  match waituntil 25 badge_idle with
  | Some (_, m) => m
  | None => badge_idle
  end.

(** A badge whose sync input goes LOW at the very sample that ends the
    budget and is HIGH again from the next sample on. *)
Definition badge_late_low : mcu :=
  mkMcu 0 0 0 1 regs_reset 0
        [mkInstant 24 0x10; mkInstant 1 0x00; mkInstant 1 0x10;
         mkInstant 30 0x10].

(** A badge that sees the end of a sync pulse, after which the input
    stays HIGH. *)
Definition badge_pulse_end : mcu :=
  mkMcu 0 3 0 1 regs_reset 0
        [mkInstant 5 0x00; mkInstant 1 0x10; mkInstant 1 0x10;
         mkInstant 30 0x10].

Definition badge_pulse_end_after : mcu :=
  match waituntil 25 badge_pulse_end with
  | Some (_, m) => m
  | None => badge_pulse_end
  end.

(** [badge_late_low] after its first wait of 25 ms. *)
Definition badge_late_low_after : mcu :=
  match waituntil 25 badge_late_low with
  | Some (_, m) => m
  | None => badge_late_low
  end.

(** ** Which LEDs conduct *)

(** LED [k] of a side conducts when its plus pin is driven high and its
    minus pin is driven low. *)
Definition conducts (pins : list drive) (k : nat) : bool :=
  match nth_error wiring k with
  | Some (plus, minus) =>
      drive_eqb (nth plus pins HiZ) High && drive_eqb (nth minus pins HiZ) Low
  | None => false
  end.

Definition lit (pins : list drive) : list nat :=
  filter (conducts pins) (seq 0 20).

(** The register contents after each assignment of a block in turn. *)
Fixpoint trace (l : list stmt) (p : regs) : list regs :=
  match l with
  | [] => []
  | s :: l' => exec1 s p :: trace l' (exec1 s p)
  end.

(** The control and data bits of a side's pins. *)
Definition bits_of (wires : list (reg * reg * Z)) (p : regs)
    : list (bool * bool) :=
  map (fun w => (Z.testbit (rd (fst (fst w)) p) (snd w),
                 Z.testbit (rd (snd (fst w)) p) (snd w))) wires.

(** A side's pins after a block, from the bits before. *)
Definition pins_from (l : list stmt) (wires : list (reg * reg * Z))
    (bits : list (bool * bool)) : list drive :=
  map (fun wb =>
         drive_of (bit_after l (fst (fst (fst wb))) (snd (fst wb))
                             (fst (snd wb)))
                  (bit_after l (snd (fst (fst wb))) (snd (fst wb))
                             (snd (snd wb))))
      (combine wires bits).

Fixpoint all_bits (n : nat) : list (list (bool * bool)) :=
  match n with
  | O => [[]]
  | Datatypes.S n' =>
      flat_map (fun t => map (fun h => h :: t)
                           [(true, true); (true, false);
                            (false, true); (false, false)])
               (all_bits n')
  end.

Definition subsetb (a b : list nat) : bool :=
  forallb (fun x => existsb (Nat.eqb x) b) a.

Definition only (a : list nat) (k : nat) : bool :=
  match a with
  | [x] => Nat.eqb x k
  | _ => false
  end.

(** After every prefix of the block the side lights nothing that was not
    lit before, or LED [k] alone, whatever the pins were. *)
Definition calm (l : list stmt) (wires : list (reg * reg * Z)) (k : nat)
    : bool :=
  forallb (fun bits =>
             forallb (fun j =>
                        subsetb (lit (pins_from (firstn j l) wires bits))
                                (lit (pins_from [] wires bits))
                        || only (lit (pins_from (firstn j l) wires bits)) k)
                     (seq 0 (Datatypes.S (length l))))
          (all_bits (length wires)).

(** What a side may show while LED [k] is being selected, seen from the
    register contents [p] before the call. *)
Definition shows_old_or_new (pins : regs -> list drive) (k : Z)
    (p q : regs) : Prop :=
  incl (lit (pins q)) (lit (pins p)) \/
  (0 <= k <= 19 /\ lit (pins q) = [Z.to_nat k]).

(** ** The rest of the board *)

(** The bits that drive no LED pin and that the program never reads
    from a pin: the directions of PA1..PA6, and every bit of the
    registers other than PA, PAC, PB and PBC. *)
Definition other_mask (r : reg) : Z :=
  match r with
  | PAC => 0x7e
  | PA | PB | PBC => 0
  | _ => -1
  end.

Definition count (d : drive) (pins : list drive) : nat :=
  length (filter (drive_eqb d) pins).

(** At most one pin of the side is driven high, and when one is, at most
    one is driven low. *)
Definition tidy (pins : list drive) : bool :=
  (count High pins <=? 1)%nat
  && ((count High pins =? 0)%nat || (count Low pins <=? 1)%nat).

(** Of the pins that drive no LED only PA3 (the IR LED) is an output,
    the pull-ups are as [setup] chose them, and each side of the LED
    array is tidy.  Nothing is said of the data bits of PA1..PA6: an
    assignment [PA &= c] or [PA |= c] writes back what it has read from
    the port, and what a read finds at an input pin is the level on the
    pin. *)
Definition board_ok (p : regs) : Prop :=
  Z.land (rd PAC p) 0x7e = 0x08 /\
  rd PAPH p = 0x76 /\ rd PBPH p = 0 /\
  tidy (left_pins p) = true /\ tidy (right_pins p) = true.

(** The timer of the IR carrier is stopped or was never touched. *)
Definition carrier_off (power_on : regs) (p : regs) : Prop :=
  rd TM2C p = 0 \/ rd TM2C p = rd TM2C power_on.

(** The register assignments of [syncpulse], in program order. *)
Definition syncpulse_ops : list stmt :=
  [TM2C ::= 0; TM2CT ::= 0; TM2B ::= 211; TM2S ::= 0; TM2C ::= 0x28] ++
  [TM2C ::= 0; PA ::= 0].

(** A block keeps a side tidy, whatever the pins were. *)
Definition keeps_tidy (l : list stmt) (wires : list (reg * reg * Z)) : bool :=
  forallb (fun bits => implb (tidy (pins_from [] wires bits))
                             (tidy (pins_from l wires bits)))
          (all_bits (length wires)).

(** A tidy side lights at most one LED. *)
Definition tidy_lights_one (wires : list (reg * reg * Z)) : bool :=
  forallb (fun bits => implb (tidy (pins_from [] wires bits))
                             (length (lit (pins_from [] wires bits)) <=? 1)%nat)
          (all_bits (length wires)).

(** ** Badges that agree on everything but the level of the sync input *)

Definition same_clock (m m2 : mcu) : Prop :=
  elapsedmillis m = elapsedmillis m2 /\ state m = state m2 /\
  previoustime m = previoustime m2 /\
  previouspinstate m = previouspinstate m2 /\ io m = io m2 /\
  map ticks (future m) = map ticks (future m2).

(** A badge at the end of its sequence, about to send the sync pulse;
    its clock ticks once per read.  The second one sees its sync input
    LOW all the time. *)
Definition badge_sender : mcu :=
  mkMcu 0 9 0 1 regs_reset 0x10 (repeat (mkInstant 1 0x10) 30).

Definition badge_sender_low : mcu :=
  mkMcu 0 9 0 1 regs_reset 0x10 (repeat (mkInstant 1 0x00) 30).

Definition badge_sender_after : mcu :=
  match syncpulse 25 badge_sender with
  | Some (_, m) => m
  | None => badge_sender
  end.

(** ** The shape of the patterns *)

Definition single (p : pattern) : bool :=
  match p with
  | Singleledccw | Singleledcw => true
  | _ => false
  end.

Definition led (k : Z) : bool := (0 <=? k) && (k <=? 19).

(** A step of a single-LED pattern names one LED and switches the other
    side off; a step of a two-LED pattern names one LED on each side. *)
Definition well_formed (p : pattern) (c : Z * Z) : bool :=
  if single p
  then (led (fst c) && (snd c =? 20)) || ((fst c =? 20) && led (snd c))
  else led (fst c) && led (snd c).

(** The LEDs a side lights for a position. *)
Definition lights (k : Z) : list nat := if k =? 20 then [] else [Z.to_nat k].

(** A badge whose first step sees the end of a sync pulse. *)
Definition badge_resynced : mcu :=
  mkMcu 7 4 7 1 regs_reset 0x10 [mkInstant 0 0x00; mkInstant 1 0x10].

Definition badge_resynced_after : mcu :=
  match loop badge_resynced with
  | Some (_, m) => m
  | None => badge_resynced
  end.

(** A badge in the middle of its sequence with just enough future for
    one pass of [twoledsccw 8]; the clock ticks once per read. *)
Definition badge_mid_sequence : mcu :=
  mkMcu 100 2 100 1 regs_reset 0x10 (repeat (mkInstant 1 0x10) 4000).

Definition badge_mid_sequence_after : mcu :=
  match play Twoledsccw 8 (set_state 3 badge_mid_sequence) with
  | Some (_, m) => m
  | None => badge_mid_sequence
  end.

Definition swap (c : Z * Z) : Z * Z := (snd c, fst c).

(** ** The timer interrupt *)

(** What the handler [interrupt] of the source reads and writes: the
    interrupt request flags [INTRQ], the counter [T16C] of timer T16
    and [elapsedmillis] (the field [millis_count]). *)
Record timer : Type := mkTimer { intrq : Z; t16c : Z; millis_count : Z }.

Section Interrupt.

(** The request flag of timer T16, a constant of the device header. *)
Variable INTRQ_T16 : Z.

(** [if (INTRQ & INTRQ_T16) { INTRQ &= ~INTRQ_T16; elapsedmillis++;
    T16C=6; }] with [INTRQ] a byte and [elapsedmillis] a [uint32_t]. *)
Definition interrupt (s : timer) : timer :=
  if negb (Z.land (intrq s) INTRQ_T16 =? 0)
  then mkTimer (wrap8 (Z.land (intrq s) (Z.lnot INTRQ_T16))) 6
               (wrap32 (millis_count s + 1))
  else s.

(** The timer raises its request and the handler runs. *)
Definition tick (s : timer) : timer :=
  interrupt (mkTimer (Z.lor (intrq s) INTRQ_T16) (t16c s) (millis_count s)).

End Interrupt.

(** ** Badges in step *)

(** Two badges are in step when they are at the same place of the
    sequence, at the same distance from their Timing Baselines, and
    have the same future; the values of their clocks may differ. *)
Definition in_step (m m2 : mcu) : Prop :=
  state m = state m2 /\ previouspinstate m = previouspinstate m2 /\
  elapsed m = elapsed m2 /\ future m = future m2.

Definition same_leds (m m2 : mcu) : Prop :=
  left_pins (io m) = left_pins (io m2) /\
  right_pins (io m) = right_pins (io m2).

(** What a pin is after a block depends only on what it was before. *)
Definition pin_determined (l : list stmt) (w : reg * reg * Z) : bool :=
  let after cb db :=
    drive_of (bit_after l (fst (fst w)) (snd w) cb)
             (bit_after l (snd (fst w)) (snd w) db) in
  forallb (fun x =>
    forallb (fun y =>
      implb (drive_eqb (drive_of (fst x) (snd x)) (drive_of (fst y) (snd y)))
            (drive_eqb (after (fst x) (snd x)) (after (fst y) (snd y))))
      [(true, true); (true, false); (false, true); (false, false)])
    [(true, true); (true, false); (false, true); (false, false)].

(** Two badges somewhere in their sequences, with different clocks and
    different LEDs lit, that see the end of the same sync pulse, and
    the end of another one right after it. *)
Definition badge_a : mcu :=
  mkMcu 1000 3 990 1 (exec (setled_ops 5 14) regs_reset) 0x10
        [mkInstant 1 0x00; mkInstant 2 0x10;
         mkInstant 1 0x00; mkInstant 1 0x10].

Definition badge_b : mcu :=
  mkMcu 77 6 70 1 (exec (setled_ops 12 12) regs_reset) 0x10
        [mkInstant 1 0x00; mkInstant 2 0x10;
         mkInstant 1 0x00; mkInstant 1 0x10].

Definition badge_a_synced : mcu :=
  match waituntil 25 badge_a with
  | Some (_, m) => m
  | None => badge_a
  end.

Definition badge_b_synced : mcu :=
  match waituntil 25 badge_b with
  | Some (_, m) => m
  | None => badge_b
  end.

Definition badge_a_later : mcu :=
  match ticks_of_loop 1 badge_a_synced with
  | Some (_, m) => m
  | None => badge_a_synced
  end.

(** * Proofs *)

(** ** Integers *)

Lemma syncbit_mod pa : syncbit pa = Z.shiftr pa 4 mod 2.
Proof. unfold syncbit. exact (Z.land_ones (Z.shiftr pa 4) 1 ltac:(lia)). Qed.

Lemma syncbit_bit pa : is_bit (syncbit pa).
Proof.
  unfold is_bit. rewrite syncbit_mod.
  pose proof (Z.mod_pos_bound (Z.shiftr pa 4) 2 ltac:(lia)). lia.
Qed.

Lemma wrap32_range x : 0 <= wrap32 x < 2 ^ 32.
Proof. unfold wrap32. apply Z.mod_pos_bound. lia. Qed.

Lemma wrap32_small x : 0 <= x < 2 ^ 32 -> wrap32 x = x.
Proof. unfold wrap32. intros. apply Z.mod_small. assumption. Qed.


Lemma wrap32_add_l x y : wrap32 (wrap32 x + y) = wrap32 (x + y).
Proof. unfold wrap32. apply Zplus_mod_idemp_l. Qed.

Lemma wrap32_add_r x y : wrap32 (x + wrap32 y) = wrap32 (x + y).
Proof. unfold wrap32. apply Zplus_mod_idemp_r. Qed.

Lemma wrap32_sub_l x y : wrap32 (wrap32 x - y) = wrap32 (x - y).
Proof. unfold wrap32. apply Zminus_mod_idemp_l. Qed.

Lemma wrap32_sub_r x y : wrap32 (x - wrap32 y) = wrap32 (x - y).
Proof. unfold wrap32. apply Zminus_mod_idemp_r. Qed.

(** ** The loops and their summaries *)

Lemma while_scan time : forall w m,
  future m = w ->
  while_fuel (length w) (waiting time) resample
    (elapsedmillis m, syncbit (pa_pins m)) m =
  match scan time (previoustime m) w (elapsedmillis m) (pa_pins m)
             (previouspinstate m) with
  | Some (e, pa, prev, w') =>
      Some ((e, syncbit pa),
            mkMcu e (state m) (previoustime m) prev (io m) pa w')
  | None => None
  end.
Proof.
  induction w as [|i w IH]; intros [e s p prev r pa f] Hf;
    simpl in Hf; subst f; simpl.
  - destruct ((wrap32 (e - p) <? u32_of_i16 time)
              && ((syncbit pa =? 0) || (prev =? 1))); reflexivity.
  - destruct ((wrap32 (e - p) <? u32_of_i16 time)
              && ((syncbit pa =? 0) || (prev =? 1))); [|reflexivity].
    unfold resample, millis, bind, modify, syncpin, get, ret; simpl.
    exact (IH (mkMcu _ s p (syncbit pa) r (pa_in i) w) eq_refl).
Qed.

Lemma polling_eq time m :
  polling time m =
  match future m with
  | [] => None
  | i :: w =>
      match scan time (previoustime m) w
                 (wrap32 (elapsedmillis m + Z.of_nat (ticks i)))
                 (pa_in i) (previouspinstate m) with
      | Some (e, pa, prev, w') =>
          Some ((e, syncbit pa),
                mkMcu e (state m) (previoustime m) prev (io m) pa w')
      | None => None
      end
  end.
Proof.
  destruct m as [e s p prev r pa f].
  unfold polling, bind, millis, syncpin, get, while_; simpl.
  destruct f as [|i w]; [reflexivity|]. simpl.
  exact (while_scan time w
    (mkMcu (wrap32 (e + Z.of_nat (ticks i))) s p prev r (pa_in i) w) eq_refl).
Qed.

Lemma waituntil_eq time m : waituntil time m = waituntil_summary time m.
Proof.
  unfold waituntil, waituntil_summary, bind. rewrite polling_eq.
  destruct (future m) as [|i w]; [reflexivity|].
  destruct (scan time (previoustime m) w _ (pa_in i) (previouspinstate m))
    as [[[[e' pa'] prev'] w']|]; [|reflexivity].
  unfold get, modify, ret; simpl.
  destruct ((syncbit pa' =? 1) && (prev' =? 0)); reflexivity.
Qed.

Section Scan.

Variables (time p : Z).

(** The loop test of [waituntil], on propositions. *)
Lemma waiting_test e c prev :
  is_bit c -> is_bit prev ->
  (wrap32 (e - p) <? u32_of_i16 time) && ((c =? 0) || (prev =? 1)) = true <->
  within time p e /\ ((prev =? 0) && (c =? 1) = false).
Proof.
  unfold within. intros [-> | ->] [-> | ->];
    destruct (Z.ltb_spec (wrap32 (e - p)) (u32_of_i16 time)); simpl;
    intuition (try congruence; try lia).
Qed.

Lemma samples_cons e i w :
  samples e (i :: w) =
  (wrap32 (e + Z.of_nat (ticks i)), syncbit (pa_in i))
    :: samples (wrap32 (e + Z.of_nat (ticks i))) w.
Proof. reflexivity. Qed.

Lemma scan_unfold w e pa prev :
  scan time p w e pa prev =
  if (wrap32 (e - p) <? u32_of_i16 time)
     && ((syncbit pa =? 0) || (prev =? 1))
  then
    match w with
    | [] => None
    | i :: w' =>
        scan time p w' (wrap32 (e + Z.of_nat (ticks i))) (pa_in i) (syncbit pa)
    end
  else Some (e, pa, prev, w).
Proof. destruct w; reflexivity. Qed.

(** What a finished loop has seen: the samples up to the last one show no
    edge and lie within the budget; the last one shows an edge or lies at
    or after the budget's end. *)
Lemma scan_sound : forall w e pa prev e' pa' prev' w',
  is_bit prev ->
  scan time p w e pa prev = Some (e', pa', prev', w') ->
  exists pre,
    (e, syncbit pa) :: samples e w
      = pre ++ (e', syncbit pa') :: samples e' w' /\
    prev' = level_after prev pre /\
    rising prev pre = false /\
    Forall (fun s => within time p (fst s)) pre /\
    ((prev' =? 0) && (syncbit pa' =? 1) = true \/ ~ within time p e').
Proof.
  induction w as [|i w IH]; intros e pa prev e' pa' prev' w' Hb H;
    rewrite scan_unfold in H;
    destruct ((wrap32 (e - p) <? u32_of_i16 time)
              && ((syncbit pa =? 0) || (prev =? 1))) eqn:T;
    try discriminate.
  - inversion H; subst. exists []. simpl. repeat split; auto.
    destruct ((prev' =? 0) && (syncbit pa' =? 1)) eqn:E; [now left|right].
    intro W. assert (X := proj2 (waiting_test e' _ prev'
      (syncbit_bit pa') Hb) (conj W E)). congruence.
  - apply waiting_test in T; auto using syncbit_bit. destruct T as [W E].
    apply IH in H; auto using syncbit_bit.
    destruct H as (pre & Hs & Hp & Hr & Hf & Hx).
    exists ((e, syncbit pa) :: pre). simpl. rewrite E, Hs. simpl.
    repeat split; auto.
  - inversion H; subst. exists []. simpl. repeat split; auto.
    destruct ((prev' =? 0) && (syncbit pa' =? 1)) eqn:E; [now left|right].
    intro W. assert (X := proj2 (waiting_test e' _ prev'
      (syncbit_bit pa') Hb) (conj W E)). congruence.
Qed.

(** Conversely, the loop runs up to the first sample that shows an edge
    or lies at or after the budget's end. *)
Lemma scan_complete : forall pre w e pa prev t c post,
  is_bit prev ->
  (e, syncbit pa) :: samples e w = pre ++ (t, c) :: post ->
  rising prev pre = false ->
  Forall (fun s => within time p (fst s)) pre ->
  ((level_after prev pre =? 0) && (c =? 1) = true \/ ~ within time p t) ->
  exists pa' w',
    scan time p w e pa prev = Some (t, pa', level_after prev pre, w') /\
    syncbit pa' = c /\ post = samples t w'.
Proof.
  induction pre as [|s pre IH]; intros w e pa prev t c post Hb Hs Hr Hf Hx;
    simpl in *.
  - inversion Hs; subst. exists pa, w. rewrite scan_unfold.
    destruct ((wrap32 (t - p) <? u32_of_i16 time)
              && ((syncbit pa =? 0) || (prev =? 1))) eqn:T; auto.
    apply waiting_test in T; auto using syncbit_bit.
    destruct T as [W E]. destruct Hx; [congruence | contradiction].
  - inversion Hs; subst s. clear Hs. simpl in *.
    apply orb_false_iff in Hr. destruct Hr as [E Hr].
    inversion Hf; subst. simpl in *.
    destruct w as [|i w]; [destruct pre; discriminate|].
    rewrite samples_cons in H1.
    rewrite scan_unfold.
    rewrite (proj2 (waiting_test e _ prev (syncbit_bit pa) Hb)
               (conj H2 E)).
    eapply IH; eauto using syncbit_bit.
Qed.

End Scan.

(** ** The step waiter *)

(** Every result of [waituntil], read off the samples. *)
Lemma waituntil_inv time m r m' :
  is_bit (previouspinstate m) ->
  waituntil time m = Some (r, m') ->
  exists pre t c,
    samples (elapsedmillis m) (future m)
      = pre ++ (t, c) :: samples t (future m') /\
    rising (previouspinstate m) pre = false /\
    Forall (fun s => within time (previoustime m) (fst s)) pre /\
    elapsedmillis m' = t /\ syncbit (pa_pins m') = c /\ io m' = io m /\
    ((r = 1 /\ level_after (previouspinstate m) pre = 0 /\ c = 1 /\
      state m' = 0 /\ previoustime m' = t /\ previouspinstate m' = 1)
     \/
     (r = 0 /\ (level_after (previouspinstate m) pre =? 0) && (c =? 1) = false /\
      ~ within time (previoustime m) t /\
      state m' = state m /\
      previoustime m' = wrap32 (previoustime m + u32_of_i16 time) /\
      previouspinstate m' = level_after (previouspinstate m) pre)).
Proof.
  intros Hb H. rewrite waituntil_eq in H. unfold waituntil_summary in H.
  destruct (future m) as [|i w] eqn:Hf; [discriminate|].
  destruct (scan time (previoustime m) w _ (pa_in i) (previouspinstate m))
    as [[[[e' pa'] prev'] w']|] eqn:Hs; [|discriminate].
  apply scan_sound in Hs; auto.
  destruct Hs as (pre & Hs & Hp & Hr & Hw & Hx).
  exists pre, e', (syncbit pa'). rewrite samples_cons.
  destruct ((syncbit pa' =? 1) && (prev' =? 0)) eqn:E;
    inversion H; subst r m'; clear H; simpl;
    (split; [exact Hs|]); repeat (split; [solve [auto]|]).
  - left. apply andb_true_iff in E. destruct E as [E1 E2].
    apply Z.eqb_eq in E1, E2. subst prev'. repeat split; auto.
  - right. rewrite andb_comm in E. rewrite <- Hp.
    destruct Hx as [Hx|Hx]; [congruence|]. repeat split; auto.
Qed.

(** The call returns as soon as a sample shows an edge or lies at or
    after the budget's end. *)
Lemma waituntil_run time m pre t c post :
  is_bit (previouspinstate m) ->
  samples (elapsedmillis m) (future m) = pre ++ (t, c) :: post ->
  rising (previouspinstate m) pre = false ->
  Forall (fun s => within time (previoustime m) (fst s)) pre ->
  ((level_after (previouspinstate m) pre =? 0) && (c =? 1) = true
   \/ ~ within time (previoustime m) t) ->
  exists m',
    waituntil time m
      = Some (if (level_after (previouspinstate m) pre =? 0) && (c =? 1)
              then 1 else 0, m') /\
    elapsedmillis m' = t /\ post = samples t (future m') /\
    io m' = io m /\ syncbit (pa_pins m') = c.
Proof.
  intros Hb Hs Hr Hw Hx. rewrite waituntil_eq. unfold waituntil_summary.
  destruct (future m) as [|i w] eqn:Hf;
    [destruct pre; discriminate|].
  rewrite samples_cons in Hs.
  destruct (scan_complete time (previoustime m) pre w _ (pa_in i)
              (previouspinstate m) t c post Hb Hs Hr Hw Hx)
    as (pa' & w' & Hscan & Hc & Hpost).
  rewrite Hscan. rewrite Hc, (andb_comm (c =? 1)).
  destruct ((level_after (previouspinstate m) pre =? 0) && (c =? 1));
    eexists; (split; [reflexivity|]); simpl; auto.
Qed.

Lemma rising_app prev l1 l2 :
  rising prev (l1 ++ l2)
  = rising prev l1 || rising (level_after prev l1) l2.
Proof.
  revert prev. induction l1 as [|s l1 IH]; intros prev; simpl; auto.
  rewrite IH. now rewrite orb_assoc.
Qed.

(** Before any LOW-then-HIGH pair there is a first one. *)
Lemma first_edge_exists (W : Z * Z -> Prop) : forall pre prev t post,
  level_after prev pre = 0 ->
  Forall W pre ->
  exists pre' t' post',
    pre ++ (t, 1) :: post = pre' ++ (t', 1) :: post' /\
    level_after prev pre' = 0 /\
    rising prev pre' = false /\
    Forall W pre'.
Proof.
  induction pre as [|[ts cs] pre IH]; intros prev t post Hl Hw; simpl in *.
  - exists [], t, post. auto.
  - inversion Hw; subst.
    destruct ((prev =? 0) && (cs =? 1)) eqn:E.
    + apply andb_true_iff in E. destruct E as [E1 E2].
      apply Z.eqb_eq in E1, E2. subst.
      exists [], ts, (pre ++ (t, 1) :: post). auto.
    + destruct (IH cs t post Hl H2) as (pre' & t' & post' & -> & Hl' & Hr' & Hw').
      exists ((ts, cs) :: pre'), t', post'. simpl. rewrite E. auto.
Qed.

Lemma all_high l :
  Forall (fun s : Z * Z => snd s = 1) l ->
  rising 1 l = false /\ level_after 1 l = 1.
Proof.
  induction 1 as [|[t c] l Hc _ IH]; simpl in *; auto. now subst.
Qed.

(** The first sample at or after the budget's end. *)
Lemma first_outside time p : forall l,
  Exists (fun s : Z * Z => ~ within time p (fst s)) l ->
  exists pre s post,
    l = pre ++ s :: post /\
    Forall (fun s => within time p (fst s)) pre /\
    ~ within time p (fst s).
Proof.
  induction l as [|s l IH]; intros H; [inversion H|].
  destruct (Z_lt_dec (wrap32 (fst s - p)) (u32_of_i16 time)) as [W|W].
  - inversion H; subst; [contradiction|].
    destruct (IH H1) as (pre & s' & post & -> & Hw & Hn).
    exists (s :: pre), s', post. auto.
  - exists [], s, l. auto.
Qed.

(** C1 (as amended): [waituntil] returns 1 exactly when the samples of
    the call hold a first LOW-then-HIGH pair before which every sample
    was taken within the budget; the HIGH sample of the pair may itself
    be taken at or after the budget's end.  An edge preceded only by
    samples within the budget is therefore always detected.  A sync
    input that is HIGH at entry and stays HIGH, with [previouspinstate]
    HIGH, gives 0, and does so as soon as a sample reaches the budget. *)
Theorem waituntil_detects_first_edge time m :
  is_bit (previouspinstate m) ->
  ((exists m', waituntil time m = Some (1, m')) <-> first_edge time m) /\
  (forall pre t post,
     samples (elapsedmillis m) (future m) = pre ++ (t, 1) :: post ->
     level_after (previouspinstate m) pre = 0 ->
     Forall (fun s => within time (previoustime m) (fst s)) pre ->
     exists m', waituntil time m = Some (1, m')) /\
  (previouspinstate m = 1 ->
   Forall (fun s => snd s = 1) (samples (elapsedmillis m) (future m)) ->
   (forall r m', waituntil time m = Some (r, m') -> r = 0) /\
   (Exists (fun s => ~ within time (previoustime m) (fst s))
           (samples (elapsedmillis m) (future m)) ->
    exists m', waituntil time m = Some (0, m'))).
Proof.
  intros Hb.
  assert (Hrun : first_edge time m ->
                 exists m', waituntil time m = Some (1, m')).
  { intros (pre & t & post & Hs & Hl & Hr & Hw).
    destruct (waituntil_run time m pre t 1 post Hb Hs Hr Hw) as (m' & H & _).
    - left. rewrite Hl. reflexivity.
    - rewrite Hl in H. exists m'. exact H. }
  split; [split; [|exact Hrun]|split].
  - intros [m' H]. apply waituntil_inv in H; auto.
    destruct H as (pre & t & c & Hs & Hr & Hw & _ & _ & _ & [H|H]);
      [|destruct H; discriminate].
    destruct H as (_ & Hl & -> & _).
    exists pre, t, (samples t (future m')). auto.
  - intros pre t post Hs Hl Hw. apply Hrun.
    destruct (first_edge_exists _ pre _ t post Hl Hw)
      as (pre' & t' & post' & He & Hl' & Hr' & Hw').
    exists pre', t', post'. rewrite Hs. auto.
  - intros Hp Hh. rewrite Hp in *. split.
    + intros r m' H. apply waituntil_inv in H; [|rewrite Hp; right; reflexivity].
      destruct H as (pre & t & c & Hs & _ & _ & _ & _ & _ & [H|H]);
        [|tauto].
      rewrite Hp in H. destruct H as (_ & Hl & _).
      rewrite Hs in Hh. apply Forall_app in Hh. destruct Hh as [Hh _].
      apply all_high in Hh. lia.
    + intros Hx. apply first_outside in Hx.
      destruct Hx as (pre & [t c] & post & Hs & Hw & Hn).
      rewrite Hs in Hh. apply Forall_app in Hh. destruct Hh as [Hh _].
      apply all_high in Hh. destruct Hh as [Hr Hl].
      destruct (waituntil_run time m pre t c post) as (m' & H & _);
        rewrite ?Hp; auto.
      rewrite Hp, Hl in H. exists m'. exact H.
Qed.

Lemma waituntil_detects_first_edge_witness :
  is_bit (previouspinstate badge_edge_at_25) /\
  ((exists m', waituntil 25 badge_edge_at_25 = Some (1, m'))
   <-> first_edge 25 badge_edge_at_25).
Proof.
  split.
  - right. reflexivity.
  - apply (waituntil_detects_first_edge 25 badge_edge_at_25).
    right. reflexivity.
Defined.

(** C1 (as stated) fails: the sync input is LOW 24 ms after the
    baseline and HIGH at 25 ms, when the budget of 25 ms has elapsed;
    [waituntil 25] returns 1 although no edge was seen strictly before
    the budget's end. *)
Lemma waituntil_detects_at_budget_end :
  (exists m', waituntil 25 badge_edge_at_25 = Some (1, m')) /\
  ~ edge_before_budget 25 badge_edge_at_25.
Proof.
  split.
  - eexists. vm_compute. reflexivity.
  - intros (pre & t & post & Hs & Hl & Hw).
    vm_compute in Hs.
    destruct pre as [|s0 [|s1 [|s2 pre]]]; simpl in Hs; inversion Hs; subst.
    vm_compute in Hw. discriminate.
Qed.

(** C2: when the samples of a call show no rising edge up to and
    including the first one taken at or after the budget's end, whatever
    the clock reads there, [waituntil] returns 0 and the Timing Baseline
    is the old one plus the budget, in [uint32_t] arithmetic (the plain
    sum when it fits), and the Sequence State is untouched. *)
Theorem waituntil_timeout_advances_baseline time m pre t c post :
  is_bit (previouspinstate m) ->
  samples (elapsedmillis m) (future m) = pre ++ (t, c) :: post ->
  Forall (fun s => within time (previoustime m) (fst s)) pre ->
  ~ within time (previoustime m) t ->
  rising (previouspinstate m) (pre ++ [(t, c)]) = false ->
  exists m',
    waituntil time m = Some (0, m') /\
    previoustime m' = wrap32 (previoustime m + time) /\
    (0 <= previoustime m + time < 2 ^ 32 ->
     previoustime m' = previoustime m + time) /\
    elapsedmillis m' = t /\
    state m' = state m.
Proof.
  intros Hb Hs Hw Hn Hr.
  rewrite rising_app in Hr. apply orb_false_iff in Hr.
  destruct Hr as [Hr He]. simpl in He. rewrite orb_false_r in He.
  destruct (waituntil_run time m pre t c post Hb Hs Hr Hw (or_intror Hn))
    as (m' & H & Ht & _).
  rewrite He in H. exists m'. split; [exact H|].
  apply waituntil_inv in H; auto.
  destruct H as (pre' & t' & c' & _ & _ & _ & _ & _ & _ & [H|H]);
    [destruct H; discriminate|].
  destruct H as (_ & _ & _ & Hst & Hp & _).
  assert (Hp' : previoustime m' = wrap32 (previoustime m + time)).
  { rewrite Hp. unfold u32_of_i16. apply wrap32_add_r. }
  repeat split; auto.
  intros Hfit. rewrite Hp'. apply wrap32_small. exact Hfit.
Qed.

Lemma waituntil_timeout_advances_baseline_witness :
  exists m',
    waituntil 25 badge_idle = Some (0, m') /\
    previoustime m' = wrap32 (previoustime badge_idle + 25) /\
    (0 <= previoustime badge_idle + 25 < 2 ^ 32 ->
     previoustime m' = previoustime badge_idle + 25) /\
    elapsedmillis m' = 25 /\
    state m' = state badge_idle.
Proof.
  apply (waituntil_timeout_advances_baseline 25 badge_idle
           (map (fun k => (Z.of_nat k, 1)) (seq 1 24)) 25 1
           (map (fun k => (Z.of_nat k, 1)) (seq 26 5))).
  - right. reflexivity.
  - vm_compute. reflexivity.
  - simpl map.
    repeat (apply Forall_cons; [vm_compute; reflexivity|]). apply Forall_nil.
  - vm_compute. discriminate.
  - vm_compute. reflexivity.
Defined.

(** C5: when the sampling part of [waituntil] ends on a rising edge
    (current sample HIGH, previous sample LOW), [waituntil] returns 1
    with the Sequence State at 0, the Timing Baseline at the clock value
    of the detecting sample and [previouspinstate] HIGH; nothing else
    changes. *)
Theorem waituntil_on_rising_edge time m currenttime currentpinstate m1 :
  polling time m = Some ((currenttime, currentpinstate), m1) ->
  currentpinstate = 1 ->
  previouspinstate m1 = 0 ->
  exists m',
    waituntil time m = Some (1, m') /\
    state m' = 0 /\
    previoustime m' = currenttime /\
    currenttime = elapsedmillis m1 /\
    previouspinstate m' = 1 /\
    currentpinstate = syncbit (pa_pins m1) /\
    elapsedmillis m' = elapsedmillis m1 /\
    io m' = io m1 /\ pa_pins m' = pa_pins m1 /\ future m' = future m1.
Proof.
  intros H Hc Hp. unfold waituntil, bind. rewrite H. subst currentpinstate.
  unfold get, modify, ret. simpl. rewrite Hp. simpl.
  eexists. split; [reflexivity|]. simpl.
  rewrite polling_eq in H.
  destruct (future m); [discriminate|].
  destruct (scan _ _ _ _ _ _) as [[[[e' pa'] prev'] w']|]; [|discriminate].
  inversion H; subst. simpl. repeat split; auto.
Qed.

Lemma waituntil_on_rising_edge_witness :
  polling 25 badge_edge_at_25 = Some ((25, 1), badge_edge_polled) /\
  previouspinstate badge_edge_polled = 0 /\
  exists m',
    waituntil 25 badge_edge_at_25 = Some (1, m') /\
    state m' = 0 /\ previoustime m' = 25 /\ previouspinstate m' = 1.
Proof.
  assert (H1 : polling 25 badge_edge_at_25
               = Some ((25, 1), badge_edge_polled))
    by (vm_compute; reflexivity).
  assert (H2 : previouspinstate badge_edge_polled = 0) by reflexivity.
  split; [exact H1|]. split; [exact H2|].
  destruct (waituntil_on_rising_edge 25 badge_edge_at_25 25 1
              badge_edge_polled H1 eq_refl H2)
    as (m' & Hw & Hs & Hp & _ & Hl & _).
  exists m'. auto.
Defined.

(** ** The LED driver *)

Lemma rd_wr r r' v p :
  rd r' (wr r v p) = if reg_eq_dec r r' then v else rd r' p.
Proof.
  destruct p; destruct r, r'; reflexivity.
Qed.

Lemma keeps_exec1 mask s p r :
  keeps mask s = true ->
  Z.land (rd r (exec1 s p)) (mask r) = Z.land (rd r p) (mask r).
Proof.
  destruct s as [r0 c|r0 c|r0 c]; simpl; intros H; apply Z.eqb_eq in H;
    rewrite rd_wr; destruct (reg_eq_dec r0 r) as [<-|]; auto.
  - now rewrite <- Z.land_assoc, H.
  - now rewrite Z.land_lor_distr_l, H, Z.lor_0_r.
  - now rewrite H, !Z.land_0_r.
Qed.

Lemma keeps_exec mask r : forall l p,
  forallb (keeps mask) l = true ->
  Z.land (rd r (exec l p)) (mask r) = Z.land (rd r p) (mask r).
Proof.
  unfold exec. induction l as [|s l IH]; intros p H; simpl in *; auto.
  apply andb_true_iff in H. destruct H as [Hs Hl].
  rewrite IH by assumption. now apply keeps_exec1.
Qed.

Lemma exec_app l1 l2 p : exec (l1 ++ l2) p = exec l2 (exec l1 p).
Proof. unfold exec. apply fold_left_app. Qed.

Ltac led_cases x :=
  destruct x as [|x|x];
  [ | do 5 (try destruct x as [x|x|]) | ];
  reflexivity.

Lemma left_block_keeps_right left :
  forallb (keeps right_mask) (left_block left) = true.
Proof. led_cases left. Qed.

Lemma right_block_keeps_left right :
  forallb (keeps left_mask) (right_block right) = true.
Proof. led_cases right. Qed.

Lemma setled_eq left right m :
  setled left right m
  = Some (tt, set_io (exec (setled_ops left right) (io m)) m).
Proof.
  destruct m. unfold setled, setled_ops, bind, regops, modify, ret.
  destruct (left <? 21), (right <? 21); simpl; rewrite ?exec_app;
    reflexivity.
Qed.


Lemma left_ops_keep_right left p r :
  Z.land (rd r (exec (if left <? 21 then left_block left else []) p))
         (right_mask r)
  = Z.land (rd r p) (right_mask r).
Proof.
  apply keeps_exec. destruct (left <? 21); auto using left_block_keeps_right.
Qed.

Lemma right_ops_keep_left right p r :
  Z.land (rd r (exec (if right <? 21 then right_block right else []) p))
         (left_mask r)
  = Z.land (rd r p) (left_mask r).
Proof.
  apply keeps_exec. destruct (right <? 21); auto using right_block_keeps_left.
Qed.







(** ** The Timing Baseline *)

Lemma total_ticks_app w1 w2 :
  total_ticks (w1 ++ w2) = total_ticks w1 + total_ticks w2.
Proof. induction w1; simpl; lia. Qed.

Lemma total_ticks_nonneg w : 0 <= total_ticks w.
Proof. induction w; simpl; lia. Qed.

(** The instants a finished loop of [waituntil] has used up. *)
Lemma scan_ticks time p : forall w e pa prev e' pa' prev' w',
  0 <= e < 2 ^ 32 ->
  scan time p w e pa prev = Some (e', pa', prev', w') ->
  exists used,
    w = used ++ w' /\ e' = wrap32 (e + total_ticks used).
Proof.
  induction w as [|i w IH]; intros e pa prev e' pa' prev' w' He H;
    rewrite scan_unfold in H;
    destruct (_ && _); try discriminate.
  - inversion H; subst. exists []. simpl.
    now rewrite Z.add_0_r, wrap32_small.
  - apply IH in H; [|apply wrap32_range]. destruct H as (used & -> & ->).
    exists (i :: used). simpl. rewrite wrap32_add_l, Z.add_assoc. auto.
  - inversion H; subst. exists []. simpl.
    now rewrite Z.add_0_r, wrap32_small.
Qed.

Lemma hold_unfold time p w e pa :
  hold time p w e pa =
  if wrap32 (e - p) <? u32_of_i16 time then
    match w with
    | [] => None
    | i :: w' => hold time p w' (wrap32 (e + Z.of_nat (ticks i))) (pa_in i)
    end
  else Some (e, pa, w).
Proof. destruct w; reflexivity. Qed.

Lemma hold_ticks time p : forall w e pa e' pa' w',
  0 <= e < 2 ^ 32 ->
  hold time p w e pa = Some (e', pa', w') ->
  exists used,
    w = used ++ w' /\ e' = wrap32 (e + total_ticks used) /\
    ~ within time p e'.
Proof.
  unfold within.
  induction w as [|i w IH]; intros e pa e' pa' w' He H;
    rewrite hold_unfold in H;
    destruct (Z.ltb_spec (wrap32 (e - p)) (u32_of_i16 time));
    try discriminate.
  - inversion H; subst. exists []. simpl.
    rewrite Z.add_0_r, wrap32_small by assumption. repeat split; auto. lia.
  - apply IH in H; [|apply wrap32_range].
    destruct H as (used & -> & -> & Hn).
    exists (i :: used). simpl.
    rewrite Z.add_assoc, <- (wrap32_add_l (e + Z.of_nat (ticks i))). auto.
  - inversion H; subst. exists []. simpl.
    rewrite Z.add_0_r, wrap32_small by assumption. repeat split; auto. lia.
Qed.

Lemma while_hold time : forall w m,
  future m = w ->
  while_fuel (length w)
    (fun currenttime m =>
       wrap32 (currenttime - previoustime m) <? u32_of_i16 time)
    (fun _ => millis) (elapsedmillis m) m =
  match hold time (previoustime m) w (elapsedmillis m) (pa_pins m) with
  | Some (e, pa, w') =>
      Some (e, mkMcu e (state m) (previoustime m) (previouspinstate m)
                     (io m) pa w')
  | None => None
  end.
Proof.
  induction w as [|i w IH]; intros [e s p prev r pa f] Hf;
    simpl in Hf; subst f; simpl.
  - destruct (wrap32 (e - p) <? u32_of_i16 time); reflexivity.
  - destruct (wrap32 (e - p) <? u32_of_i16 time); [|reflexivity].
    unfold millis; simpl.
    exact (IH (mkMcu _ s p prev r (pa_in i) w) eq_refl).
Qed.

Lemma syncpulse_eq time m : syncpulse time m = syncpulse_summary time m.
Proof.
  destruct m as [e s p prev r pa f].
  unfold syncpulse, syncpulse_summary, bind, regops, modify, while_.
  destruct f as [|i w]; [reflexivity|].
  unfold set_previoustime. simpl.
  pose proof (while_hold time w
    (mkMcu (wrap32 (e + Z.of_nat (ticks i))) s
           (wrap32 (e + Z.of_nat (ticks i))) prev
           (exec [TM2C ::= 0; TM2CT ::= 0; TM2B ::= 211; TM2S ::= 0;
                  TM2C ::= 0x28] r)
           (pa_in i) w) eq_refl) as H.
  simpl in H. simpl. rewrite H. clear H.
  destruct (hold time _ w _ (pa_in i)) as [[[e' pa'] w']|]; reflexivity.
Qed.

(** The instants a call of [waituntil] uses up, and where the clock is
    afterwards. *)
Lemma waituntil_ticks time m r m' :
  waituntil time m = Some (r, m') ->
  exists used,
    future m = used ++ future m' /\ used <> [] /\
    elapsedmillis m' = wrap32 (elapsedmillis m + total_ticks used).
Proof.
  rewrite waituntil_eq. unfold waituntil_summary. intros H.
  destruct (future m) as [|i w]; [discriminate|].
  destruct (scan _ _ _ _ _ _) as [[[[e' pa'] prev'] w']|] eqn:Hs;
    [|discriminate].
  apply scan_ticks in Hs; [|apply wrap32_range].
  destruct Hs as (used & -> & He).
  rewrite wrap32_add_l, <- Z.add_assoc in He.
  exists (i :: used).
  destruct (_ && _); inversion H; subst; simpl; repeat split; auto;
    discriminate.
Qed.

Lemma syncpulse_ticks time m m' :
  syncpulse time m = Some (tt, m') ->
  exists i used,
    future m = i :: used ++ future m' /\
    previoustime m' = wrap32 (elapsedmillis m + Z.of_nat (ticks i)) /\
    elapsedmillis m' = wrap32 (previoustime m' + total_ticks used) /\
    ~ within time (previoustime m') (elapsedmillis m') /\
    state m' = state m /\ previouspinstate m' = previouspinstate m.
Proof.
  rewrite syncpulse_eq. unfold syncpulse_summary. intros H.
  destruct (future m) as [|i w]; [discriminate|].
  cbv zeta in H.
  destruct (hold _ _ _ _ _) as [[[e' pa'] w']|] eqn:Hs; [|discriminate].
  apply hold_ticks in Hs; [|apply wrap32_range].
  destruct Hs as (used & -> & He & Hn).
  exists i, used. inversion H; subst; simpl. repeat split; auto.
Qed.

Lemma elapsed_range m : 0 <= elapsed m < 2 ^ 32.
Proof. apply wrap32_range. Qed.

(** The clock's lead over the baseline after [k] more ticks. *)
Lemma lead_after m k :
  0 <= k -> elapsed m + k < 2 ^ 32 ->
  wrap32 (wrap32 (elapsedmillis m + k) - previoustime m) = elapsed m + k.
Proof.
  intros Hk Hs. pose proof (elapsed_range m) as He.
  rewrite wrap32_sub_l.
  replace (elapsedmillis m + k - previoustime m)
    with (elapsedmillis m - previoustime m + k) by lia.
  rewrite <- wrap32_add_l. fold (elapsed m). apply wrap32_small. lia.
Qed.

(** C8: with a budget that is not negative and a clock that is at or
    after the Timing Baseline (and stays within half the 32-bit range of
    it), every update of the baseline, by [waituntil] on timeout or on
    sync detection and by [syncpulse], moves it forward in wrap-around
    arithmetic, and the clock is again at or after the new baseline. *)
Theorem baseline_moves_forward time m :
  0 <= time < 2 ^ 15 ->
  is_bit (previouspinstate m) ->
  clock_leads m ->
  (forall r m', waituntil time m = Some (r, m') ->
     ahead32 (previoustime m) (previoustime m') /\ clock_leads m') /\
  (forall m', syncpulse time m = Some (tt, m') ->
     ahead32 (previoustime m) (previoustime m') /\ clock_leads m').
Proof.
  unfold clock_leads, ahead32. intros Ht Hb Hl.
  pose proof (elapsed_range m) as He.
  assert (Hu : u32_of_i16 time = time).
  { unfold u32_of_i16. apply wrap32_small. lia. }
  split.
  - intros r m' H.
    destruct (waituntil_ticks _ _ _ _ H) as (used & Hf & _ & Hc).
    pose proof (total_ticks_nonneg used) as Hk.
    pose proof (total_ticks_nonneg (future m')) as Hk'.
    rewrite Hf, total_ticks_app in Hl.
    assert (Hlead : wrap32 (elapsedmillis m' - previoustime m)
                    = elapsed m + total_ticks used).
    { rewrite Hc. apply lead_after; lia. }
    apply waituntil_inv in H; auto.
    destruct H as (pre & t & c & _ & _ & _ & Et & _ & _ & [H|H]).
    + destruct H as (_ & _ & _ & _ & Hp & _).
      unfold elapsed. rewrite Hp, <- Et, Hlead, Z.sub_diag.
      change (wrap32 0) with 0. lia.
    + destruct H as (_ & _ & Hn & _ & Hp & _).
      unfold within in Hn. rewrite <- Et, Hlead, Hu in Hn.
      unfold elapsed at 1. rewrite Hp, Hu.
      rewrite wrap32_sub_l.
      replace (previoustime m + time - previoustime m) with time by lia.
      rewrite (wrap32_small time) by lia.
      rewrite wrap32_sub_r.
      replace (elapsedmillis m' - (previoustime m + time))
        with (elapsedmillis m' - previoustime m - time) by lia.
      rewrite <- wrap32_sub_l, Hlead.
      rewrite wrap32_small by lia. lia.
  - intros m' H.
    destruct (syncpulse_ticks _ _ _ H) as (i & used & Hf & Hp & Hc & _).
    pose proof (total_ticks_nonneg used) as Hk.
    pose proof (total_ticks_nonneg (future m')) as Hk'.
    rewrite Hf in Hl. simpl in Hl. rewrite total_ticks_app in Hl.
    unfold elapsed at 1. rewrite Hc, Hp.
    rewrite lead_after by lia.
    rewrite wrap32_sub_l.
    match goal with
    | |- context [wrap32 (?a + ?k - ?a)] =>
        replace (a + k - a) with k by lia
    end.
    rewrite (wrap32_small (total_ticks used)) by lia. lia.
Qed.

Lemma baseline_moves_forward_witness :
  (0 <= 25 < 2 ^ 15) /\
  is_bit (previouspinstate badge_near_wrap) /\
  clock_leads badge_near_wrap /\
  (forall r m', waituntil 25 badge_near_wrap = Some (r, m') ->
     ahead32 (previoustime badge_near_wrap) (previoustime m') /\
     clock_leads m') /\
  (forall m', syncpulse 25 badge_near_wrap = Some (tt, m') ->
     ahead32 (previoustime badge_near_wrap) (previoustime m') /\
     clock_leads m').
Proof.
  assert (H1 : 0 <= 25 < 2 ^ 15) by lia.
  assert (H2 : is_bit (previouspinstate badge_near_wrap))
    by (right; reflexivity).
  assert (H3 : clock_leads badge_near_wrap) by (vm_compute; reflexivity).
  split; [exact H1|]. split; [exact H2|]. split; [exact H3|].
  exact (baseline_moves_forward 25 badge_near_wrap H1 H2 H3).
Defined.

(** ** Loops with [return] *)

Lemma and_then_ext (a a' b b' : M bool) :
  eqM a a' -> eqM b b' -> eqM (a ;;; b) (a' ;;; b').
Proof.
  intros Ha Hb m. unfold and_then, bind. rewrite Ha.
  destruct (a' m) as [[[] m']|]; auto.
Qed.

Lemma for_app {A} (f : A -> M bool) l1 l2 :
  eqM (for_ (l1 ++ l2) f) (for_ l1 f ;;; for_ l2 f).
Proof.
  induction l1 as [|x l1 IH]; intros m; simpl.
  - reflexivity.
  - unfold and_then, bind.
    destruct (f x m) as [[[] m']|]; auto.
Qed.

Lemma for_app_ext {A} (f : A -> M bool) l1 l2 a b :
  eqM (for_ l1 f) a -> eqM (for_ l2 f) b ->
  eqM (for_ (l1 ++ l2) f) (a ;;; b).
Proof.
  intros Ha Hb m. rewrite for_app. now apply and_then_ext.
Qed.

Lemma for_map {A B} (g : A -> B) (f : B -> M bool) l :
  eqM (for_ (map g l) f) (for_ l (fun x => f (g x))).
Proof.
  induction l as [|x l IH]; intros m; simpl; auto.
  apply and_then_ext; auto. intro; reflexivity.
Qed.

Lemma for_flat_map {A B} (g : A -> list B) (f : B -> M bool) (body : A -> M bool) l :
  (forall x, eqM (for_ (g x) f) (body x)) ->
  eqM (for_ (flat_map g l) f) (for_ l body).
Proof.
  intros H. induction l as [|x l IH]; intros m; simpl; auto.
  rewrite for_app. apply and_then_ext; auto.
Qed.

Lemma finish_ext (a b : M bool) : eqM a b -> eqM (finish a) (finish b).
Proof. intros H m. unfold finish, bind. now rewrite H. Qed.

(** Every pattern function runs its step list, up to the first step that
    reports a sync. *)
Lemma play_steps p n : eqM (play p n) (finish (for_ (steps p n) stepc)).
Proof.
  intros m. symmetry. revert m.
  destruct p; apply finish_ext; unfold steps, body_steps, lookup;
    apply for_flat_map; intros _;
    repeat (apply for_app_ext); rewrite ?map_map;
    exact (for_map _ stepc _).
Qed.

(** ** Aborting a pattern *)

Lemma stepc_eq c m :
  stepc c m =
  match (setled (fst c) (snd c) ;; waituntil 25) m with
  | Some (r, m') => Some (negb (r =? 0), m')
  | None => None
  end.
Proof.
  unfold stepc, step, bind. destruct (setled (fst c) (snd c) m) as [[[] m1]|];
    [|reflexivity].
  destruct (waituntil 25 m1) as [[r m2]|]; reflexivity.
Qed.

Lemma for_timeouts : forall l m m1,
  timeouts l m = Some m1 -> for_ l stepc m = Some (false, m1).
Proof.
  induction l as [|c l IH]; intros m m1 H; simpl in *.
  - now inversion H.
  - unfold and_then, bind. rewrite stepc_eq.
    destruct ((setled (fst c) (snd c) ;; waituntil 25) m) as [[r m']|];
      [|discriminate].
    destruct r; try discriminate. simpl. auto.
Qed.

Lemma for_abort : forall pre c post m m1 m2,
  timeouts pre m = Some m1 ->
  (setled (fst c) (snd c) ;; waituntil 25) m1 = Some (1, m2) ->
  for_ (pre ++ c :: post) stepc m = Some (true, m2).
Proof.
  induction pre as [|c0 pre IH]; intros c post m m1 m2 H H1; simpl in *.
  - inversion H; subst. unfold and_then, bind. rewrite stepc_eq, H1.
    reflexivity.
  - unfold and_then, bind. rewrite stepc_eq.
    destruct ((setled (fst c0) (snd c0) ;; waituntil 25) m) as [[r m']|];
      [|discriminate].
    destruct r; try discriminate. simpl. eauto.
Qed.

Lemma detected_state left right time m m' :
  (setled left right ;; waituntil time) m = Some (1, m') -> state m' = 0.
Proof.
  unfold bind. rewrite setled_eq. rewrite waituntil_eq.
  unfold waituntil_summary.
  destruct (future _); [discriminate|].
  destruct (scan _ _ _ _ _ _) as [[[[e' pa'] prev'] w']|]; [|discriminate].
  destruct (_ && _); inversion 1. reflexivity.
Qed.

(** C4: for every pattern function and repeat count, if the steps before
    step [k] all time out and the Step Waiter reports a sync at step [k],
    the pattern function returns with the machine exactly as that call
    of [waituntil] left it (no later step or repeat has run) and with
    the Sequence State at 0. *)
Theorem pattern_aborts_on_sync p n m k c m1 m2 :
  nth_error (steps p n) k = Some c ->
  timeouts (firstn k (steps p n)) m = Some m1 ->
  (setled (fst c) (snd c) ;; waituntil 25) m1 = Some (1, m2) ->
  play p n m = Some (tt, m2) /\ state m2 = 0.
Proof.
  intros Hk Ht Hd. split; [|eapply detected_state; eauto].
  rewrite play_steps. unfold finish, bind.
  apply nth_error_split in Hk. destruct Hk as (l1 & l2 & Hs & Hlen).
  rewrite Hs in *. subst k.
  rewrite firstn_app, firstn_all, Nat.sub_diag in Ht. simpl in Ht.
  rewrite app_nil_r in Ht.
  now rewrite (for_abort l1 c l2 m m1 m2 Ht Hd).
Qed.

Lemma pattern_aborts_on_sync_witness :
  nth_error (steps Twoledsrandom 4) 2 = Some (3, 15) /\
  timeouts (firstn 2 (steps Twoledsrandom 4)) badge_interrupted
    = Some badge_interrupted_2 /\
  (setled 3 15 ;; waituntil 25) badge_interrupted_2
    = Some (1, badge_interrupted_3) /\
  play Twoledsrandom 4 badge_interrupted = Some (tt, badge_interrupted_3) /\
  state badge_interrupted_3 = 0.
Proof.
  assert (H1 : nth_error (steps Twoledsrandom 4) 2 = Some (3, 15))
    by (vm_compute; reflexivity).
  assert (H2 : timeouts (firstn 2 (steps Twoledsrandom 4)) badge_interrupted
               = Some badge_interrupted_2) by (vm_compute; reflexivity).
  assert (H3 : (setled (fst (3, 15)) (snd (3, 15)) ;; waituntil 25)
                 badge_interrupted_2 = Some (1, badge_interrupted_3))
    by (vm_compute; reflexivity).
  split; [exact H1|]. split; [exact H2|]. split; [exact H3|].
  exact (pattern_aborts_on_sync Twoledsrandom 4 badge_interrupted 2 (3, 15)
           badge_interrupted_2 badge_interrupted_3 H1 H2 H3).
Defined.

(** ** The random pattern *)

Lemma remove_one_perm x : forall l l',
  remove_one x l = Some l' -> Permutation l (x :: l').
Proof.
  induction l as [|y l IH]; intros l' H; simpl in H; [discriminate|].
  destruct (Z.eqb_spec x y) as [->|_].
  - inversion H; subst. apply Permutation_refl.
  - destruct (remove_one x l) as [l0|]; [|discriminate].
    inversion H; subst. eapply perm_trans; [|apply perm_swap].
    apply perm_skip. now apply IH.
Qed.

Lemma permb_sound : forall l1 l2, permb l1 l2 = true -> Permutation l1 l2.
Proof.
  induction l1 as [|x l1 IH]; intros l2 H; simpl in H.
  - destruct l2; [constructor|discriminate].
  - destruct (remove_one x l2) as [l2'|] eqn:E; [|discriminate].
    apply remove_one_perm in E. apply Permutation_sym in E.
    eapply perm_trans; [|exact E]. apply perm_skip. now apply IH.
Qed.

Lemma table_in_range :
  forallb (fun v => (0 <=? v) && (v <=? 19)) randomsequence = true.
Proof. reflexivity. Qed.

(** C7 (as amended): one repeat of the random pattern is the four passes
    in order (forward, operands swapped, reverse, reverse with operands
    swapped); each pass reads every index of the 40-entry table exactly
    once, so it visits the table's entries, each once, and the four
    passes together visit every entry four times.  The entries are LED
    positions 0..19; a pass visits a position as often as the table
    holds it, the four passes four times as often, and every position
    0..19 at least once per pass. *)
Theorem random_passes_visit_table :
  (forall n,
     eqM (twoledsrandom n)
         (finish (for_ (flat_map
                          (fun _ => lookup pass_forward ++ lookup pass_swapped ++
                                    lookup pass_reverse ++
                                    lookup pass_reverse_swapped)
                          (range n)) stepc))) /\
  length randomsequence = 40%nat /\
  Forall (fun pass =>
            Permutation (visited pass) (range 40) /\
            Permutation (visited (lookup pass)) randomsequence)
         [pass_forward; pass_swapped; pass_reverse; pass_reverse_swapped] /\
  Permutation (visited (body_steps Twoledsrandom))
              (randomsequence ++ randomsequence ++
               randomsequence ++ randomsequence) /\
  Forall (fun v => 0 <= v <= 19) randomsequence /\
  (forall pass v, In pass passes ->
     visits pass v = count_occ Z.eq_dec randomsequence v) /\
  (forall v,
     count_occ Z.eq_dec (visited (body_steps Twoledsrandom)) v
     = (4 * count_occ Z.eq_dec randomsequence v)%nat) /\
  (forall v, 0 <= v <= 19 ->
     (1 <= count_occ Z.eq_dec randomsequence v)%nat).
Proof.
  assert (P : Forall (fun pass =>
                Permutation (visited pass) (range 40) /\
                Permutation (visited (lookup pass)) randomsequence)
              passes).
  { repeat (apply Forall_cons;
            [split; apply permb_sound; vm_compute; reflexivity|]).
    apply Forall_nil. }
  assert (Q : Permutation (visited (body_steps Twoledsrandom))
                (randomsequence ++ randomsequence ++
                 randomsequence ++ randomsequence))
    by (apply permb_sound; vm_compute; reflexivity).
  split; [intro n; exact (play_steps Twoledsrandom n)|].
  split; [reflexivity|].
  split; [exact P|].
  split; [exact Q|].
  split; [|split; [|split]].
  - apply Forall_forall. intros v Hv.
    pose proof table_in_range as T. rewrite forallb_forall in T.
    specialize (T _ Hv). apply andb_true_iff in T. destruct T as [A B].
    apply Z.leb_le in A, B. lia.
  - intros pass v Hp. rewrite Forall_forall in P.
    destruct (P _ Hp) as [_ E]. unfold visits.
    now apply (Permutation_count_occ Z.eq_dec).
  - intros v.
    rewrite (proj1 (Permutation_count_occ Z.eq_dec _ _) Q v).
    rewrite !count_occ_app. lia.
  - intros v Hv.
    assert (A : forallb (fun k => (1 <=? count_occ Z.eq_dec randomsequence
                                           (Z.of_nat k))%nat)
                        (seq 0 20) = true) by (vm_compute; reflexivity).
    rewrite forallb_forall in A.
    assert (I : In (Z.to_nat v) (seq 0 20)) by (apply in_seq; lia).
    specialize (A _ I). rewrite Z2Nat.id in A by lia.
    now apply Nat.leb_le.
Qed.

(** C7 (as stated) fails: the table holds 10 three times (and 13 once),
    so it is no permutation, and position 10 is visited three times in
    the forward pass, twelve times in the four passes. *)
Lemma random_pass_visits_10_three_times :
  In 10 randomsequence /\
  visits pass_forward 10 = 3%nat /\
  count_occ Z.eq_dec (visited (body_steps Twoledsrandom)) 10 = 12%nat /\
  count_occ Z.eq_dec randomsequence 13 = 1%nat /\
  ~ NoDup randomsequence /\
  ~ every_value_once_per_pass.
Proof.
  assert (I : In 10 randomsequence) by (vm_compute; tauto).
  assert (V : visits pass_forward 10 = 3%nat) by (vm_compute; reflexivity).
  split; [exact I|]. split; [exact V|].
  split; [vm_compute; reflexivity|]. split; [vm_compute; reflexivity|].
  split.
  - intros N.
    pose proof (proj1 (NoDup_count_occ Z.eq_dec randomsequence) N 10) as N10.
    change (count_occ Z.eq_dec randomsequence 10) with 3%nat in N10. lia.
  - intros [_ H]. destruct (H 10 I) as [H1 _].
    specialize (H1 pass_forward (or_introl eq_refl)).
    rewrite V in H1. discriminate.
Qed.


(** ** Runs without sync edges on a paced clock *)

Lemma quietb_high prev w : quietb prev w = true -> quietb 1 w = true.
Proof.
  destruct w as [|i w]; simpl; auto.
  intros H. apply andb_true_iff in H. now destruct H as [_ ->].
Qed.

(** The level before a sample that shows no edge can stand in for it. *)
Lemma quietb_back prev c w :
  is_bit prev -> is_bit c ->
  (prev =? 0) && (c =? 1) = false ->
  quietb c w = true -> quietb prev w = true.
Proof.
  intros [->| ->] [->| ->] E H; auto; try discriminate.
  now apply quietb_high in H.
Qed.

Lemma quietb_skip prev : forall used w,
  is_bit prev -> quietb prev (used ++ w) = true -> quietb prev w = true.
Proof.
  intros used. revert prev.
  induction used as [|i used IH]; intros prev w Hb H; simpl in *; auto.
  apply andb_true_iff in H. destruct H as [E H].
  apply negb_true_iff in E.
  apply IH in H; [|apply syncbit_bit].
  now apply (quietb_back prev (syncbit (pa_in i))); auto using syncbit_bit.
Qed.

Lemma pacedb_weaken b w : pacedb true w = true -> pacedb b w = true.
Proof.
  destruct w as [|i w]; simpl; auto.
  destruct (ticks i) as [|[|k]]; auto. discriminate.
Qed.

Lemma pacedb_cons b i w :
  pacedb b (i :: w) = true ->
  (ticks i = 0%nat /\ pacedb false w = true) \/
  (ticks i = 1%nat /\ b = false /\ pacedb true w = true).
Proof.
  simpl. destruct (ticks i) as [|[|k]]; auto; [|discriminate].
  intros H. apply andb_true_iff in H. destruct H as [H1 H2].
  apply negb_true_iff in H1. auto.
Qed.

Lemma budget_25 : u32_of_i16 25 = 25.
Proof. reflexivity. Qed.

(** The clock's lead over a baseline [p] after [k] more ticks. *)
Lemma lead_step e p k :
  0 <= k -> wrap32 (e - p) + k < 2 ^ 32 ->
  wrap32 (wrap32 (e + k) - p) = wrap32 (e - p) + k.
Proof.
  intros Hk Hs. pose proof (wrap32_range (e - p)).
  rewrite wrap32_sub_l.
  replace (e + k - p) with (e - p + k) by lia.
  rewrite <- wrap32_add_l. apply wrap32_small. lia.
Qed.

Lemma scan_paced p : forall w e pa prev b d,
  is_bit prev ->
  (prev =? 0) && (syncbit pa =? 1) = false ->
  quietb (syncbit pa) w = true ->
  pacedb b w = true ->
  wrap32 (e - p) = d -> d <= 25 -> 25 - d <= total_ticks w ->
  exists e' pa' prev' w',
    scan 25 p w e pa prev = Some (e', pa', prev', w') /\
    wrap32 (e' - p) = 25 /\
    total_ticks w' = total_ticks w - (25 - d) /\
    pacedb (b || (d <? 25)) w' = true /\
    is_bit prev' /\
    (prev' =? 0) && (syncbit pa' =? 1) = false /\
    quietb (syncbit pa') w' = true.
Proof.
  induction w as [|i w IH]; intros e pa prev b d Hb He Hq Hp Hd Hle Ht;
    rewrite scan_unfold, budget_25, Hd;
    destruct (Z.ltb_spec d 25) as [Hlt|Hge].
  - cbn [total_ticks] in Ht. lia.
  - cbn [andb]. exists e, pa, prev, []. rewrite orb_false_r.
    repeat split; auto; lia.
  - assert (T : true && ((syncbit pa =? 0) || (prev =? 1)) = true).
    { destruct Hb as [->| ->], (syncbit_bit pa) as [E|E]; rewrite E in *;
        simpl in *; congruence. }
    cbn [andb] in T |- *. rewrite T.
    simpl in Hq. apply andb_true_iff in Hq. destruct Hq as [Hn Hq].
    apply negb_true_iff in Hn.
    cbn [total_ticks] in Ht.
    assert (Hk : Z.of_nat (ticks i) = 0 \/ Z.of_nat (ticks i) = 1).
    { destruct (pacedb_cons _ _ _ Hp) as [[E _]|[E _]]; rewrite E; auto. }
    assert (Hd1 : wrap32 (wrap32 (e + Z.of_nat (ticks i)) - p)
                  = d + Z.of_nat (ticks i)).
    { rewrite <- Hd. apply lead_step; lia. }
    destruct (IH (wrap32 (e + Z.of_nat (ticks i))) (pa_in i) (syncbit pa)
                 (Nat.eqb (ticks i) 1) (d + Z.of_nat (ticks i)))
      as (e' & pa' & prev' & w' & Hs & H25 & Htot & Hpc & Hb' & He' & Hq');
      auto using syncbit_bit; try lia.
    { destruct (pacedb_cons _ _ _ Hp) as [[E Hp']|[E [_ Hp']]];
        rewrite E; simpl; auto. }
    exists e', pa', prev', w'. rewrite Hs. repeat split; auto.
    { cbn [total_ticks]. lia. }
    rewrite orb_true_r.
    destruct (pacedb_cons _ _ _ Hp) as [[E Hp']|[E [_ Hp']]];
      rewrite E in Hpc.
    + replace (d + Z.of_nat 0 <? 25) with true in Hpc
        by (symmetry; apply Z.ltb_lt; lia).
      now rewrite orb_true_r in Hpc.
    + exact Hpc.
  - cbn [andb]. exists e, pa, prev, (i :: w). rewrite orb_false_r.
    repeat split; auto; lia.
Qed.

Lemma steady_iff m :
  steady m <->
  is_bit (previouspinstate m) /\
  quietb (previouspinstate m) (future m) = true /\
  pacedb (elapsed m =? 25) (future m) = true /\
  elapsed m <= 25.
Proof.
  unfold steady, is_bit.
  rewrite !andb_true_iff, orb_true_iff, !Z.eqb_eq, Z.leb_le. tauto.
Qed.

Lemma wrap32_zero_eq a b :
  0 <= a < 2 ^ 32 -> 0 <= b < 2 ^ 32 -> wrap32 (a - b) = 0 -> a = b.
Proof.
  unfold wrap32. intros Ha Hb H.
  change (2 ^ 32) with 4294967296 in *.
  Z.div_mod_to_equations. lia.
Qed.

(** One wait of 25 ms in a steady machine: it times out exactly when the
    clock reaches the baseline plus 25. *)
Lemma waituntil_steady m :
  steady m -> 25 < reserve m ->
  exists m',
    waituntil 25 m = Some (0, m') /\
    steady m' /\ elapsed m' = 0 /\
    (elapsed m < 25 -> pacedb true (future m') = true) /\
    reserve m' = reserve m - 25 /\
    previoustime m' = wrap32 (previoustime m + 25) /\
    elapsedmillis m' = previoustime m' /\
    state m' = state m /\ io m' = io m.
Proof.
  intros Hs Hr. apply steady_iff in Hs. destruct Hs as (Hb & Hq & Hp & Hle).
  pose proof (elapsed_range m) as Hel.
  unfold reserve in Hr.
  rewrite waituntil_eq. unfold waituntil_summary.
  destruct (future m) as [|i w] eqn:Hf.
  { cbn [total_ticks] in Hr. lia. }
  cbn [total_ticks] in Hr.
  simpl in Hq. apply andb_true_iff in Hq. destruct Hq as [Hn Hq].
  apply negb_true_iff in Hn.
  assert (Hk : (ticks i = 0%nat \/ ticks i = 1%nat /\ elapsed m < 25) /\
               pacedb (Nat.eqb (ticks i) 1) w = true).
  { destruct (pacedb_cons _ _ _ Hp) as [[E Hp']|[E [Hb' Hp']]];
      rewrite E; simpl; split; auto.
    right. split; auto. apply Z.eqb_neq in Hb'. lia. }
  destruct Hk as [Hk Hp1].
  assert (Hd1 : wrap32 (wrap32 (elapsedmillis m + Z.of_nat (ticks i))
                        - previoustime m)
                = elapsed m + Z.of_nat (ticks i)).
  { apply lead_step; fold (elapsed m); lia. }
  destruct (scan_paced (previoustime m) w
              (wrap32 (elapsedmillis m + Z.of_nat (ticks i))) (pa_in i)
              (previouspinstate m) (Nat.eqb (ticks i) 1)
              (elapsed m + Z.of_nat (ticks i)))
    as (e' & pa' & prev' & w' & Hs & H25 & Htot & Hpc & Hb' & He' & Hq');
    auto; try lia.
  rewrite Hs. rewrite andb_comm, He'.
  exists (mkMcu e' (state m) (wrap32 (previoustime m + 25)) prev' (io m)
                pa' w').
  split; [reflexivity|].
  assert (Hrange : 0 <= e' < 2 ^ 32).
  { apply scan_ticks in Hs; [|apply wrap32_range].
    destruct Hs as (used & _ & ->). apply wrap32_range. }
  assert (Hel' : wrap32 (e' - wrap32 (previoustime m + 25)) = 0).
  { rewrite wrap32_sub_r.
    replace (e' - (previoustime m + 25)) with (e' - previoustime m - 25)
      by lia.
    rewrite <- wrap32_sub_l, H25. reflexivity. }
  assert (Hpw : pacedb false w' = true).
  { destruct (Nat.eqb (ticks i) 1 || (elapsed m + Z.of_nat (ticks i) <? 25));
      auto using pacedb_weaken. }
  assert (E0 : elapsed (mkMcu e' (state m) (wrap32 (previoustime m + 25))
                              prev' (io m) pa' w') = 0) by exact Hel'.
  split; [|split; [|split; [|split; [|split; [|split]]]]]; auto.
  - apply steady_iff. rewrite E0. simpl.
    repeat split; auto; [|lia].
    apply (quietb_back prev' (syncbit pa')); auto using syncbit_bit.
  - intros Hlt. simpl.
    destruct Hk as [E|[E _]]; rewrite E in *.
    + replace (elapsed m + Z.of_nat 0 <? 25) with true in Hpc
        by (symmetry; apply Z.ltb_lt; lia).
      now rewrite orb_true_r in Hpc.
    + exact Hpc.
  - unfold reserve. rewrite E0, Hf. simpl future. cbn [total_ticks]. lia.
  - simpl. apply wrap32_zero_eq; auto. apply wrap32_range.
Qed.

Lemma steady_set_io v m : steady (set_io v m) <-> steady m.
Proof. destruct m. reflexivity. Qed.

Lemma step_steady c m :
  steady m -> 25 < reserve m ->
  exists m',
    (setled (fst c) (snd c) ;; waituntil 25) m = Some (0, m') /\
    steady m' /\ elapsed m' = 0 /\
    (elapsed m < 25 -> pacedb true (future m') = true) /\
    reserve m' = reserve m - 25 /\
    previoustime m' = wrap32 (previoustime m + 25) /\
    elapsedmillis m' = previoustime m' /\
    state m' = state m.
Proof.
  intros Hs Hr. unfold bind. rewrite setled_eq.
  set (v := exec (setled_ops (fst c) (snd c)) (io m)).
  destruct (waituntil_steady (set_io v m)) as (m' & H & H1 & H2 & H3 & H4 & H5 & H6 & H7 & _).
  - now apply steady_set_io.
  - destruct m; exact Hr.
  - exists m'. rewrite H. destruct m; simpl in *. repeat split; auto.
Qed.

(** A run of steps in a steady machine: all time out, one every 25 ms. *)
Lemma run_steady : forall l c m,
  steady m -> 25 * Z.of_nat (length (c :: l)) < reserve m ->
  exists m',
    timeouts (c :: l) m = Some m' /\
    steady m' /\ elapsed m' = 0 /\
    (elapsed m < 25 \/ l <> [] -> pacedb true (future m') = true) /\
    reserve m' = reserve m - 25 * Z.of_nat (length (c :: l)) /\
    previoustime m'
      = wrap32 (previoustime m + 25 * Z.of_nat (length (c :: l))) /\
    elapsedmillis m' = previoustime m' /\
    state m' = state m.
Proof.
  induction l as [|c' l IH]; intros c m Hs Hr;
    destruct (step_steady c m Hs) as (m1 & H & H1 & H2 & H3 & H4 & H5 & H6 & H7);
    try (cbn [length] in Hr; lia).
  - exists m1. cbn [timeouts]. rewrite H.
    change (Z.of_nat (length [c])) with 1. rewrite Z.mul_1_r.
    repeat split; auto. intros [Hlt|Hne]; [auto|congruence].
  - destruct (IH c' m1 H1) as (m' & G & G1 & G2 & G3 & G4 & G5 & G6 & G7).
    { cbn [length] in *. lia. }
    exists m'. cbn [timeouts]. rewrite H.
    split; [exact G|].
    repeat split; auto.
    + intros _. apply G3. left. lia.
    + rewrite G4, H4. cbn [length]. lia.
    + rewrite G5, H5, wrap32_add_l. f_equal. cbn [length]. lia.
    + congruence.
Qed.

Lemma play_steady p n m :
  steps p n <> [] ->
  steady m -> 25 * Z.of_nat (length (steps p n)) < reserve m ->
  exists m',
    play p n m = Some (tt, m') /\
    steady m' /\ elapsed m' = 0 /\
    (elapsed m < 25 \/ (2 <= length (steps p n))%nat ->
     pacedb true (future m') = true) /\
    reserve m' = reserve m - 25 * Z.of_nat (length (steps p n)) /\
    previoustime m'
      = wrap32 (previoustime m + 25 * Z.of_nat (length (steps p n))) /\
    elapsedmillis m' = previoustime m' /\
    state m' = state m.
Proof.
  intros Hne Hs Hr. rewrite play_steps. unfold finish, bind.
  destruct (steps p n) as [|c l]; [congruence|].
  destruct (run_steady l c m Hs Hr) as (m' & G & G1 & G2 & G3 & G4 & G5 & G6 & G7).
  exists m'. rewrite (for_timeouts _ _ _ G).
  repeat split; auto.
  intros [Hlt|Hl]; apply G3; auto.
  right. destruct l; [cbn in Hl; lia|discriminate].
Qed.

Lemma hold_paced p : forall w e pa b d,
  pacedb b w = true ->
  wrap32 (e - p) = d -> d <= 25 -> 25 - d <= total_ticks w ->
  exists e' pa' w',
    hold 25 p w e pa = Some (e', pa', w') /\
    wrap32 (e' - p) = 25 /\
    total_ticks w' = total_ticks w - (25 - d) /\
    pacedb (b || (d <? 25)) w' = true.
Proof.
  induction w as [|i w IH]; intros e pa b d Hp Hd Hle Ht;
    rewrite hold_unfold, budget_25, Hd;
    destruct (Z.ltb_spec d 25) as [Hlt|Hge].
  - cbn [total_ticks] in Ht. lia.
  - exists e, pa, []. rewrite orb_false_r. repeat split; auto; lia.
  - cbn [total_ticks] in Ht.
    assert (Hk : Z.of_nat (ticks i) = 0 \/ Z.of_nat (ticks i) = 1).
    { destruct (pacedb_cons _ _ _ Hp) as [[E _]|[E _]]; rewrite E; auto. }
    assert (Hd1 : wrap32 (wrap32 (e + Z.of_nat (ticks i)) - p)
                  = d + Z.of_nat (ticks i)).
    { rewrite <- Hd. apply lead_step; lia. }
    destruct (IH (wrap32 (e + Z.of_nat (ticks i))) (pa_in i)
                 (Nat.eqb (ticks i) 1) (d + Z.of_nat (ticks i)))
      as (e' & pa' & w' & Hs & H25 & Htot & Hpc); auto; try lia.
    { destruct (pacedb_cons _ _ _ Hp) as [[E Hp']|[E [_ Hp']]];
        rewrite E; simpl; auto. }
    exists e', pa', w'. rewrite Hs. repeat split; auto.
    { cbn [total_ticks]. lia. }
    rewrite orb_true_r.
    destruct (pacedb_cons _ _ _ Hp) as [[E Hp']|[E [_ Hp']]];
      rewrite E in Hpc.
    + replace (d + Z.of_nat 0 <? 25) with true in Hpc
        by (symmetry; apply Z.ltb_lt; lia).
      now rewrite orb_true_r in Hpc.
    + exact Hpc.
  - exists e, pa, (i :: w). rewrite orb_false_r. repeat split; auto; lia.
Qed.

(** The sync pulse in a steady machine whose last clock read saw a
    tick: it starts at the clock value of that read and lasts exactly
    25 ms. *)
Lemma syncpulse_steady m :
  steady m -> pacedb true (future m) = true ->
  25 <= total_ticks (future m) ->
  exists m',
    syncpulse 25 m = Some (tt, m') /\
    steady m' /\ elapsed m' = 25 /\
    previoustime m' = wrap32 (elapsedmillis m) /\
    elapsedmillis m' = wrap32 (elapsedmillis m + 25) /\
    reserve m' = total_ticks (future m) /\
    state m' = state m /\
    rd TM2C (io m') = 0 /\ rd PA (io m') = 0.
Proof.
  intros Hs Hp Ht. apply steady_iff in Hs. destruct Hs as (Hb & Hq & _ & _).
  rewrite syncpulse_eq. unfold syncpulse_summary.
  destruct (future m) as [|i w] eqn:Hf.
  { cbn [total_ticks] in Ht. lia. }
  destruct (pacedb_cons _ _ _ Hp) as [[E Hp']|[_ [? _]]]; [|discriminate].
  cbn [total_ticks] in Ht. rewrite E in *. cbv zeta.
  change (Z.of_nat 0) with 0 in *. rewrite Z.add_0_r in *.
  destruct (hold_paced (wrap32 (elapsedmillis m)) w
              (wrap32 (elapsedmillis m)) (pa_in i) false 0)
    as (e' & pa' & w' & Hh & H25 & Htot & Hpc); auto; try lia.
  { now rewrite Z.sub_diag. }
  rewrite Hh.
  destruct (hold_ticks _ _ _ _ _ _ _ _ (wrap32_range _) Hh)
    as (used & Hw & He' & _).
  assert (Hu : total_ticks used = 25).
  { rewrite Hw, total_ticks_app in Htot. lia. }
  rewrite Hu, wrap32_add_l in He'.
  eexists. split; [reflexivity|].
  assert (E25 : wrap32 (e' - wrap32 (elapsedmillis m)) = 25) by exact H25.
  split; [|split; [|split; [|split; [|split; [|split]]]]].
  - apply steady_iff. unfold elapsed. simpl. rewrite E25. simpl.
    repeat split; auto; [|lia].
    apply (quietb_skip _ (i :: used)); auto.
    simpl. rewrite <- Hw. exact Hq.
  - exact E25.
  - reflexivity.
  - exact He'.
  - unfold reserve, elapsed. simpl. rewrite E25. lia.
  - reflexivity.
  - destruct (io m); split; reflexivity.
Qed.

(** ** The scheduler *)

Lemma steady_set_state s m : steady (set_state s m) <-> steady m.
Proof. destruct m. reflexivity. Qed.

(** The [switch] of [loop] against the schedule. *)
Lemma loop_dispatch k p n m :
  nth_error schedule k = Some (p, n) ->
  state m = Z.of_nat k ->
  loop m = play p n (set_state (Z.of_nat (S k)) m).
Proof.
  intros Hk Hs. destruct m as [e s pt prev r pa f]. simpl in Hs. subst s.
  do 8 (destruct k as [|k]; [inversion Hk; subst; reflexivity|]).
  destruct k; discriminate.
Qed.

Lemma loop_terminal m :
  state m = 8 -> loop m = pulse_and_reset (set_state 9 m).
Proof.
  intros Hs. destruct m as [e s pt prev r pa f]. simpl in Hs. subst s.
  reflexivity.
Qed.

Lemma schedule_steps_long k p n :
  nth_error schedule k = Some (p, n) -> (2 <= length (steps p n))%nat.
Proof.
  intros Hk.
  do 8 (destruct k as [|k];
        [inversion Hk; subst; apply Nat.leb_le; vm_compute; reflexivity|]).
  destruct k; discriminate.
Qed.

(** One pass of [loop] that plays a pattern, in a steady machine. *)
Lemma tick_steady k p n L m :
  nth_error schedule k = Some (p, n) ->
  Z.of_nat (length (steps p n)) = L ->
  state m = Z.of_nat k ->
  steady m -> 25 * L < reserve m ->
  exists m',
    loop m = Some (tt, m') /\
    state m' = Z.of_nat (S k) /\
    steady m' /\ elapsed m' = 0 /\
    pacedb true (future m') = true /\
    reserve m' = reserve m - 25 * L /\
    previoustime m' = wrap32 (previoustime m + 25 * L) /\
    elapsedmillis m' = previoustime m'.
Proof.
  intros Hk HL Hst Hs Hr. subst L.
  pose proof (schedule_steps_long _ _ _ Hk) as Hlen.
  rewrite (loop_dispatch k p n m Hk Hst).
  destruct (play_steady p n (set_state (Z.of_nat (S k)) m))
    as (m' & G & G1 & G2 & G3 & G4 & G5 & G6 & G7).
  - destruct (steps p n); [cbn in Hlen; lia|discriminate].
  - now apply steady_set_state.
  - destruct m; exact Hr.
  - exists m'. split; [exact G|]. destruct m; simpl in *.
    repeat split; auto.
Qed.

(** The pass of [loop] that transmits the sync pulse. *)
Lemma tick_pulse m :
  state m = 8 ->
  steady m -> pacedb true (future m) = true ->
  25 <= total_ticks (future m) ->
  exists m',
    loop m = Some (tt, m') /\
    state m' = 0 /\
    steady m' /\ elapsed m' = 25 /\
    previoustime m' = wrap32 (elapsedmillis m) /\
    elapsedmillis m' = wrap32 (elapsedmillis m + 25) /\
    reserve m' = total_ticks (future m) /\
    rd TM2C (io m') = 0 /\ rd PA (io m') = 0.
Proof.
  intros Hst Hs Hp Ht. rewrite (loop_terminal m Hst).
  unfold pulse_and_reset, bind.
  destruct (syncpulse_steady (set_state 9 m))
    as (m' & G & G1 & G2 & G3 & G4 & G5 & G6 & G7 & G8).
  - now apply steady_set_state.
  - destruct m; exact Hp.
  - destruct m; exact Ht.
  - rewrite G. exists (set_state 0 m'). split; [reflexivity|].
    destruct m, m'; simpl in *. repeat split; auto.
Qed.

Lemma states_after_cons n m m' s l :
  loop m = Some (tt, m') ->
  state m' = s ->
  states_after n m' = Some l ->
  states_after (S n) m = Some (s :: l).
Proof. intros H1 <- H2. simpl. now rewrite H1, H2. Qed.

Lemma ticks_of_loop_cons n m m' r :
  loop m = Some (tt, m') ->
  ticks_of_loop n m' = r ->
  ticks_of_loop (S n) m = r.
Proof. intros H1 H2. simpl. unfold bind. now rewrite H1. Qed.

(** The eight patterns of a cycle in a steady machine: 1440 steps,
    36000 ms on the baseline. *)
Lemma eight_patterns m :
  state m = 0 -> steady m -> 36000 < reserve m ->
  exists m8,
    ticks_of_loop 8 m = Some (tt, m8) /\
    (forall n l, states_after n m8 = Some l ->
       states_after (8 + n) m = Some ([1; 2; 3; 4; 5; 6; 7; 8] ++ l)) /\
    state m8 = 8 /\ steady m8 /\ elapsed m8 = 0 /\
    pacedb true (future m8) = true /\
    reserve m8 = reserve m - 36000 /\
    previoustime m8 = wrap32 (previoustime m + 36000) /\
    elapsedmillis m8 = previoustime m8.
Proof.
  intros H0 Hs Hr.
  destruct (tick_steady 0 Singleledccw 4 160 m eq_refl eq_refl H0 Hs
              ltac:(lia))
    as (m1 & L1 & S1 & Sd1 & _ & _ & R1 & T1 & _).
  destruct (tick_steady 1 Singleledcw 4 160 m1 eq_refl eq_refl S1 Sd1
              ltac:(lia))
    as (m2 & L2 & S2 & Sd2 & _ & _ & R2 & T2 & _).
  destruct (tick_steady 2 Twoledsccw 8 160 m2 eq_refl eq_refl S2 Sd2
              ltac:(lia))
    as (m3 & L3 & S3 & Sd3 & _ & _ & R3 & T3 & _).
  destruct (tick_steady 3 Twoledscw 8 160 m3 eq_refl eq_refl S3 Sd3
              ltac:(lia))
    as (m4 & L4 & S4 & Sd4 & _ & _ & R4 & T4 & _).
  destruct (tick_steady 4 Twoledsflapdown 8 160 m4 eq_refl eq_refl S4 Sd4
              ltac:(lia))
    as (m5 & L5 & S5 & Sd5 & _ & _ & R5 & T5 & _).
  destruct (tick_steady 5 Twoledsflapup 8 160 m5 eq_refl eq_refl S5 Sd5
              ltac:(lia))
    as (m6 & L6 & S6 & Sd6 & _ & _ & R6 & T6 & _).
  destruct (tick_steady 6 Twoledsflap 4 160 m6 eq_refl eq_refl S6 Sd6
              ltac:(lia))
    as (m7 & L7 & S7 & Sd7 & _ & _ & R7 & T7 & _).
  destruct (tick_steady 7 Twoledsrandom 4 320 m7 eq_refl eq_refl S7 Sd7
              ltac:(lia))
    as (m8 & L8 & S8 & Sd8 & E8 & P8 & R8 & T8 & C8).
  exists m8. split; [|split].
  - repeat (eapply ticks_of_loop_cons; [eassumption|]). reflexivity.
  - intros n l Hl. change (8 + n)%nat with (S (S (S (S (S (S (S (S n)))))))).
    apply (states_after_cons _ m m1 1 _ L1 S1).
    apply (states_after_cons _ m1 m2 2 _ L2 S2).
    apply (states_after_cons _ m2 m3 3 _ L3 S3).
    apply (states_after_cons _ m3 m4 4 _ L4 S4).
    apply (states_after_cons _ m4 m5 5 _ L5 S5).
    apply (states_after_cons _ m5 m6 6 _ L6 S6).
    apply (states_after_cons _ m6 m7 7 _ L7 S7).
    apply (states_after_cons _ m7 m8 8 _ L8 S8).
    exact Hl.
  - repeat split; auto; try lia.
    rewrite T8.
    rewrite T7, wrap32_add_l, <- Z.add_assoc.
    rewrite T6, wrap32_add_l, <- Z.add_assoc.
    rewrite T5, wrap32_add_l, <- Z.add_assoc.
    rewrite T4, wrap32_add_l, <- Z.add_assoc.
    rewrite T3, wrap32_add_l, <- Z.add_assoc.
    rewrite T2, wrap32_add_l, <- Z.add_assoc.
    rewrite T1, wrap32_add_l, <- Z.add_assoc.
    reflexivity.
Qed.

Lemma setup_eq m : setup m = setup_summary m.
Proof.
  destruct m as [e s p prev r pa f]. destruct f as [|i w]; reflexivity.
Qed.

Lemma ticks_of_loop_snoc : forall n m m' m'',
  ticks_of_loop n m = Some (tt, m') ->
  loop m' = Some (tt, m'') ->
  ticks_of_loop (S n) m = Some (tt, m'').
Proof.
  induction n as [|n IH]; intros m m' m'' H1 H2.
  - inversion H1; subst. simpl. unfold bind. now rewrite H2.
  - simpl in H1. unfold bind in H1.
    destruct (loop m) as [[[] m1]|] eqn:E; [|discriminate].
    change (ticks_of_loop (S (S n)) m)
      with ((loop ;; ticks_of_loop (S n)) m).
    unfold bind. rewrite E. eapply IH; eauto.
Qed.

(** C6 (as amended): from power-on, with a clock that starts at 0 and
    is read at least twice per millisecond and a sync input without
    rising edge, the eight patterns of a cycle take the 1440 steps of
    the schedule (48 repeat units of 20, 40 or 80 steps) and leave
    baseline and clock at 1440 * 25 ms; the sync pulse that follows
    lasts 25 ms, so that the clock reads 1440 * 25 + 25 ms at the end of
    the cycle. *)
Theorem full_cycle_time m0 :
  pacedb true (future m0) = true ->
  quietb 1 (future m0) = true ->
  36025 <= total_ticks (future m0) ->
  exists m1 m8 m9,
    setup m0 = Some (tt, m1) /\
    elapsedmillis m1 = 0 /\ previoustime m1 = 0 /\ state m1 = 0 /\
    ticks_of_loop 8 m1 = Some (tt, m8) /\
    states_after 8 m1 = Some [1; 2; 3; 4; 5; 6; 7; 8] /\
    previoustime m8 = 1440 * 25 /\ elapsedmillis m8 = 1440 * 25 /\
    loop m8 = Some (tt, m9) /\
    loop m8 = pulse_and_reset (set_state 9 m8) /\
    state m9 = 0 /\
    elapsedmillis m9 = 1440 * 25 + 25 /\
    main 9 m0 = Some (tt, m9) /\
    Z.of_nat (length cycle_steps) = 1440 /\
    fold_right Z.add 0 (map snd schedule) = 48 /\
    map (fun e => Z.of_nat (length (body_steps (fst e)))) schedule
      = [40; 40; 20; 20; 20; 20; 40; 80].
Proof.
  intros Hp Hq Ht. rewrite setup_eq. unfold setup_summary.
  destruct (future m0) as [|i w] eqn:Hf.
  { cbn [total_ticks] in Ht. lia. }
  destruct (pacedb_cons _ _ _ Hp) as [[E Hp']|[_ [? _]]]; [|discriminate].
  cbn [total_ticks] in Ht. rewrite E in *. cbv zeta.
  change (wrap32 (0 + Z.of_nat 0)) with 0. change (Z.of_nat 0) with 0 in Ht.
  set (m1 := mkMcu 0 0 0 1 _ (pa_in i) w).
  assert (Hs1 : steady m1).
  { apply steady_iff. simpl. repeat split; auto.
    - right; reflexivity.
    - apply (quietb_skip 1 [i]); [right; reflexivity|exact Hq].
    - vm_compute. discriminate. }
  assert (Hr1 : reserve m1 = total_ticks w) by reflexivity.
  destruct (eight_patterns m1 eq_refl Hs1 ltac:(lia))
    as (m8 & L8 & A8 & S8 & Sd8 & E8 & P8 & R8 & T8 & C8).
  assert (Ht8 : 25 <= total_ticks (future m8)).
  { unfold reserve in R8. rewrite E8 in R8. change (elapsed m1) with 0 in R8.
    simpl future in R8. lia. }
  destruct (tick_pulse m8 S8 Sd8 P8 Ht8)
    as (m9 & L9 & S9 & Sd9 & E9 & T9 & C9 & R9 & G9 & _).
  change (wrap32 (previoustime m1 + 36000)) with 36000 in T8.
  rewrite T8 in C8. rewrite C8 in C9.
  change (wrap32 (36000 + 25)) with 36025 in C9.
  exists m1, m8, m9.
  split; [reflexivity|].
  split; [reflexivity|]. split; [reflexivity|]. split; [reflexivity|].
  split; [exact L8|].
  split; [exact (A8 0%nat [] eq_refl)|].
  split; [exact T8|]. split; [exact C8|].
  split; [exact L9|].
  split; [exact (loop_terminal m8 S8)|].
  split; [exact S9|]. split; [exact C9|].
  split.
  - unfold main, bind. rewrite setup_eq. unfold setup_summary. rewrite Hf.
    rewrite E. exact (ticks_of_loop_snoc 8 m1 m8 m9 L8 L9).
  - repeat split; vm_compute; reflexivity.
Qed.

Lemma full_cycle_time_witness :
  pacedb true (future badge_power_on) = true /\
  quietb 1 (future badge_power_on) = true /\
  36025 <= total_ticks (future badge_power_on) /\
  exists m9,
    main 9 badge_power_on = Some (tt, m9) /\
    elapsedmillis m9 = 1440 * 25 + 25.
Proof.
  assert (H1 : pacedb true (future badge_power_on) = true)
    by (vm_compute; reflexivity).
  assert (H2 : quietb 1 (future badge_power_on) = true)
    by (vm_compute; reflexivity).
  assert (H3 : 36025 <= total_ticks (future badge_power_on))
    by (vm_compute; discriminate).
  split; [exact H1|]. split; [exact H2|]. split; [exact H3|].
  destruct (full_cycle_time badge_power_on H1 H2 H3)
    as (m1 & m8 & m9 & _ & _ & _ & _ & _ & _ & _ & _ & _ & _ & _ & Hc & Hm & _).
  exists m9. split; [exact Hm|exact Hc].
Defined.

(** C6 (as stated) fails on two counts.  The repeat unit of the random
    pattern has neither 20 nor 40 steps but 80: one repeat without sync
    advances the baseline by 80 * 25 ms.  And with a clock that starts
    at 0 and no sync edge, the time at the end of the cycle depends on
    how often the clock is read: when it advances by 1 ms at every read,
    the read that starts the sync pulse costs one more millisecond and
    the cycle ends at 1440 * 25 + 25 + 1. *)
Lemma cycle_of_20_or_40_step_units_fails :
  (twoledsrandom 1 badge_jumpy = Some (tt, badge_jumpy_after_unit) /\
   timeouts (steps Twoledsrandom 1) badge_jumpy
     = Some badge_jumpy_after_unit /\
   state badge_jumpy_after_unit = state badge_jumpy /\
   previoustime badge_jumpy_after_unit
     = previoustime badge_jumpy + 80 * 25 /\
   length (steps Twoledsrandom 1) = 80%nat /\
   ~ (forall e, In e schedule ->
        length (steps (fst e) 1) = 20%nat \/
        length (steps (fst e) 1) = 40%nat)) /\
  (quietb 1 (future badge_tick_per_read) = true /\
   main 9 badge_tick_per_read = Some (tt, badge_tick_per_read_after) /\
   state badge_tick_per_read_after = 0 /\
   elapsedmillis badge_tick_per_read_after = 1440 * 25 + 25 + 1 /\
   elapsedmillis badge_tick_per_read_after <> 1440 * 25 + 25).
Proof.
  split.
  - split; [vm_compute; reflexivity|].
    split; [vm_compute; reflexivity|].
    split; [vm_compute; reflexivity|].
    split; [vm_compute; reflexivity|].
    split; [vm_compute; reflexivity|].
    intros H. destruct (H (Twoledsrandom, 4)) as [E|E].
    + simpl. tauto.
    + vm_compute in E. discriminate.
    + vm_compute in E. discriminate.
  - split; [vm_compute; reflexivity|].
    split; [vm_compute; reflexivity|].
    split; [vm_compute; reflexivity|].
    split; [vm_compute; reflexivity|].
    vm_compute. discriminate.
Qed.

(** ** The range of the Sequence State *)

Lemma waituntil_state time m r m' :
  waituntil time m = Some (r, m') -> state m' = state m \/ state m' = 0.
Proof.
  rewrite waituntil_eq. unfold waituntil_summary.
  destruct (future m); [discriminate|].
  destruct (scan _ _ _ _ _ _) as [[[[e' pa'] prev'] w']|]; [|discriminate].
  destruct (_ && _); inversion 1; simpl; auto.
Qed.

Lemma stepc_state c m b m' :
  stepc c m = Some (b, m') -> state m' = state m \/ state m' = 0.
Proof.
  rewrite stepc_eq. unfold bind. rewrite setled_eq.
  destruct (waituntil 25 _) as [[r m1]|] eqn:E; [|discriminate].
  inversion 1; subst. apply waituntil_state in E.
  destruct m; exact E.
Qed.

Lemma for_state : forall l m b m',
  for_ l stepc m = Some (b, m') -> state m' = state m \/ state m' = 0.
Proof.
  induction l as [|c l IH]; intros m b m' H; simpl in H.
  - inversion H; auto.
  - unfold and_then, bind in H.
    destruct (stepc c m) as [[b1 m1]|] eqn:E; [|discriminate].
    apply stepc_state in E.
    destruct b1.
    + inversion H; subst. exact E.
    + apply IH in H. destruct E as [<-|E]; auto.
      rewrite E in H. tauto.
Qed.

Lemma play_state p n m m' :
  play p n m = Some (tt, m') -> state m' = state m \/ state m' = 0.
Proof.
  rewrite play_steps. unfold finish, bind.
  destruct (for_ (steps p n) stepc m) as [[b m1]|] eqn:E; [|discriminate].
  inversion 1; subst. eapply for_state; eauto.
Qed.

Lemma pulse_and_reset_state m m' :
  pulse_and_reset m = Some (tt, m') -> state m' = 0.
Proof.
  unfold pulse_and_reset, bind.
  destruct (syncpulse 25 m) as [[[] m1]|]; [|discriminate].
  inversion 1. reflexivity.
Qed.

(** The [switch]: a pattern for the states 1 to 8, the terminal action
    for every other value. *)
Lemma dispatch_cases m :
  (exists k p n, nth_error schedule k = Some (p, n) /\
                 state m = Z.of_nat (S k) /\ dispatch m = play p n m) \/
  ((state m < 1 \/ 8 < state m) /\ dispatch m = pulse_and_reset m).
Proof.
  unfold dispatch, bind, get.
  destruct (state m) as [|s|s] eqn:E;
    [ | do 4 (try destruct s as [s|s|]) | ];
    first
      [ solve [right; split; [lia|reflexivity]]
      | match goal with
        | |- (exists k p n, _ /\ Z.pos ?v = _ /\ _) \/ _ =>
            let k := eval compute in (Z.to_nat (Z.pos v - 1)) in
            left;
            exists k, (fst (nth k schedule (Singleledccw, 0))),
                   (snd (nth k schedule (Singleledccw, 0)));
            repeat split; reflexivity
        end ].
Qed.

Lemma dispatch_state m m' :
  dispatch m = Some (tt, m') ->
  (state m' = state m \/ state m' = 0) /\
  (state m < 1 \/ 8 < state m -> state m' = 0).
Proof.
  intros H.
  destruct (dispatch_cases m) as [(k & p & n & Hk & Hs & Hd)|[Hs Hd]];
    rewrite Hd in H.
  - split; [eapply play_state; eauto|].
    assert (Hlt : (k < length schedule)%nat)
      by (apply nth_error_Some; congruence).
    change (length schedule) with 8%nat in Hlt. lia.
  - apply pulse_and_reset_state in H. auto.
Qed.

Lemma advance_state m :
  0 <= state m <= 8 ->
  state (set_state (wrap8 (state m + 1)) m) = state m + 1.
Proof.
  intros Hs. destruct m; simpl in *. unfold wrap8.
  rewrite Z.mod_small; change (2 ^ 8) with 256; lia.
Qed.

Lemma loop_state m m' :
  0 <= state m <= 8 -> loop m = Some (tt, m') -> 0 <= state m' <= 8.
Proof.
  intros Hs H. unfold loop, bind, advance, modify in H.
  apply dispatch_state in H. rewrite (advance_state m Hs) in H.
  destruct H as [[H|H] H']; [|lia].
  destruct (Z_le_gt_dec (state m + 1) 8); [lia|].
  rewrite H'; lia.
Qed.

Lemma ticks_of_loop_state : forall n m m',
  0 <= state m <= 8 ->
  ticks_of_loop n m = Some (tt, m') -> 0 <= state m' <= 8.
Proof.
  induction n as [|n IH]; intros m m' Hs H; simpl in H.
  - inversion H; subst. exact Hs.
  - unfold bind in H.
    destruct (loop m) as [[[] m1]|] eqn:E; [|discriminate].
    apply (IH m1); auto. eapply loop_state; eauto.
Qed.

(** C10: at every entry to [loop] in a run of [main] the Sequence State
    is between 0 and 8; [state++] then makes it at most 9; the [switch]
    leaves it as it is or at 0, and at 0 when it was above 8; a call of
    [waituntil] leaves it as it is or writes 0. *)
Theorem state_in_range n m0 m :
  main n m0 = Some (tt, m) ->
  0 <= state m <= 8 /\
  (forall m1, advance m = Some (tt, m1) ->
     state m1 = state m + 1 /\ state m1 <= 9 /\
     forall m2, dispatch m1 = Some (tt, m2) ->
       (state m2 = state m1 \/ state m2 = 0) /\
       (8 < state m1 -> state m2 = 0) /\
       0 <= state m2 <= 8) /\
  (forall time m1 r m2,
     waituntil time m1 = Some (r, m2) ->
     state m2 = state m1 \/ state m2 = 0).
Proof.
  intros H. unfold main, bind in H. rewrite setup_eq in H.
  unfold setup_summary in H.
  destruct (future m0) as [|i w]; [discriminate|]. cbv zeta in H.
  apply ticks_of_loop_state in H; [|simpl; lia].
  split; [exact H|]. split.
  - intros m1 H1. unfold advance, modify in H1. inversion H1; subst m1.
    assert (Hs : state (set_state (wrap8 (state m + 1)) m) = state m + 1)
      by (apply advance_state; exact H).
    rewrite Hs. split; [reflexivity|]. split; [lia|].
    intros m2 H2. apply dispatch_state in H2. rewrite Hs in H2.
    destruct H2 as [H2 H3]. split; [exact H2|]. split; [auto|].
    destruct (Z_le_gt_dec (state m + 1) 8); [lia|].
    rewrite H3; lia.
  - intros time m1 r m2. apply waituntil_state.
Qed.

Lemma state_in_range_witness :
  main 1 badge_synced_at_once = Some (tt, badge_synced_at_once_after) /\
  0 <= state badge_synced_at_once_after <= 8.
Proof.
  assert (H : main 1 badge_synced_at_once
              = Some (tt, badge_synced_at_once_after))
    by (vm_compute; reflexivity).
  split; [exact H|].
  exact (proj1 (state_in_range 1 badge_synced_at_once
                  badge_synced_at_once_after H)).
Defined.

(** ** The round trip of the scheduler *)

(** *** Without pacing: what a run does if it returns *)













(** * Further properties of the code *)

(** ** What [setled] lights *)

Lemma drive_eqb_eq a b : drive_eqb a b = true -> a = b.
Proof. destruct a, b; simpl; congruence. Qed.

Lemma testbit_exec1 s r bit p :
  Z.testbit (rd r (exec1 s p)) bit
  = bit_after1 s r bit (Z.testbit (rd r p) bit).
Proof.
  destruct s as [r' c|r' c|r' c]; simpl; rewrite rd_wr;
    destruct (reg_eq_dec r' r) as [<-|]; auto.
  - apply Z.land_spec.
  - apply Z.lor_spec.
Qed.

Lemma testbit_exec r bit : forall l p,
  Z.testbit (rd r (exec l p)) bit
  = bit_after l r bit (Z.testbit (rd r p) bit).
Proof.
  unfold exec, bit_after.
  induction l as [|s l IH]; intros p; simpl; auto.
  now rewrite IH, testbit_exec1.
Qed.

Lemma settles_sound l : forall wires expected,
  settles l wires expected = true ->
  forall p, side_pins wires (exec l p) = expected.
Proof.
  induction wires as [|[[c d] bit] wires IH]; intros [|x expected] H p;
    simpl in H; try discriminate; auto.
  apply andb_true_iff in H. destruct H as [H1 H2].
  unfold side_pins in *. simpl. f_equal; [|now apply IH].
  unfold pin. rewrite !testbit_exec. apply drive_eqb_eq.
  rewrite !andb_true_iff in H1.
  destruct (Z.testbit (rd c p) bit), (Z.testbit (rd d p) bit); tauto.
Qed.

Lemma testbit_masked x k bit :
  Z.testbit k bit = true -> Z.testbit x bit = Z.testbit (Z.land x k) bit.
Proof. intros H. now rewrite Z.land_spec, H, andb_true_r. Qed.

Lemma pin_masked (mask : reg -> Z) c d bit p q :
  Z.testbit (mask c) bit = true -> Z.testbit (mask d) bit = true ->
  (forall r, Z.land (rd r p) (mask r) = Z.land (rd r q) (mask r)) ->
  pin c d bit p = pin c d bit q.
Proof.
  intros Hc Hd H. unfold pin.
  rewrite (testbit_masked (rd c p) _ _ Hc), (testbit_masked (rd d p) _ _ Hd).
  rewrite (testbit_masked (rd c q) _ _ Hc), (testbit_masked (rd d q) _ _ Hd).
  now rewrite !H.
Qed.

Lemma left_pins_bits p q :
  (forall r, Z.land (rd r p) (left_mask r) = Z.land (rd r q) (left_mask r)) ->
  left_pins p = left_pins q.
Proof.
  intros H. unfold left_pins, side_pins, left_wires. cbn [map fst snd].
  repeat match goal with
         | |- context [pin ?c ?d ?b p] =>
             rewrite (pin_masked left_mask c d b p q eq_refl eq_refl H)
         end.
  reflexivity.
Qed.

Lemma right_pins_bits p q :
  (forall r, Z.land (rd r p) (right_mask r) = Z.land (rd r q) (right_mask r)) ->
  right_pins p = right_pins q.
Proof.
  intros H. unfold right_pins, side_pins, right_wires. cbn [map fst snd].
  repeat match goal with
         | |- context [pin ?c ?d ?b p] =>
             rewrite (pin_masked right_mask c d b p q eq_refl eq_refl H)
         end.
  reflexivity.
Qed.

Lemma led_number k : 0 <= k <= 19 -> In (Z.to_nat k) (seq 0 20).
Proof. intros H. apply in_seq. lia. Qed.

Lemma left_block_lights k p :
  0 <= k <= 19 ->
  left_pins (exec (left_block k) p) = lit_pattern (Z.to_nat k).
Proof.
  intros H. apply settles_sound.
  assert (A : forallb (fun j => settles (left_block (Z.of_nat j)) left_wires
                                        (lit_pattern j)) (seq 0 20) = true)
    by (vm_compute; reflexivity).
  rewrite forallb_forall in A. specialize (A _ (led_number k H)).
  now rewrite Z2Nat.id in A by lia.
Qed.

Lemma right_block_lights k p :
  0 <= k <= 19 ->
  right_pins (exec (right_block k) p) = lit_pattern (Z.to_nat k).
Proof.
  intros H. apply settles_sound.
  assert (A : forallb (fun j => settles (right_block (Z.of_nat j)) right_wires
                                        (lit_pattern j)) (seq 0 20) = true)
    by (vm_compute; reflexivity).
  rewrite forallb_forall in A. specialize (A _ (led_number k H)).
  now rewrite Z2Nat.id in A by lia.
Qed.

Lemma left_block_dark k p :
  k < 0 \/ k = 20 -> left_pins (exec (left_block k) p) = all_off.
Proof.
  intros H. apply settles_sound.
  destruct H as [H| ->]; [|reflexivity].
  destruct k; try lia. reflexivity.
Qed.

Lemma right_block_dark k p :
  k < 0 \/ k = 20 -> right_pins (exec (right_block k) p) = all_off.
Proof.
  intros H. apply settles_sound.
  destruct H as [H| ->]; [|reflexivity].
  destruct k; try lia. reflexivity.
Qed.

Lemma shown_lit k :
  0 <= k <= 19 -> shown (lit_pattern (Z.to_nat k)) = Some k.
Proof.
  intros H.
  assert (A : forallb (fun j => match shown (lit_pattern j) with
                                | Some z => z =? Z.of_nat j
                                | None => false
                                end) (seq 0 20) = true)
    by (vm_compute; reflexivity).
  rewrite forallb_forall in A. specialize (A _ (led_number k H)).
  destruct (shown (lit_pattern (Z.to_nat k))); [|discriminate].
  apply Z.eqb_eq in A. rewrite A. now rewrite Z2Nat.id by lia.
Qed.

Lemma io_after_setled left right m :
  setled left right m = Some (tt, set_io (exec (setled_ops left right) (io m)) m)
  /\ io (set_io (exec (setled_ops left right) (io m)) m)
     = exec (if right <? 21 then right_block right else [])
            (exec (if left <? 21 then left_block left else []) (io m)).
Proof.
  split; [apply setled_eq|]. destruct m. simpl. unfold setled_ops.
  apply exec_app.
Qed.

(** X1: The LED driver against the wiring table of the source: for a
    position 0..19 the side's five pins are exactly those that light
    that LED (plus pin high, minus pin low, the other three inputs), so
    the LED shown is the one asked for; for 20, or a negative argument,
    all five are inputs; for 21 or more they stay as they were.  This
    holds whatever the registers held before and whatever the other
    argument is, and the right side is the mirror image of the left. *)
Theorem setled_lights_the_named_led left right m :
  exists m',
    setled left right m = Some (tt, m') /\
    (0 <= left <= 19 ->
     left_pins (io m') = lit_pattern (Z.to_nat left) /\
     shown (left_pins (io m')) = Some left) /\
    (0 <= right <= 19 ->
     right_pins (io m') = lit_pattern (Z.to_nat right) /\
     shown (right_pins (io m')) = Some right) /\
    (left < 0 \/ left = 20 ->
     left_pins (io m') = all_off /\ shown (left_pins (io m')) = None) /\
    (right < 0 \/ right = 20 ->
     right_pins (io m') = all_off /\ shown (right_pins (io m')) = None) /\
    (21 <= left -> left_pins (io m') = left_pins (io m)) /\
    (21 <= right -> right_pins (io m') = right_pins (io m)) /\
    (left < 21 ->
     forall other m2, setled other left m = Some (tt, m2) ->
       right_pins (io m2) = left_pins (io m')).
Proof.
  destruct (io_after_setled left right m) as [Hs Hio].
  eexists. split; [exact Hs|]. rewrite Hio.
  set (p1 := exec (if left <? 21 then left_block left else []) (io m)).
  assert (HL : left_pins (exec (if right <? 21 then right_block right else [])
                               p1) = left_pins p1).
  { apply left_pins_bits. intros r. apply right_ops_keep_left. }
  assert (Hlit : 0 <= left <= 19 ->
                 left_pins p1 = lit_pattern (Z.to_nat left)).
  { intros H. unfold p1. replace (left <? 21) with true
      by (symmetry; apply Z.ltb_lt; lia).
    now apply left_block_lights. }
  assert (Hdark : left < 0 \/ left = 20 -> left_pins p1 = all_off).
  { intros H. unfold p1. replace (left <? 21) with true
      by (symmetry; apply Z.ltb_lt; lia).
    now apply left_block_dark. }
  split; [|split; [|split; [|split; [|split; [|split]]]]].
  - intros H. rewrite HL, (Hlit H). split; [reflexivity|].
    now apply shown_lit.
  - intros H. replace (right <? 21) with true
      by (symmetry; apply Z.ltb_lt; lia).
    rewrite right_block_lights by assumption. split; [reflexivity|].
    now apply shown_lit.
  - intros H. rewrite HL, (Hdark H). split; reflexivity.
  - intros H. replace (right <? 21) with true
      by (symmetry; apply Z.ltb_lt; lia).
    rewrite right_block_dark by assumption. split; reflexivity.
  - intros H. rewrite HL. unfold p1.
    replace (left <? 21) with false by (symmetry; apply Z.ltb_ge; lia).
    reflexivity.
  - intros H. replace (right <? 21) with false
      by (symmetry; apply Z.ltb_ge; lia).
    simpl. unfold p1. apply right_pins_bits. intros r.
    apply left_ops_keep_right.
  - intros H other m2 H2.
    destruct (io_after_setled other left m) as [Hs2 Hio2].
    rewrite Hs2 in H2. inversion H2; subst m2. rewrite Hio2, HL.
    replace (left <? 21) with true by (symmetry; apply Z.ltb_lt; lia).
    destruct (Z_lt_dec left 0) as [Hn|Hn];
      [|destruct (Z.eq_dec left 20) as [He|He]].
    + rewrite right_block_dark, Hdark; auto.
    + rewrite right_block_dark, Hdark; auto.
    + rewrite right_block_lights, Hlit; auto; lia.
Qed.

(** ** More on the step waiter *)

(** A call that ends without an edge at its last sample, in full. *)
Lemma waituntil_timeout_run time m pre t c post :
  is_bit (previouspinstate m) ->
  samples (elapsedmillis m) (future m) = pre ++ (t, c) :: post ->
  rising (previouspinstate m) pre = false ->
  Forall (fun s => within time (previoustime m) (fst s)) pre ->
  ~ within time (previoustime m) t ->
  (level_after (previouspinstate m) pre =? 0) && (c =? 1) = false ->
  exists m',
    waituntil time m = Some (0, m') /\
    previouspinstate m' = level_after (previouspinstate m) pre /\
    elapsedmillis m' = t /\ post = samples t (future m') /\
    state m' = state m /\
    previoustime m' = wrap32 (previoustime m + u32_of_i16 time) /\
    io m' = io m.
Proof.
  intros Hb Hs Hr Hw Hn He. rewrite waituntil_eq. unfold waituntil_summary.
  destruct (future m) as [|i w] eqn:Hf; [destruct pre; discriminate|].
  rewrite samples_cons in Hs.
  destruct (scan_complete time (previoustime m) pre w _ (pa_in i)
              (previouspinstate m) t c post Hb Hs Hr Hw (or_intror Hn))
    as (pa' & w' & Hscan & Hc & Hpost).
  rewrite Hscan, Hc, (andb_comm (c =? 1)), He.
  eexists. split; [reflexivity|]. simpl. repeat split; auto.
Qed.

Lemma samples_length : forall w e, length (samples e w) = length w.
Proof. induction w; intros; simpl; auto. Qed.

(** What a detection leaves behind. *)
Lemma waituntil_detected time m m' :
  waituntil time m = Some (1, m') ->
  state m' = 0 /\ previouspinstate m' = 1 /\
  previoustime m' = elapsedmillis m' /\ elapsed m' = 0 /\
  syncbit (pa_pins m') = 1 /\ io m' = io m.
Proof.
  rewrite waituntil_eq. unfold waituntil_summary.
  destruct (future m); [discriminate|].
  destruct (scan _ _ _ _ _ _) as [[[[e' pa'] prev'] w']|]; [|discriminate].
  destruct (_ && _) eqn:E; inversion 1; subst. simpl.
  apply andb_true_iff in E. destruct E as [E _]. apply Z.eqb_eq in E.
  unfold elapsed. simpl. rewrite Z.sub_diag. repeat split; auto.
Qed.

(** X2: The call never samples again once the budget has elapsed: every
    sample it takes but the last lies within the budget and shows no
    edge; it takes at least one sample; and when it reports a timeout
    the budget has elapsed at the last sample. *)
Theorem waituntil_stops_at_budget_end time m r m' :
  is_bit (previouspinstate m) ->
  waituntil time m = Some (r, m') ->
  exists pre t c,
    samples (elapsedmillis m) (future m)
      = pre ++ (t, c) :: samples t (future m') /\
    length (future m) = (length pre + 1 + length (future m'))%nat /\
    Forall (fun s => within time (previoustime m) (fst s)) pre /\
    rising (previouspinstate m) pre = false /\
    elapsedmillis m' = t /\
    (r = 0 -> ~ within time (previoustime m) t) /\
    (r = 0 \/ r = 1).
Proof.
  intros Hb H. apply waituntil_inv in H; auto.
  destruct H as (pre & t & c & Hs & Hr & Hw & Ht & _ & _ & H).
  exists pre, t, c. split; [exact Hs|]. split.
  - apply (f_equal (@length _)) in Hs.
    rewrite length_app in Hs. simpl in Hs.
    rewrite !samples_length in Hs. lia.
  - repeat split; auto.
    + intros ->. destruct H as [H|H]; [destruct H; discriminate|tauto].
    + destruct H as [H|H]; tauto.
Qed.

Lemma waituntil_stops_at_budget_end_witness :
  is_bit (previouspinstate badge_idle) /\
  waituntil 25 badge_idle = Some (0, badge_idle_after) /\
  exists pre t c,
    samples (elapsedmillis badge_idle) (future badge_idle)
      = pre ++ (t, c) :: samples t (future badge_idle_after) /\
    length (future badge_idle)
      = (length pre + 1 + length (future badge_idle_after))%nat.
Proof.
  assert (H1 : is_bit (previouspinstate badge_idle)) by (right; reflexivity).
  assert (H2 : waituntil 25 badge_idle = Some (0, badge_idle_after))
    by (vm_compute; reflexivity).
  split; [exact H1|]. split; [exact H2|].
  destruct (waituntil_stops_at_budget_end 25 badge_idle 0 badge_idle_after
              H1 H2) as (pre & t & c & Hs & Hl & _).
  exists pre, t, c. auto.
Defined.

(** While the sync input stays HIGH after a HIGH level was recorded, a
    call can only time out, and it leaves things that way. *)
Lemma no_edge_while_high r m2 time m1 :
  previouspinstate m1 = 1 ->
  Forall (fun s : Z * Z => snd s = 1)
         (samples (elapsedmillis m1) (future m1)) ->
  waituntil time m1 = Some (r, m2) ->
  r = 0 /\ previouspinstate m2 = 1 /\
  Forall (fun s : Z * Z => snd s = 1)
         (samples (elapsedmillis m2) (future m2)).
Proof.
  intros Hp Hh H. apply waituntil_inv in H; [|rewrite Hp; right; reflexivity].
  destruct H as (pre & t & c & Hs & _ & _ & Ht & _ & _ & H).
  rewrite Hp in H. rewrite Hs in Hh. apply Forall_app in Hh.
  destruct Hh as [Hpre Hrest]. inversion Hrest as [|x l Hc Hpost]; subst x l.
  apply all_high in Hpre. destruct Hpre as [_ Hl].
  destruct H as [(_ & H0 & _)|(-> & _ & _ & _ & _ & Hprev)]; [lia|].
  rewrite Hprev, Hl, Ht. auto.
Qed.

Lemma no_edge_in_a_row : forall budgets m1 rs m2,
  previouspinstate m1 = 1 ->
  Forall (fun s : Z * Z => snd s = 1)
         (samples (elapsedmillis m1) (future m1)) ->
  waits budgets m1 = Some (rs, m2) ->
  Forall (fun r => r = 0) rs /\ previouspinstate m2 = 1.
Proof.
  induction budgets as [|time budgets IH]; intros m1 rs m2 Hp Hh H;
    simpl in H.
  - inversion H; subst. auto.
  - unfold bind in H.
    destruct (waituntil time m1) as [[r m']|] eqn:E; [|discriminate].
    destruct (waits budgets m') as [[rs' m'']|] eqn:E'; [|discriminate].
    inversion H; subst.
    destruct (no_edge_while_high _ _ _ _ Hp Hh E) as (-> & Hp' & Hh').
    destruct (IH _ _ _ Hp' Hh' E') as [Hrs Hp''].
    split; [constructor; auto|exact Hp''].
Qed.

(** X3: The level of the last sample of a call is not kept: after a timeout
    [previouspinstate] is the level before it.  So when the sync input
    is LOW only at the sample that ends a call (the one before was
    HIGH) and HIGH afterwards, the call returns 0 with
    [previouspinstate] HIGH, and the rising edge that follows is never
    reported: every later call, whatever the budgets, returns 0 and
    leaves [previouspinstate] HIGH. *)
Theorem edge_after_a_final_low_sample_is_missed time m pre t post :
  is_bit (previouspinstate m) ->
  samples (elapsedmillis m) (future m) = pre ++ (t, 0) :: post ->
  level_after (previouspinstate m) pre = 1 ->
  rising (previouspinstate m) pre = false ->
  Forall (fun s => within time (previoustime m) (fst s)) pre ->
  ~ within time (previoustime m) t ->
  Forall (fun s => snd s = 1) post ->
  exists m1,
    waituntil time m = Some (0, m1) /\
    previouspinstate m1 = 1 /\
    post = samples (elapsedmillis m1) (future m1) /\
    (forall budgets rs m2,
       waits budgets m1 = Some (rs, m2) ->
       Forall (fun r => r = 0) rs /\ previouspinstate m2 = 1) /\
    (post <> [] ->
     rising (previouspinstate m) (pre ++ (t, 0) :: post) = true).
Proof.
  intros Hb Hs Hl Hr Hw Hn Hh.
  destruct (waituntil_timeout_run time m pre t 0 post Hb Hs Hr Hw Hn)
    as (m1 & H & Hp & Ht & Hpost & _).
  { rewrite Hl. reflexivity. }
  exists m1. rewrite Hp, Hl, Ht.
  split; [exact H|]. split; [reflexivity|]. split; [exact Hpost|]. split.
  - intros budgets rs m2 H2.
    apply (no_edge_in_a_row budgets m1 rs m2); auto.
    + congruence.
    + rewrite Ht, <- Hpost. exact Hh.
  - intros Hne. rewrite rising_app, Hl.
    destruct post as [|[t1 c1] post]; [congruence|].
    inversion Hh; subst. simpl in *. subst c1. simpl.
    apply orb_true_r.
Qed.

Lemma edge_after_a_final_low_sample_is_missed_witness :
  waituntil 25 badge_late_low = Some (0, badge_late_low_after) /\
  previouspinstate badge_late_low_after = 1 /\
  rising (previouspinstate badge_late_low)
         ([(24, 1)] ++ (25, 0) :: [(26, 1); (56, 1)]) = true /\
  exists rs m2,
    waits [1; 25] badge_late_low_after = Some (rs, m2) /\
    Forall (fun r => r = 0) rs /\ previouspinstate m2 = 1.
Proof.
  destruct (edge_after_a_final_low_sample_is_missed 25 badge_late_low
              [(24, 1)] 25 [(26, 1); (56, 1)])
    as (m1 & H & Hp & _ & Hlater & Hedge).
  - right. reflexivity.
  - vm_compute. reflexivity.
  - reflexivity.
  - reflexivity.
  - repeat (apply Forall_cons; [vm_compute; reflexivity|]). apply Forall_nil.
  - vm_compute. discriminate.
  - repeat (apply Forall_cons; [reflexivity|]). apply Forall_nil.
  - assert (E : waituntil 25 badge_late_low = Some (0, badge_late_low_after))
      by (vm_compute; reflexivity).
    rewrite E in H. inversion H; subst m1.
    split; [exact E|]. split; [exact Hp|].
    split; [apply Hedge; discriminate|].
    assert (W : exists rs m2,
               waits [1; 25] badge_late_low_after = Some (rs, m2))
      by (eexists; eexists; vm_compute; reflexivity).
    destruct W as (rs & m2 & W). exists rs, m2.
    split; [exact W|]. exact (Hlater _ _ _ W).
Defined.

(** X4: One report per pulse: a detection leaves the baseline at the clock
    (the next wait gets its whole budget), the Sequence State at 0 and
    [previouspinstate] HIGH, so that for as long as the sync input
    stays HIGH every later call, whatever the budgets, returns 0 and
    leaves [previouspinstate] HIGH. *)
Theorem sync_edge_is_reported_once time m m1 :
  waituntil time m = Some (1, m1) ->
  Forall (fun s => snd s = 1) (samples (elapsedmillis m1) (future m1)) ->
  elapsed m1 = 0 /\
  previoustime m1 = elapsedmillis m1 /\
  state m1 = 0 /\
  previouspinstate m1 = 1 /\
  (forall budgets rs m2,
     waits budgets m1 = Some (rs, m2) ->
     Forall (fun r => r = 0) rs /\ previouspinstate m2 = 1).
Proof.
  intros H Hh. apply waituntil_detected in H.
  destruct H as (Hs & Hp & Ht & He & _).
  split; [exact He|]. split; [exact Ht|]. split; [exact Hs|].
  split; [exact Hp|].
  intros budgets rs m2 H2.
  apply (no_edge_in_a_row budgets m1 rs m2); auto.
Qed.

Lemma sync_edge_is_reported_once_witness :
  waituntil 25 badge_pulse_end = Some (1, badge_pulse_end_after) /\
  elapsed badge_pulse_end_after = 0 /\
  previouspinstate badge_pulse_end_after = 1 /\
  exists rs m2,
    waits [1; 25] badge_pulse_end_after = Some (rs, m2) /\
    Forall (fun r => r = 0) rs /\ previouspinstate m2 = 1.
Proof.
  assert (H1 : waituntil 25 badge_pulse_end = Some (1, badge_pulse_end_after))
    by (vm_compute; reflexivity).
  assert (H2 : Forall (fun s => snd s = 1)
                 (samples (elapsedmillis badge_pulse_end_after)
                          (future badge_pulse_end_after))).
  { vm_compute. repeat (apply Forall_cons; [reflexivity|]). apply Forall_nil. }
  destruct (sync_edge_is_reported_once 25 badge_pulse_end
              badge_pulse_end_after H1 H2) as (He & _ & _ & Hp & Hn).
  split; [exact H1|]. split; [exact He|]. split; [exact Hp|].
  assert (W : exists rs m2,
             waits [1; 25] badge_pulse_end_after = Some (rs, m2))
    by (eexists; eexists; vm_compute; reflexivity).
  destruct W as (rs & m2 & W). exists rs, m2.
  split; [exact W|]. exact (Hn _ _ _ W).
Defined.

(** X5: A call that is already overdue at its first sample (the clock is a
    budget or more ahead of the baseline, as it always is with a budget
    of 0) takes that one sample and returns: 1 when the level recorded
    before was LOW and the sample is HIGH, otherwise 0 with the baseline
    advanced by the budget and [previouspinstate] left as it was. *)
Theorem waituntil_overdue time m i w :
  future m = i :: w ->
  time = 0 \/
  ~ within time (previoustime m)
           (wrap32 (elapsedmillis m + Z.of_nat (ticks i))) ->
  exists r m',
    waituntil time m = Some (r, m') /\
    future m' = w /\
    elapsedmillis m' = wrap32 (elapsedmillis m + Z.of_nat (ticks i)) /\
    (r = 1 <-> previouspinstate m = 0 /\ syncbit (pa_in i) = 1) /\
    (r <> 1 ->
     r = 0 /\ previouspinstate m' = previouspinstate m /\
     state m' = state m /\
     previoustime m' = wrap32 (previoustime m + time)).
Proof.
  intros Hf Ho.
  assert (Hn : (wrap32 (wrap32 (elapsedmillis m + Z.of_nat (ticks i))
                        - previoustime m) <? u32_of_i16 time) = false).
  { apply Z.ltb_ge. destruct Ho as [->|Ho].
    - change (u32_of_i16 0) with 0. apply wrap32_range.
    - unfold within in Ho. lia. }
  rewrite waituntil_eq. unfold waituntil_summary. rewrite Hf.
  rewrite scan_unfold, Hn. cbn [andb].
  destruct ((syncbit (pa_in i) =? 1) && (previouspinstate m =? 0)) eqn:E.
  - exists 1. eexists. split; [reflexivity|]. simpl.
    apply andb_true_iff in E. destruct E as [E1 E2].
    apply Z.eqb_eq in E1, E2.
    split; [reflexivity|]. split; [reflexivity|]. split; [tauto|].
    intros H. congruence.
  - exists 0. eexists. split; [reflexivity|]. simpl.
    split; [reflexivity|]. split; [reflexivity|]. split.
    + split; [discriminate|]. intros [H1 H2]. rewrite H1, H2 in E.
      discriminate.
    + intros _. split; [reflexivity|]. split; [reflexivity|].
      split; [reflexivity|]. unfold u32_of_i16. apply wrap32_add_r.
Qed.

Lemma waituntil_overdue_witness :
  future badge_jumpy = mkInstant 25 0x10 :: repeat (mkInstant 25 0x10) 79 /\
  exists r m',
    waituntil 25 badge_jumpy = Some (r, m') /\
    future m' = repeat (mkInstant 25 0x10) 79.
Proof.
  assert (H1 : future badge_jumpy
               = mkInstant 25 0x10 :: repeat (mkInstant 25 0x10) 79)
    by reflexivity.
  split; [exact H1|].
  destruct (waituntil_overdue 25 badge_jumpy _ _ H1)
    as (r & m' & H & Hf & _).
  - right. vm_compute. discriminate.
  - exists r, m'. auto.
Defined.

(** ** Switching from one LED to the next *)

Lemma trace_prefix : forall l p q,
  In q (trace l p) ->
  exists j, In j (seq 0 (Datatypes.S (length l))) /\ q = exec (firstn j l) p.
Proof.
  induction l as [|s l IH]; intros p q H; simpl in H; [tauto|].
  destruct H as [<-|H].
  - exists 1%nat. split; [apply in_seq; simpl; lia|reflexivity].
  - apply IH in H. destruct H as (j & Hj & ->).
    exists (Datatypes.S j). apply in_seq in Hj.
    split; [apply in_seq; simpl in *; lia|reflexivity].
Qed.

Lemma trace_app : forall l1 l2 p q,
  In q (trace (l1 ++ l2) p) ->
  In q (trace l1 p) \/ In q (trace l2 (exec l1 p)).
Proof.
  induction l1 as [|s l1 IH]; intros l2 p q H; simpl in *; auto.
  destruct H as [H|H]; auto.
  apply IH in H. tauto.
Qed.

Lemma side_pins_exec l p : forall wires,
  side_pins wires (exec l p) = pins_from l wires (bits_of wires p).
Proof.
  unfold side_pins, pins_from, bits_of, pin.
  induction wires as [|[[c d] bit] wires IH]; simpl; auto.
  now rewrite IH, !testbit_exec.
Qed.

Lemma bits_of_all p : forall wires,
  In (bits_of wires p) (all_bits (length wires)).
Proof.
  induction wires as [|w wires IH]; simpl; auto.
  apply in_flat_map. exists (bits_of wires p). split; [exact IH|].
  destruct (Z.testbit _ _), (Z.testbit _ _); simpl; auto.
Qed.

Lemma subsetb_incl a b : subsetb a b = true -> incl a b.
Proof.
  unfold subsetb. rewrite forallb_forall. intros H x Hx.
  apply H in Hx. apply existsb_exists in Hx. destruct Hx as (y & Hy & E).
  apply Nat.eqb_eq in E. now subst.
Qed.

Lemma only_eq a k : only a k = true -> a = [k].
Proof.
  destruct a as [|x [|y a]]; simpl; try discriminate.
  intros H. apply Nat.eqb_eq in H. now subst.
Qed.

Lemma calm_sound l wires k p q :
  calm l wires k = true -> In q (trace l p) ->
  incl (lit (side_pins wires q)) (lit (side_pins wires p)) \/
  lit (side_pins wires q) = [k].
Proof.
  intros H Hq. apply trace_prefix in Hq. destruct Hq as (j & Hj & ->).
  unfold calm in H. rewrite forallb_forall in H.
  specialize (H _ (bits_of_all p wires)).
  rewrite forallb_forall in H. specialize (H _ Hj).
  rewrite side_pins_exec.
  change p with (exec [] p) at 2. rewrite side_pins_exec.
  apply orb_true_iff in H. destruct H as [H|H].
  - left. now apply subsetb_incl.
  - right. now apply only_eq.
Qed.

Lemma left_case_none k : k < 0 \/ 19 < k -> left_case k = [].
Proof.
  intros H. destruct k as [|k|k]; [lia| |reflexivity].
  do 5 (try destruct k as [k|k|]); try reflexivity; lia.
Qed.

Lemma right_case_none k : k < 0 \/ 19 < k -> right_case k = [].
Proof.
  intros H. destruct k as [|k|k]; [lia| |reflexivity].
  do 5 (try destruct k as [k|k|]); try reflexivity; lia.
Qed.

Lemma lit_range pins k : In k (lit pins) -> (k < 20)%nat.
Proof.
  unfold lit. intros H. apply filter_In in H. destruct H as [H _].
  apply in_seq in H. lia.
Qed.

Lemma calm_dark l wires p q :
  calm l wires 20 = true -> In q (trace l p) ->
  incl (lit (side_pins wires q)) (lit (side_pins wires p)).
Proof.
  intros H Hq. destruct (calm_sound _ _ _ p q H Hq) as [E|E]; auto.
  assert (A : In 20%nat (lit (side_pins wires q))) by (rewrite E; now left).
  apply lit_range in A. lia.
Qed.

Lemma left_block_calm k p q :
  In q (trace (left_block k) p) -> shows_old_or_new left_pins k p q.
Proof.
  intros H. unfold shows_old_or_new, left_pins.
  destruct (Z_le_gt_dec 0 k) as [H0|H0];
    [destruct (Z_le_gt_dec k 19) as [H1|H1]|].
  - assert (A : forallb (fun j => calm (left_block (Z.of_nat j)) left_wires j)
                        (seq 0 20) = true) by (vm_compute; reflexivity).
    rewrite forallb_forall in A.
    specialize (A _ (led_number k (conj H0 H1))).
    rewrite Z2Nat.id in A by lia.
    destruct (calm_sound _ _ _ p q A H); auto.
  - left. unfold left_block in H. rewrite left_case_none in H by lia.
    refine (calm_dark _ left_wires p q _ H). vm_compute. reflexivity.
  - left. unfold left_block in H. rewrite left_case_none in H by lia.
    refine (calm_dark _ left_wires p q _ H). vm_compute. reflexivity.
Qed.

Lemma right_block_calm k p q :
  In q (trace (right_block k) p) -> shows_old_or_new right_pins k p q.
Proof.
  intros H. unfold shows_old_or_new, right_pins.
  destruct (Z_le_gt_dec 0 k) as [H0|H0];
    [destruct (Z_le_gt_dec k 19) as [H1|H1]|].
  - assert (A : forallb (fun j => calm (right_block (Z.of_nat j)) right_wires j)
                        (seq 0 20) = true) by (vm_compute; reflexivity).
    rewrite forallb_forall in A.
    specialize (A _ (led_number k (conj H0 H1))).
    rewrite Z2Nat.id in A by lia.
    destruct (calm_sound _ _ _ p q A H); auto.
  - left. unfold right_block in H. rewrite right_case_none in H by lia.
    refine (calm_dark _ right_wires p q _ H). vm_compute. reflexivity.
  - left. unfold right_block in H. rewrite right_case_none in H by lia.
    refine (calm_dark _ right_wires p q _ H). vm_compute. reflexivity.
Qed.

Lemma firstn_keeps mask j : forall l,
  forallb (keeps mask) l = true -> forallb (keeps mask) (firstn j l) = true.
Proof.
  induction j as [|j IH]; intros [|s l] H; simpl in *; auto.
  apply andb_true_iff in H. destruct H as [H1 H2].
  now rewrite H1, IH.
Qed.

Lemma trace_keeps mask l p q r :
  forallb (keeps mask) l = true -> In q (trace l p) ->
  Z.land (rd r q) (mask r) = Z.land (rd r p) (mask r).
Proof.
  intros H Hq. apply trace_prefix in Hq. destruct Hq as (j & _ & ->).
  apply keeps_exec. now apply firstn_keeps.
Qed.

Lemma lit_lit_pattern k :
  0 <= k <= 19 -> lit (lit_pattern (Z.to_nat k)) = [Z.to_nat k].
Proof.
  intros H. apply only_eq.
  assert (A : forallb (fun j => only (lit (lit_pattern j)) j) (seq 0 20)
              = true) by (vm_compute; reflexivity).
  rewrite forallb_forall in A. exact (A _ (led_number k H)).
Qed.

(** The pins of the left side after the left part of a call. *)
Lemma left_part_shows k p :
  shows_old_or_new left_pins k p
    (exec (if k <? 21 then left_block k else []) p).
Proof.
  unfold shows_old_or_new.
  destruct (Z.ltb_spec k 21) as [H|H]; [|left; apply incl_refl].
  destruct (Z_le_gt_dec 0 k) as [H0|H0];
    [destruct (Z_le_gt_dec k 19) as [H1|H1]|].
  - right. split; [lia|]. rewrite left_block_lights by lia.
    apply lit_lit_pattern. lia.
  - left. rewrite left_block_dark by lia. intros x [].
  - left. rewrite left_block_dark by lia. intros x [].
Qed.

(** X6: Selecting an LED never lights a third one, not even between two
    assignments: after every single register assignment of a call each
    side lights a subset of what it lit before the call, or the newly
    selected LED alone, whatever the registers held before. *)
Theorem setled_lights_nothing_else left right p :
  Forall (fun q => shows_old_or_new left_pins left p q /\
                   shows_old_or_new right_pins right p q)
         (trace (setled_ops left right) p).
Proof.
  apply Forall_forall. intros q H. unfold setled_ops in H.
  apply trace_app in H. destruct H as [H|H].
  - destruct (left <? 21); [|destruct H]. split.
    + now apply left_block_calm.
    + left. rewrite (right_pins_bits q p); [apply incl_refl|].
      intros r. apply (trace_keeps right_mask (left_block left)); auto.
      apply left_block_keeps_right.
  - set (p1 := exec (if left <? 21 then left_block left else []) p) in *.
    assert (Hr : right_pins p1 = right_pins p).
    { apply right_pins_bits. intros r. apply left_ops_keep_right. }
    destruct (right <? 21); [|destruct H]. split.
    + unfold shows_old_or_new. rewrite (left_pins_bits q p1).
      * exact (left_part_shows left p).
      * intros r. apply (trace_keeps left_mask (right_block right)); auto.
        apply right_block_keeps_left.
    + apply right_block_calm in H. unfold shows_old_or_new in *.
      now rewrite Hr in H.
Qed.

(** ** The board during a run *)

Lemma waituntil_io time m r m' :
  waituntil time m = Some (r, m') -> io m' = io m.
Proof.
  rewrite waituntil_eq. unfold waituntil_summary.
  destruct (future m); [discriminate|].
  destruct (scan _ _ _ _ _ _) as [[[[e' pa'] prev'] w']|]; [|discriminate].
  destruct (_ && _); inversion 1; reflexivity.
Qed.

Lemma syncpulse_io time m m' :
  syncpulse time m = Some (tt, m') -> io m' = exec syncpulse_ops (io m).
Proof.
  rewrite syncpulse_eq. unfold syncpulse_summary.
  destruct (future m); [discriminate|]. cbv zeta.
  destruct (hold _ _ _ _ _) as [[[e' pa'] w']|]; [|discriminate].
  inversion 1. unfold syncpulse_ops. now rewrite exec_app.
Qed.

Section Board.

Variable P : regs -> Prop.
Hypothesis P_setled : forall left right p,
  P p -> P (exec (setled_ops left right) p).
Hypothesis P_syncpulse : forall p, P p -> P (exec syncpulse_ops p).

Lemma stepc_io c m b m' : stepc c m = Some (b, m') -> P (io m) -> P (io m').
Proof.
  rewrite stepc_eq. unfold bind. rewrite setled_eq.
  destruct (waituntil 25 _) as [[r m1]|] eqn:E; [|discriminate].
  inversion 1; subst. apply waituntil_io in E. rewrite E.
  destruct m; simpl. apply P_setled.
Qed.

Lemma for_io : forall l m b m',
  for_ l stepc m = Some (b, m') -> P (io m) -> P (io m').
Proof.
  induction l as [|c l IH]; intros m b m' H Hp; simpl in H.
  - inversion H; subst; auto.
  - unfold and_then, bind in H.
    destruct (stepc c m) as [[b1 m1]|] eqn:E; [|discriminate].
    apply stepc_io in E; auto.
    destruct b1.
    + inversion H; subst. exact E.
    + eapply IH; eauto.
Qed.

Lemma play_io p n m m' :
  play p n m = Some (tt, m') -> P (io m) -> P (io m').
Proof.
  rewrite play_steps. unfold finish, bind.
  destruct (for_ (steps p n) stepc m) as [[b m1]|] eqn:E; [|discriminate].
  inversion 1; subst. eapply for_io; eauto.
Qed.

Lemma dispatch_io m m' :
  dispatch m = Some (tt, m') -> P (io m) -> P (io m').
Proof.
  intros H.
  destruct (dispatch_cases m) as [(k & p & n & _ & _ & Hd)|[_ Hd]];
    rewrite Hd in H.
  - eapply play_io; eauto.
  - unfold pulse_and_reset, bind in H.
    destruct (syncpulse 25 m) as [[[] m1]|] eqn:E; [|discriminate].
    inversion H; subst. apply syncpulse_io in E.
    intros Hp. destruct m1; simpl in *. rewrite E. now apply P_syncpulse.
Qed.

Lemma loop_io m m' : loop m = Some (tt, m') -> P (io m) -> P (io m').
Proof.
  unfold loop, bind, advance, modify. intros H Hp.
  apply dispatch_io in H; [exact H|]. destruct m; exact Hp.
Qed.

Lemma ticks_of_loop_io : forall n m m',
  ticks_of_loop n m = Some (tt, m') -> P (io m) -> P (io m').
Proof.
  induction n as [|n IH]; intros m m' H Hp; simpl in H.
  - inversion H; subst. exact Hp.
  - unfold bind in H.
    destruct (loop m) as [[[] m1]|] eqn:E; [|discriminate].
    apply (IH m1); auto. eapply loop_io; eauto.
Qed.

End Board.

Lemma left_block_keeps_other left :
  forallb (keeps other_mask) (left_block left) = true.
Proof. led_cases left. Qed.

Lemma right_block_keeps_other right :
  forallb (keeps other_mask) (right_block right) = true.
Proof. led_cases right. Qed.

Lemma setled_keeps_other left right :
  forallb (keeps other_mask) (setled_ops left right) = true.
Proof.
  unfold setled_ops. rewrite forallb_app.
  destruct (left <? 21), (right <? 21);
    rewrite ?left_block_keeps_other, ?right_block_keeps_other; reflexivity.
Qed.

Lemma setled_frame left right p r :
  Z.land (rd r (exec (setled_ops left right) p)) (other_mask r)
  = Z.land (rd r p) (other_mask r).
Proof. apply keeps_exec, setled_keeps_other. Qed.

Lemma setled_untouched left right p r :
  other_mask r = -1 -> rd r (exec (setled_ops left right) p) = rd r p.
Proof.
  intros H. pose proof (setled_frame left right p r) as E.
  now rewrite H, !Z.land_m1_r in E.
Qed.

Lemma tidy_lit_pattern k : 0 <= k <= 19 -> tidy (lit_pattern (Z.to_nat k)) = true.
Proof.
  intros H.
  assert (A : forallb (fun j => tidy (lit_pattern j)) (seq 0 20) = true)
    by (vm_compute; reflexivity).
  rewrite forallb_forall in A. exact (A _ (led_number k H)).
Qed.

Lemma left_part_tidy k p :
  tidy (left_pins p) = true ->
  tidy (left_pins (exec (if k <? 21 then left_block k else []) p)) = true.
Proof.
  intros Hp. destruct (Z.ltb_spec k 21) as [H|H]; [|exact Hp].
  destruct (Z_le_gt_dec 0 k) as [H0|H0];
    [destruct (Z_le_gt_dec k 19) as [H1|H1]|].
  - rewrite left_block_lights by lia. apply tidy_lit_pattern. lia.
  - rewrite left_block_dark by lia. reflexivity.
  - rewrite left_block_dark by lia. reflexivity.
Qed.

Lemma right_part_tidy k p :
  tidy (right_pins p) = true ->
  tidy (right_pins (exec (if k <? 21 then right_block k else []) p)) = true.
Proof.
  intros Hp. destruct (Z.ltb_spec k 21) as [H|H]; [|exact Hp].
  destruct (Z_le_gt_dec 0 k) as [H0|H0];
    [destruct (Z_le_gt_dec k 19) as [H1|H1]|].
  - rewrite right_block_lights by lia. apply tidy_lit_pattern. lia.
  - rewrite right_block_dark by lia. reflexivity.
  - rewrite right_block_dark by lia. reflexivity.
Qed.

Lemma setled_board left right p :
  board_ok p -> board_ok (exec (setled_ops left right) p).
Proof.
  intros (H1 & H3 & H4 & H5 & H6).
  split; [|split; [|split; [|split]]].
  - rewrite <- H1. apply (setled_frame left right p PAC).
  - rewrite <- H3. now apply setled_untouched.
  - rewrite <- H4. now apply setled_untouched.
  - unfold setled_ops. rewrite exec_app.
    rewrite (left_pins_bits _ (exec (if left <? 21 then left_block left
                                      else []) p)).
    + now apply left_part_tidy.
    + intros r. apply right_ops_keep_left.
  - unfold setled_ops. rewrite exec_app. apply right_part_tidy.
    rewrite (right_pins_bits _ p); auto.
    intros r. apply left_ops_keep_right.
Qed.

Lemma keeps_tidy_sound l wires p :
  keeps_tidy l wires = true ->
  tidy (side_pins wires p) = true -> tidy (side_pins wires (exec l p)) = true.
Proof.
  unfold keeps_tidy. rewrite forallb_forall. intros H.
  specialize (H _ (bits_of_all p wires)).
  rewrite side_pins_exec. change p with (exec [] p) at 1.
  rewrite side_pins_exec. intros Hp. rewrite Hp in H.
  destruct (tidy (pins_from l _ _)); [reflexivity|discriminate].
Qed.

Lemma tidy_one wires p :
  tidy_lights_one wires = true ->
  tidy (side_pins wires p) = true ->
  (length (lit (side_pins wires p)) <= 1)%nat.
Proof.
  unfold tidy_lights_one. rewrite forallb_forall. intros H.
  specialize (H _ (bits_of_all p wires)).
  change p with (exec [] p). rewrite side_pins_exec.
  intros Hp. rewrite Hp in H.
  destruct (length _ <=? 1)%nat eqn:E; [|discriminate].
  now apply Nat.leb_le.
Qed.

Lemma syncpulse_board p : board_ok p -> board_ok (exec syncpulse_ops p).
Proof.
  intros (H1 & H3 & H4 & H5 & H6).
  split; [|split; [|split; [|split]]].
  - destruct p; exact H1.
  - destruct p; exact H3.
  - destruct p; exact H4.
  - apply (keeps_tidy_sound syncpulse_ops left_wires);
      [vm_compute; reflexivity|assumption].
  - apply (keeps_tidy_sound syncpulse_ops right_wires);
      [vm_compute; reflexivity|assumption].
Qed.

Lemma setled_carrier q left right p :
  carrier_off q p -> carrier_off q (exec (setled_ops left right) p).
Proof.
  unfold carrier_off. now rewrite (setled_untouched left right p TM2C).
Qed.

Lemma syncpulse_carrier q p :
  carrier_off q p -> carrier_off q (exec syncpulse_ops p).
Proof. intros _. left. destruct p; reflexivity. Qed.

(** X7: Throughout a run of [main], at every return of [loop]: of the pins
    that drive no LED only the IR LED pin PA3 is an output (the sync
    input PA4 is never driven), the carrier timer of the IR LED is
    stopped or was never started, the pull-ups are the ones [setup]
    chose, and neither side of the array lights more than one LED. *)
Theorem main_keeps_the_board_safe n m m' :
  main n m = Some (tt, m') ->
  Z.land (rd PAC (io m')) 0x7e = 0x08 /\
  rd PAPH (io m') = 0x76 /\ rd PBPH (io m') = 0 /\
  (rd TM2C (io m') = 0 \/ rd TM2C (io m') = rd TM2C (io m)) /\
  (length (lit (left_pins (io m'))) <= 1)%nat /\
  (length (lit (right_pins (io m'))) <= 1)%nat.
Proof.
  unfold main, bind. rewrite setup_eq. unfold setup_summary.
  destruct (future m) as [|i w]; [discriminate|]. cbv zeta.
  intros H.
  apply (ticks_of_loop_io (fun p => board_ok p /\ carrier_off (io m) p))
    in H.
  - destruct H as ((H1 & H3 & H4 & H5 & H6) & H7).
    repeat (split; [assumption|]).
    split.
    + apply (tidy_one left_wires); [vm_compute; reflexivity|assumption].
    + apply (tidy_one right_wires); [vm_compute; reflexivity|assumption].
  - intros left right p [A B].
    split; [now apply setled_board|now apply setled_carrier].
  - intros p [A B].
    split; [now apply syncpulse_board|now apply syncpulse_carrier].
  - simpl io. split.
    + destruct (io m). repeat split.
    + right. destruct (io m). reflexivity.
Qed.

Lemma main_keeps_the_board_safe_witness :
  main 9 badge_tick_per_read = Some (tt, badge_tick_per_read_after) /\
  Z.land (rd PAC (io badge_tick_per_read_after)) 0x7e = 0x08 /\
  (length (lit (left_pins (io badge_tick_per_read_after))) <= 1)%nat.
Proof.
  assert (H : main 9 badge_tick_per_read = Some (tt, badge_tick_per_read_after))
    by (vm_compute; reflexivity).
  split; [exact H|].
  destruct (main_keeps_the_board_safe 9 badge_tick_per_read
              badge_tick_per_read_after H)
    as (H1 & _ & _ & _ & H6 & _).
  split; [exact H1|exact H6].
Defined.

(** ** The sync pulse *)

Lemma hold_deaf time p : forall w w2 e pa pa2 e' pa' w',
  map ticks w = map ticks w2 ->
  hold time p w e pa = Some (e', pa', w') ->
  exists pa2' w2',
    hold time p w2 e pa2 = Some (e', pa2', w2') /\
    map ticks w' = map ticks w2'.
Proof.
  induction w as [|i w IH]; intros [|i2 w2] e pa pa2 e' pa' w' Hm H;
    try discriminate; rewrite hold_unfold in H; rewrite hold_unfold;
    destruct (wrap32 (e - p) <? u32_of_i16 time); try discriminate.
  - inversion H; subst. exists pa2, []. auto.
  - simpl in Hm. injection Hm as Ht Hm'.
    rewrite <- Ht. eapply IH; eauto.
  - inversion H; subst. exists pa2, (i2 :: w2). auto.
Qed.

(** X8: The pulse lasts at least [time] milliseconds by the badge's own
    clock, counted from the first clock read after the carrier is
    switched on; when [syncpulse] returns the carrier timer is stopped
    and the data register of port A is 0.  It changes neither the
    Sequence State, nor the recorded pin level, nor the directions of
    the pins, nor port B. *)
Theorem syncpulse_lasts_its_time time m m' :
  syncpulse time m = Some (tt, m') ->
  exists i used,
    future m = i :: used ++ future m' /\
    previoustime m' = wrap32 (elapsedmillis m + Z.of_nat (ticks i)) /\
    elapsedmillis m' = wrap32 (previoustime m' + total_ticks used) /\
    ~ within time (previoustime m') (elapsedmillis m') /\
    state m' = state m /\ previouspinstate m' = previouspinstate m /\
    rd TM2C (io m') = 0 /\ rd PA (io m') = 0 /\
    rd PAC (io m') = rd PAC (io m) /\
    rd PB (io m') = rd PB (io m) /\ rd PBC (io m') = rd PBC (io m).
Proof.
  intros H. pose proof (syncpulse_io _ _ _ H) as Hio.
  apply syncpulse_ticks in H.
  destruct H as (i & used & H1 & H2 & H3 & H4 & H5 & H6).
  exists i, used. repeat (split; [assumption|]).
  rewrite Hio. destruct (io m). repeat split.
Qed.

Lemma syncpulse_lasts_its_time_witness :
  syncpulse 25 badge_sender = Some (tt, badge_sender_after) /\
  ~ within 25 (previoustime badge_sender_after)
           (elapsedmillis badge_sender_after) /\
  rd TM2C (io badge_sender_after) = 0.
Proof.
  assert (H : syncpulse 25 badge_sender = Some (tt, badge_sender_after))
    by (vm_compute; reflexivity).
  split; [exact H|].
  destruct (syncpulse_lasts_its_time 25 badge_sender badge_sender_after H)
    as (i & used & _ & _ & _ & H4 & _ & _ & H7 & _).
  split; [exact H4|exact H7].
Defined.

(** X9: The sender does not listen: [syncpulse] never looks at the sync
    input.  Two badges that differ only in the levels of port A get the
    same result, so a pulse from another badge that arrives during the
    badge's own pulse goes unnoticed. *)
Theorem syncpulse_is_deaf time m m2 m' :
  same_clock m m2 ->
  syncpulse time m = Some (tt, m') ->
  exists m2', syncpulse time m2 = Some (tt, m2') /\ same_clock m' m2'.
Proof.
  intros (He & Hs & Hp & Hpp & Hio & Hf). rewrite !syncpulse_eq.
  unfold syncpulse_summary.
  destruct (future m) as [|i w]; [discriminate|].
  destruct (future m2) as [|i2 w2]; [discriminate|].
  simpl in Hf. injection Hf as Hi Hw. cbv zeta.
  rewrite <- He, <- Hi, <- Hs, <- Hpp, <- Hio.
  destruct (hold _ _ w _ _) as [[[e' pa'] w']|] eqn:E; [|discriminate].
  destruct (hold_deaf _ _ _ _ _ _ (pa_in i2) _ _ _ Hw E)
    as (pa2' & w2' & E2 & Hw').
  rewrite E2. inversion 1; subst m'.
  eexists. split; [reflexivity|]. repeat split; auto.
Qed.

Lemma syncpulse_is_deaf_witness :
  same_clock badge_sender badge_sender_low /\
  exists m2', syncpulse 25 badge_sender_low = Some (tt, m2') /\
              same_clock badge_sender_after m2'.
Proof.
  assert (H1 : same_clock badge_sender badge_sender_low)
    by (repeat split; reflexivity).
  assert (H2 : syncpulse 25 badge_sender = Some (tt, badge_sender_after))
    by (vm_compute; reflexivity).
  split; [exact H1|].
  exact (syncpulse_is_deaf 25 badge_sender badge_sender_low
           badge_sender_after H1 H2).
Defined.

(** X10: The step that follows a sync pulse is cut short: the pulse has used
    up the 25 ms that the baseline allows, so the wait of the next step
    takes a single sample and returns.  The sender thus shows the first
    LED for an instant only and continues from the start of its pulse
    plus 25 ms. *)
Theorem step_after_a_pulse_takes_one_sample c m m1 i w :
  syncpulse 25 m = Some (tt, m1) ->
  future m1 = i :: w ->
  elapsed m1 + Z.of_nat (ticks i) < 2 ^ 32 ->
  exists b m2,
    stepc c m1 = Some (b, m2) /\ future m2 = w /\
    (b = true <-> previouspinstate m = 0 /\ syncbit (pa_in i) = 1) /\
    (b = false -> previoustime m2 = wrap32 (previoustime m1 + 25)).
Proof.
  intros H Hf Hlt. apply syncpulse_ticks in H.
  destruct H as (_ & _ & _ & _ & _ & Hn & _ & Hp).
  assert (Hlate : (wrap32 (wrap32 (elapsedmillis m1 + Z.of_nat (ticks i))
                           - previoustime m1) <? u32_of_i16 25) = false).
  { apply Z.ltb_ge. rewrite lead_after by lia.
    unfold within in Hn. fold (elapsed m1) in Hn. lia. }
  rewrite stepc_eq. unfold bind. rewrite setled_eq, waituntil_eq.
  unfold waituntil_summary.
  destruct m1 as [e1 s1 p1 pp1 r1 pa1 f1]. simpl in Hf, Hp, Hlate |- *.
  subst f1 pp1.
  rewrite scan_unfold, Hlate. cbn [andb].
  destruct ((syncbit (pa_in i) =? 1) && (previouspinstate m =? 0)) eqn:E.
  - eexists. eexists. split; [reflexivity|]. simpl.
    apply andb_true_iff in E. destruct E as [E1 E2].
    apply Z.eqb_eq in E1, E2.
    split; [reflexivity|]. split; [tauto|]. discriminate.
  - eexists. eexists. split; [reflexivity|]. simpl.
    split; [reflexivity|]. split.
    + split; [discriminate|]. intros [H1 H2]. rewrite H1, H2 in E.
      discriminate.
    + intros _. reflexivity.
Qed.

Lemma step_after_a_pulse_takes_one_sample_witness :
  exists b m2,
    stepc (0, 20) badge_sender_after = Some (b, m2) /\
    future m2 = repeat (mkInstant 1 0x10) 3.
Proof.
  assert (H : syncpulse 25 badge_sender = Some (tt, badge_sender_after))
    by (vm_compute; reflexivity).
  destruct (step_after_a_pulse_takes_one_sample (0, 20) badge_sender
              badge_sender_after (mkInstant 1 0x10)
              (repeat (mkInstant 1 0x10) 3) H)
    as (b & m2 & H1 & H2 & _).
  - vm_compute. reflexivity.
  - vm_compute. reflexivity.
  - exists b, m2. auto.
Defined.

(** ** Patterns and the baseline *)

Lemma waituntil_cases time m r m' :
  waituntil time m = Some (r, m') ->
  (r = 1 /\ state m' = 0 /\ elapsed m' = 0 /\ previouspinstate m' = 1 /\
   syncbit (pa_pins m') = 1) \/
  (r = 0 /\ state m' = state m /\
   previoustime m' = wrap32 (previoustime m + u32_of_i16 time)).
Proof.
  intros H.
  assert (Hr : r = 1 \/ r = 0).
  { rewrite waituntil_eq in H. unfold waituntil_summary in H.
    destruct (future m); [discriminate|].
    destruct (scan _ _ _ _ _ _) as [[[[e' pa'] prev'] w']|]; [|discriminate].
    destruct (_ && _); inversion H; auto. }
  destruct Hr as [-> | ->].
  - left. apply waituntil_detected in H. tauto.
  - right. rewrite waituntil_eq in H. unfold waituntil_summary in H.
    destruct (future m); [discriminate|].
    destruct (scan _ _ _ _ _ _) as [[[[e' pa'] prev'] w']|]; [|discriminate].
    destruct (_ && _); inversion H; auto.
Qed.

Lemma stepc_cases c m b m' :
  stepc c m = Some (b, m') ->
  (b = true /\ state m' = 0 /\ elapsed m' = 0 /\ previouspinstate m' = 1 /\
   syncbit (pa_pins m') = 1) \/
  (b = false /\ state m' = state m /\
   previoustime m' = wrap32 (previoustime m + 25)).
Proof.
  rewrite stepc_eq. unfold bind. rewrite setled_eq.
  destruct (waituntil 25 _) as [[r m1]|] eqn:E; [|discriminate].
  inversion 1; subst. apply waituntil_cases in E.
  destruct E as [(-> & E)|(-> & E)]; [left|right]; (split; [reflexivity|]).
  - exact E.
  - destruct m; exact E.
Qed.

Lemma for_cases : forall l m b m',
  for_ l stepc m = Some (b, m') ->
  state m <> 0 -> 0 <= previoustime m < 2 ^ 32 ->
  (b = true /\ state m' = 0 /\ elapsed m' = 0 /\ previouspinstate m' = 1 /\
   syncbit (pa_pins m') = 1) \/
  (b = false /\ state m' = state m /\
   previoustime m' = wrap32 (previoustime m + 25 * Z.of_nat (length l))).
Proof.
  induction l as [|c l IH]; intros m b m' H Hs Hp; simpl in H.
  - inversion H; subst. right. simpl. rewrite Z.add_0_r, wrap32_small; auto.
  - unfold and_then, bind in H.
    destruct (stepc c m) as [[b1 m1]|] eqn:E; [|discriminate].
    apply stepc_cases in E. destruct E as [(-> & E)|(-> & E1 & E2)].
    + inversion H; subst. left. tauto.
    + apply IH in H; [| congruence | rewrite E2; apply wrap32_range].
      destruct H as [H|(-> & H1 & H2)]; [left; exact H|right].
      split; [reflexivity|]. split; [congruence|].
      rewrite H2, E2, wrap32_add_l. f_equal.
      change (length (c :: l)) with (Datatypes.S (length l)). lia.
Qed.

Lemma flat_map_const_length {A B} (b : list B) (l : list A) :
  length (flat_map (fun _ => b) l) = (length l * length b)%nat.
Proof. induction l; simpl; rewrite ?length_app, ?IHl; auto. Qed.

Lemma steps_length p n :
  length (steps p n) = (Z.to_nat n * length (body_steps p))%nat.
Proof.
  unfold steps, range.
  now rewrite flat_map_const_length, length_map, length_seq.
Qed.

(** X11: A pattern that plays to its end without a sync keeps the beat: the
    Timing Baseline has advanced by exactly 25 ms for each of its steps
    (20, 40 or 80 per repeat), whatever the clock did in between, and
    the Sequence State is untouched. *)
Theorem pattern_keeps_the_beat p n m m' :
  play p n m = Some (tt, m') ->
  state m <> 0 -> state m' <> 0 -> 0 <= previoustime m < 2 ^ 32 ->
  state m' = state m /\
  previoustime m'
  = wrap32 (previoustime m + 25 * Z.of_nat (length (steps p n))) /\
  length (steps p n) = (Z.to_nat n * length (body_steps p))%nat /\
  In (length (body_steps p)) [20; 40; 80]%nat.
Proof.
  rewrite play_steps. unfold finish, bind. intros H Hs Hs' Hp.
  destruct (for_ (steps p n) stepc m) as [[b m1]|] eqn:E; [|discriminate].
  inversion H; subst m1. apply for_cases in E; auto.
  destruct E as [(_ & E & _)|(_ & E1 & E2)]; [contradiction|].
  split; [exact E1|]. split; [exact E2|]. split; [apply steps_length|].
  destruct p; simpl; auto.
Qed.

Lemma pattern_keeps_the_beat_witness :
  play Twoledsccw 8 (set_state 3 badge_mid_sequence)
  = Some (tt, badge_mid_sequence_after) /\
  previoustime badge_mid_sequence_after = 4100.
Proof.
  assert (H : play Twoledsccw 8 (set_state 3 badge_mid_sequence)
              = Some (tt, badge_mid_sequence_after))
    by (vm_compute; reflexivity).
  split; [exact H|].
  destruct (pattern_keeps_the_beat Twoledsccw 8
              (set_state 3 badge_mid_sequence) badge_mid_sequence_after H)
    as (_ & H2 & _).
  - vm_compute. discriminate.
  - vm_compute. discriminate.
  - vm_compute. split; [discriminate|reflexivity].
  - rewrite H2. vm_compute. reflexivity.
Defined.

(** X12: A sync received during a pattern restarts the sequence: when a pass
    of [loop] that played a pattern ends with the Sequence State at 0,
    the Timing Baseline is the clock value of the edge (nothing of the
    next budget is used up), the recorded pin level is HIGH, and the
    next pass plays the first pattern from its first step. *)
Theorem sync_restarts_the_sequence m m1 :
  0 <= state m <= 7 -> 0 <= previoustime m < 2 ^ 32 ->
  loop m = Some (tt, m1) -> state m1 = 0 ->
  elapsed m1 = 0 /\ previouspinstate m1 = 1 /\
  syncbit (pa_pins m1) = 1 /\
  loop m1 = singleledccw 4 (set_state 1 m1).
Proof.
  intros Hs Hp H H0.
  assert (Hsync : elapsed m1 = 0 /\ previouspinstate m1 = 1 /\
                  syncbit (pa_pins m1) = 1).
  { unfold loop, bind, advance, modify in H.
    set (m0 := set_state (wrap8 (state m + 1)) m) in *.
    assert (Hs0 : state m0 = state m + 1) by (apply advance_state; lia).
    destruct (dispatch_cases m0) as [(k & p & n & _ & _ & Hd)|[Hr _]];
      [|lia].
    rewrite Hd, play_steps in H. unfold finish, bind in H.
    destruct (for_ (steps p n) stepc m0) as [[b m2]|] eqn:E; [|discriminate].
    inversion H; subst m2. apply for_cases in E.
    - destruct E as [E|(_ & E & _)]; [tauto|]. lia.
    - lia.
    - destruct m; exact Hp. }
  split; [tauto|]. split; [tauto|]. split; [tauto|].
  unfold loop, bind, advance, modify. rewrite H0.
  change (wrap8 (0 + 1)) with 1. destruct m1; reflexivity.
Qed.

Lemma sync_restarts_the_sequence_witness :
  loop badge_resynced = Some (tt, badge_resynced_after) /\
  elapsed badge_resynced_after = 0 /\
  loop badge_resynced_after
  = singleledccw 4 (set_state 1 badge_resynced_after).
Proof.
  assert (H : loop badge_resynced = Some (tt, badge_resynced_after))
    by (vm_compute; reflexivity).
  split; [exact H|].
  destruct (sync_restarts_the_sequence badge_resynced badge_resynced_after)
    as (H1 & _ & _ & H4).
  - vm_compute. split; discriminate.
  - vm_compute. split; [discriminate|reflexivity].
  - exact H.
  - vm_compute. reflexivity.
  - split; [exact H1|exact H4].
Defined.

(** ** When a wait returns *)

Lemma first_rise : forall l prev,
  rising prev l = true ->
  exists pre t post,
    l = pre ++ (t, 1) :: post /\ level_after prev pre = 0 /\
    rising prev pre = false.
Proof.
  induction l as [|[t c] l IH]; intros prev H; simpl in H; [discriminate|].
  destruct ((prev =? 0) && (c =? 1)) eqn:E.
  - apply andb_true_iff in E. destruct E as [E1 E2].
    apply Z.eqb_eq in E1, E2. subst. exists [], t, l. auto.
  - simpl in H. apply IH in H. destruct H as (pre & t' & post & -> & Hl & Hr).
    exists ((t, c) :: pre), t', post. simpl. rewrite E. auto.
Qed.

Lemma stops_somewhere time p prev l :
  rising prev l = true \/
  Exists (fun s : Z * Z => ~ within time p (fst s)) l ->
  exists pre t c post,
    l = pre ++ (t, c) :: post /\ rising prev pre = false /\
    Forall (fun s => within time p (fst s)) pre /\
    ((level_after prev pre =? 0) && (c =? 1) = true \/ ~ within time p t).
Proof.
  intros H.
  assert (D : forall s : Z * Z,
            {within time p (fst s)} + {~ within time p (fst s)})
    by (intros s; apply Z_lt_dec).
  destruct (Forall_Exists_dec _ D l) as [Hall|Hex].
  - destruct H as [H|H].
    + apply first_rise in H. destruct H as (pre & t & post & -> & Hl & Hr).
      exists pre, t, 1, post. apply Forall_app in Hall.
      rewrite Hl. simpl. tauto.
    + exfalso. apply Exists_exists in H. destruct H as (s & Hi & Hn).
      rewrite Forall_forall in Hall. auto.
  - apply first_outside in Hex.
    destruct Hex as (pre & [t c] & post & -> & Hw & Hn).
    destruct (rising prev pre) eqn:R.
    + apply first_rise in R. destruct R as (pre' & t' & post' & -> & Hl & Hr).
      exists pre', t', 1, (post' ++ (t, c) :: post).
      apply Forall_app in Hw. rewrite <- app_assoc, Hl. simpl. tauto.
    + exists pre, t, c, post. auto.
Qed.

(** X13: A wait returns exactly when the future holds a sample that ends it:
    a HIGH sample right after a LOW level, or a sample at or after the
    end of the budget.  With a clock that stands still and no edge on
    the sync input the call never returns. *)
Theorem waituntil_returns_iff time m :
  is_bit (previouspinstate m) ->
  (exists r m', waituntil time m = Some (r, m')) <->
  (rising (previouspinstate m) (samples (elapsedmillis m) (future m)) = true
   \/ Exists (fun s => ~ within time (previoustime m) (fst s))
             (samples (elapsedmillis m) (future m))).
Proof.
  intros Hb. split.
  - intros (r & m' & H). apply waituntil_inv in H; auto.
    destruct H as (pre & t & c & Hs & Hr & Hw & _ & _ & _ & H).
    rewrite Hs.
    destruct H as [(_ & Hl & -> & _)|(_ & _ & Hn & _)].
    + left. rewrite rising_app, Hl. simpl. apply orb_true_r.
    + right. apply Exists_app. right. now left.
  - intros H. apply (stops_somewhere time (previoustime m)) in H.
    destruct H as (pre & t & c & post & Hs & Hr & Hw & Hx).
    destruct (waituntil_run time m pre t c post Hb Hs Hr Hw Hx)
      as (m' & H & _).
    eauto.
Qed.

Lemma waituntil_returns_iff_witness :
  is_bit (previouspinstate badge_idle) /\
  (rising (previouspinstate badge_idle)
          (samples (elapsedmillis badge_idle) (future badge_idle)) = true
   \/ Exists (fun s => ~ within 25 (previoustime badge_idle) (fst s))
             (samples (elapsedmillis badge_idle) (future badge_idle))).
Proof.
  assert (H : is_bit (previouspinstate badge_idle)) by (right; reflexivity).
  split; [exact H|].
  apply (proj1 (waituntil_returns_iff 25 badge_idle H)).
  exists 0, badge_idle_after. vm_compute. reflexivity.
Defined.

(** ** What the patterns show *)

Lemma body_well_formed p : forallb (well_formed p) (body_steps p) = true.
Proof. destruct p; vm_compute; reflexivity. Qed.

Lemma lit_all_off : lit all_off = [].
Proof. reflexivity. Qed.

Lemma setled_lit left right p :
  0 <= left <= 20 -> 0 <= right <= 20 ->
  lit (left_pins (exec (setled_ops left right) p)) = lights left /\
  lit (right_pins (exec (setled_ops left right) p)) = lights right.
Proof.
  intros Hl Hr. unfold setled_ops. rewrite exec_app.
  replace (left <? 21) with true by (symmetry; apply Z.ltb_lt; lia).
  replace (right <? 21) with true by (symmetry; apply Z.ltb_lt; lia).
  split.
  - rewrite (left_pins_bits _ (exec (left_block left) p)).
    + unfold lights. destruct (Z.eqb_spec left 20) as [->|Hn].
      * now rewrite left_block_dark by lia.
      * rewrite left_block_lights by lia. apply lit_lit_pattern. lia.
    + intros r. pose proof (right_ops_keep_left right
                              (exec (left_block left) p) r) as K.
      replace (right <? 21) with true in K
        by (symmetry; apply Z.ltb_lt; lia).
      exact K.
  - unfold lights. destruct (Z.eqb_spec right 20) as [->|Hn].
    + now rewrite right_block_dark by lia.
    + rewrite right_block_lights by lia. apply lit_lit_pattern. lia.
Qed.

Lemma well_formed_range p c :
  well_formed p c = true -> 0 <= fst c <= 20 /\ 0 <= snd c <= 20.
Proof.
  unfold well_formed, led. destruct (single p); intros H.
  - apply orb_true_iff in H.
    destruct H as [H|H]; apply andb_true_iff in H; destruct H as [H1 H2].
    + apply andb_true_iff in H1. destruct H1 as [A B].
      apply Z.leb_le in A, B. apply Z.eqb_eq in H2. lia.
    + apply andb_true_iff in H2. destruct H2 as [A B].
      apply Z.leb_le in A, B. apply Z.eqb_eq in H1. lia.
  - apply andb_true_iff in H. destruct H as [H1 H2].
    apply andb_true_iff in H1, H2. destruct H1 as [A B], H2 as [C D].
    apply Z.leb_le in A, B, C, D. lia.
Qed.

(** X14: Every step of every pattern names real LEDs: a single-LED pattern
    one LED on one side with the other side off, a two-LED pattern one
    LED on each side; the value for an unchanged side (21 or more) is
    never used.  So after the [setled] of a step each side lights
    exactly the LED the step names, whatever was lit before. *)
Theorem patterns_name_real_leds p n :
  eqM (play p n) (finish (for_ (steps p n) stepc)) /\
  Forall (fun c =>
            well_formed p c = true /\
            forall m, exists m1,
              setled (fst c) (snd c) m = Some (tt, m1) /\
              lit (left_pins (io m1)) = lights (fst c) /\
              lit (right_pins (io m1)) = lights (snd c))
         (steps p n).
Proof.
  split; [apply play_steps|].
  apply Forall_forall. intros c Hc. unfold steps in Hc.
  apply in_flat_map in Hc. destruct Hc as (_ & _ & Hc).
  pose proof (body_well_formed p) as W. rewrite forallb_forall in W.
  specialize (W _ Hc). split; [exact W|].
  apply well_formed_range in W. destruct W as [Wl Wr].
  intros m. rewrite setled_eq. eexists. split; [reflexivity|].
  destruct m; simpl. now apply setled_lit.
Qed.

(** ** Patterns played backwards *)

Lemma flat_map_const_comm {A B} (b : list B) (l : list A) :
  flat_map (fun _ => b) l ++ b = b ++ flat_map (fun _ => b) l.
Proof.
  induction l as [|x l IH]; simpl.
  - now rewrite app_nil_r.
  - now rewrite <- app_assoc, IH.
Qed.

Lemma rev_flat_map_const {A B} (b : list B) (l : list A) :
  rev (flat_map (fun _ => b) l) = flat_map (fun _ => rev b) l.
Proof.
  induction l as [|x l IH]; simpl; auto.
  now rewrite rev_app_distr, IH, flat_map_const_comm.
Qed.

Lemma map_flat_map_const {A B C} (f : B -> C) (b : list B) (l : list A) :
  map f (flat_map (fun _ => b) l) = flat_map (fun _ => map f b) l.
Proof.
  induction l as [|x l IH]; simpl; auto. now rewrite map_app, IH.
Qed.

Lemma steps_rev p q n :
  body_steps q = rev (body_steps p) -> steps q n = rev (steps p n).
Proof. intros H. unfold steps. now rewrite rev_flat_map_const, H. Qed.

(** X15: Each clockwise pattern runs the steps of its counter-clockwise
    partner in reverse order, for every repeat count; the flap pattern
    is its own reverse, and the random pattern played backwards is the
    random pattern with the two sides exchanged. *)
Theorem clockwise_is_counterclockwise_reversed n :
  eqM (singleledcw n) (finish (for_ (rev (steps Singleledccw n)) stepc)) /\
  eqM (twoledscw n) (finish (for_ (rev (steps Twoledsccw n)) stepc)) /\
  eqM (twoledsflapup n)
      (finish (for_ (rev (steps Twoledsflapdown n)) stepc)) /\
  eqM (twoledsflap n) (finish (for_ (rev (steps Twoledsflap n)) stepc)) /\
  eqM (twoledsrandom n)
      (finish (for_ (map swap (rev (steps Twoledsrandom n))) stepc)).
Proof.
  split; [|split; [|split; [|split]]].
  - rewrite <- (steps_rev Singleledccw Singleledcw) by reflexivity.
    apply (play_steps Singleledcw).
  - rewrite <- (steps_rev Twoledsccw Twoledscw) by reflexivity.
    apply (play_steps Twoledscw).
  - rewrite <- (steps_rev Twoledsflapdown Twoledsflapup) by reflexivity.
    apply (play_steps Twoledsflapup).
  - rewrite <- (steps_rev Twoledsflap Twoledsflap) by reflexivity.
    apply (play_steps Twoledsflap).
  - replace (map swap (rev (steps Twoledsrandom n)))
      with (steps Twoledsrandom n).
    + apply (play_steps Twoledsrandom).
    + unfold steps. rewrite rev_flat_map_const, map_flat_map_const.
      reflexivity.
Qed.

(** ** The millisecond counter *)

Lemma interrupt_requested k s :
  Z.land (intrq s) k <> 0 ->
  interrupt k s
  = mkTimer (wrap8 (Z.land (intrq s) (Z.lnot k))) 6
            (wrap32 (millis_count s + 1)).
Proof.
  intros H. unfold interrupt.
  destruct (Z.eqb_spec (Z.land (intrq s) k) 0); [contradiction|reflexivity].
Qed.

Lemma tick_counts k s :
  k <> 0 -> millis_count (tick k s) = wrap32 (millis_count s + 1).
Proof.
  intros Hk. unfold tick. rewrite interrupt_requested; [reflexivity|].
  simpl. rewrite Z.land_lor_distr_l, Z.land_diag. intros H.
  apply Z.lor_eq_0_iff in H. tauto.
Qed.

Lemma ticks_count k : forall n s,
  k <> 0 ->
  millis_count (Nat.iter n (tick k) s)
  = if (n =? 0)%nat then millis_count s
    else wrap32 (millis_count s + Z.of_nat n).
Proof.
  induction n as [|n IH]; intros s Hk; [reflexivity|].
  change (Nat.iter (Datatypes.S n) (tick k) s)
    with (tick k (Nat.iter n (tick k) s)).
  rewrite tick_counts, IH by assumption.
  change (Datatypes.S n =? 0)%nat with false. cbv iota.
  destruct n as [|n]; [reflexivity|].
  change (Datatypes.S n =? 0)%nat with false. cbv iota.
  rewrite wrap32_add_l. f_equal. lia.
Qed.

(** X16: The handler counts the requests of timer T16 and nothing else: a
    call without the request flag changes nothing; a call with it
    clears that flag only, reloads the timer with 6 and adds one to
    [elapsedmillis] modulo 2^32.  So the clock value that [millis]
    returns after [n] ticks is the one before plus [n], as the
    instants of the environment have it. *)
Theorem interrupt_counts_timer_ticks k s :
  0 < k < 256 -> 0 <= intrq s < 256 ->
  (Z.land (intrq s) k = 0 -> interrupt k s = s) /\
  (Z.land (intrq s) k <> 0 ->
   Z.land (intrq (interrupt k s)) k = 0 /\
   Z.land (intrq (interrupt k s)) (Z.lnot k) = Z.land (intrq s) (Z.lnot k) /\
   t16c (interrupt k s) = 6 /\
   millis_count (interrupt k s) = wrap32 (millis_count s + 1)) /\
  (forall m i w,
     future m = i :: w -> millis_count s = elapsedmillis m ->
     0 <= elapsedmillis m < 2 ^ 32 ->
     exists m',
       millis m = Some (millis_count (Nat.iter (ticks i) (tick k) s), m') /\
       elapsedmillis m' = millis_count (Nat.iter (ticks i) (tick k) s)).
Proof.
  intros Hk Hq. split; [|split].
  - intros H. unfold interrupt. now rewrite H.
  - intros H. rewrite interrupt_requested by assumption. simpl.
    assert (Hr : wrap8 (Z.land (intrq s) (Z.lnot k))
                 = Z.land (intrq s) (Z.lnot k)).
    { unfold wrap8. apply Z.mod_small. split.
      - apply Z.land_nonneg. lia.
      - rewrite <- Z.sub_land_same_l.
        assert (A : 0 <= Z.land (intrq s) k) by (apply Z.land_nonneg; lia).
        change (2 ^ 8) with 256. lia. }
    rewrite Hr. repeat split.
    + rewrite <- Z.land_assoc. rewrite (Z.land_comm (Z.lnot k)).
      rewrite Z.land_lnot_diag. apply Z.land_0_r.
    + rewrite <- Z.land_assoc. now rewrite Z.land_diag.
  - intros m i w Hf He Hrange.
    assert (V : wrap32 (elapsedmillis m + Z.of_nat (ticks i))
                = millis_count (Nat.iter (ticks i) (tick k) s)).
    { rewrite ticks_count by lia. rewrite He.
      destruct (ticks i) as [|n]; [|reflexivity].
      simpl. now rewrite Z.add_0_r, wrap32_small. }
    unfold millis. rewrite Hf. cbv zeta. rewrite V.
    eexists. split; reflexivity.
Qed.

Lemma interrupt_counts_timer_ticks_witness :
  interrupt 4 (mkTimer 1 0 7) = mkTimer 1 0 7 /\
  millis_count (interrupt 4 (mkTimer 5 0 7)) = 8.
Proof.
  destruct (interrupt_counts_timer_ticks 4 (mkTimer 1 0 7)) as (H1 & _).
  - lia.
  - simpl. lia.
  - destruct (interrupt_counts_timer_ticks 4 (mkTimer 5 0 7))
      as (_ & H2 & _).
    + lia.
    + simpl. lia.
    + split.
      * apply H1. reflexivity.
      * destruct H2 as (_ & _ & _ & H2); [simpl; discriminate|].
        rewrite H2. reflexivity.
Defined.

(** ** Badges that have seen the same sync pulse *)

Lemma elapsed_shift e p e2 p2 t :
  wrap32 (e - p) = wrap32 (e2 - p2) ->
  wrap32 (wrap32 (e + t) - p) = wrap32 (wrap32 (e2 + t) - p2).
Proof.
  intros H. rewrite !wrap32_sub_l.
  replace (e + t - p) with ((e - p) + t) by lia.
  replace (e2 + t - p2) with ((e2 - p2) + t) by lia.
  now rewrite <- wrap32_add_l, H, wrap32_add_l.
Qed.

Lemma scan_shift time p p2 : forall w e e2 pa prev e' pa' prev' w',
  wrap32 (e - p) = wrap32 (e2 - p2) ->
  scan time p w e pa prev = Some (e', pa', prev', w') ->
  exists e2',
    scan time p2 w e2 pa prev = Some (e2', pa', prev', w') /\
    wrap32 (e' - p) = wrap32 (e2' - p2).
Proof.
  induction w as [|i w IH]; intros e e2 pa prev e' pa' prev' w' He H;
    rewrite scan_unfold in H; rewrite scan_unfold; rewrite <- He;
    destruct (_ && _); try discriminate.
  - inversion H; subst. eauto.
  - eapply IH; eauto. now apply elapsed_shift.
  - inversion H; subst. eauto.
Qed.

Lemma hold_shift time p p2 : forall w e e2 pa e' pa' w',
  wrap32 (e - p) = wrap32 (e2 - p2) ->
  hold time p w e pa = Some (e', pa', w') ->
  exists e2',
    hold time p2 w e2 pa = Some (e2', pa', w') /\
    wrap32 (e' - p) = wrap32 (e2' - p2).
Proof.
  induction w as [|i w IH]; intros e e2 pa e' pa' w' He H;
    rewrite hold_unfold in H; rewrite hold_unfold; rewrite <- He;
    destruct (_ <? _); try discriminate.
  - inversion H; subst. eauto.
  - eapply IH; eauto. now apply elapsed_shift.
  - inversion H; subst. eauto.
Qed.

Lemma waituntil_in_step time m m2 r m' :
  in_step m m2 -> waituntil time m = Some (r, m') ->
  exists m2',
    waituntil time m2 = Some (r, m2') /\ in_step m' m2' /\ io m2' = io m2.
Proof.
  intros (Hs & Hp & He & Hf). rewrite !waituntil_eq.
  unfold waituntil_summary. rewrite <- Hf, <- Hp, <- Hs.
  destruct (future m) as [|i w]; [discriminate|].
  destruct (scan _ _ _ _ _ _) as [[[[e' pa'] prev'] w']|] eqn:E;
    [|discriminate].
  eapply (scan_shift _ _ (previoustime m2) _ _
            (wrap32 (elapsedmillis m2 + Z.of_nat (ticks i)))) in E;
    [|now apply elapsed_shift].
  destruct E as (e2' & E2 & He'). rewrite E2.
  destruct (_ && _); inversion 1; subst; eexists;
    (split; [reflexivity|]); unfold in_step, elapsed; simpl;
    repeat split; auto.
  - now rewrite !Z.sub_diag.
  - rewrite !wrap32_sub_r.
    replace (e' - (previoustime m + u32_of_i16 time))
      with ((e' - previoustime m) - u32_of_i16 time) by lia.
    replace (e2' - (previoustime m2 + u32_of_i16 time))
      with ((e2' - previoustime m2) - u32_of_i16 time) by lia.
    now rewrite <- wrap32_sub_l, He', wrap32_sub_l.
Qed.

Lemma in_step_set_io x y m m2 :
  in_step m m2 -> in_step (set_io x m) (set_io y m2).
Proof. destruct m, m2. exact (fun H => H). Qed.

Lemma left_pins_determined left right p q :
  left < 21 ->
  left_pins (exec (setled_ops left right) p)
  = left_pins (exec (setled_ops left right) q).
Proof.
  intros H. unfold setled_ops. rewrite !exec_app.
  rewrite (left_pins_bits _ (exec (if left <? 21 then left_block left
                                    else []) p))
    by (intros r; apply right_ops_keep_left).
  rewrite (left_pins_bits (exec _ (exec _ q))
             (exec (if left <? 21 then left_block left else []) q))
    by (intros r; apply right_ops_keep_left).
  replace (left <? 21) with true by (symmetry; apply Z.ltb_lt; lia).
  destruct (Z_le_gt_dec 0 left) as [H0|H0];
    [destruct (Z_le_gt_dec left 19) as [H1|H1]|].
  - now rewrite !left_block_lights by lia.
  - now rewrite !left_block_dark by lia.
  - now rewrite !left_block_dark by lia.
Qed.

Lemma right_pins_determined left right p q :
  right < 21 ->
  right_pins (exec (setled_ops left right) p)
  = right_pins (exec (setled_ops left right) q).
Proof.
  intros H. unfold setled_ops. rewrite !exec_app.
  replace (right <? 21) with true by (symmetry; apply Z.ltb_lt; lia).
  destruct (Z_le_gt_dec 0 right) as [H0|H0];
    [destruct (Z_le_gt_dec right 19) as [H1|H1]|].
  - now rewrite !right_block_lights by lia.
  - now rewrite !right_block_dark by lia.
  - now rewrite !right_block_dark by lia.
Qed.

Lemma stepc_in_step c m m2 b m' :
  in_step m m2 -> fst c < 21 -> snd c < 21 ->
  stepc c m = Some (b, m') ->
  exists m2',
    stepc c m2 = Some (b, m2') /\ in_step m' m2' /\ same_leds m' m2'.
Proof.
  intros Hi Hl Hr. rewrite !stepc_eq. unfold bind. rewrite !setled_eq.
  destruct (waituntil 25 _) as [[r m1]|] eqn:E; [|discriminate].
  pose proof (waituntil_io _ _ _ _ E) as Hio.
  eapply waituntil_in_step in E; [|apply in_step_set_io; exact Hi].
  destruct E as (m2' & E2 & Hi' & Hio2). rewrite E2.
  inversion 1; subst. exists m2'. split; [reflexivity|]. split; [exact Hi'|].
  unfold same_leds. rewrite Hio, Hio2. destruct m, m2; simpl.
  split; [now apply left_pins_determined|now apply right_pins_determined].
Qed.

Lemma for_in_step : forall l m m2 b m',
  Forall (fun c => fst c < 21 /\ snd c < 21) l ->
  in_step m m2 ->
  for_ l stepc m = Some (b, m') ->
  exists m2',
    for_ l stepc m2 = Some (b, m2') /\ in_step m' m2' /\
    (l <> [] \/ same_leds m m2 -> same_leds m' m2').
Proof.
  induction l as [|c l IH]; intros m m2 b m' Hl Hi H; simpl in *.
  - inversion H; subst. exists m2. split; [reflexivity|].
    split; [exact Hi|]. intros [F|F]; [congruence|exact F].
  - inversion Hl as [|c' l' [Hc1 Hc2] Hl']; subst.
    unfold and_then, bind in *.
    destruct (stepc c m) as [[b1 m1]|] eqn:E; [|discriminate].
    eapply stepc_in_step in E; eauto.
    destruct E as (m1' & E2 & Hi1 & Hleds). rewrite E2.
    destruct b1.
    + inversion H; subst. exists m1'. auto.
    + destruct (IH _ _ _ _ Hl' Hi1 H) as (m2' & F & Hi2 & K).
      exists m2'. auto.
Qed.

Lemma steps_below_21 p n :
  Forall (fun c => fst c < 21 /\ snd c < 21) (steps p n).
Proof.
  apply Forall_forall. intros c Hc. unfold steps in Hc.
  apply in_flat_map in Hc. destruct Hc as (_ & _ & Hc).
  pose proof (body_well_formed p) as W. rewrite forallb_forall in W.
  specialize (W _ Hc). apply well_formed_range in W. lia.
Qed.

Lemma steps_nonempty p n : 0 < n -> steps p n <> [].
Proof.
  intros Hn E. apply (f_equal (@length _)) in E.
  rewrite steps_length in E. simpl in E.
  assert (L : (0 < length (body_steps p))%nat) by (destruct p; simpl; lia).
  nia.
Qed.

Lemma play_in_step p n m m2 m' :
  in_step m m2 -> 0 < n ->
  play p n m = Some (tt, m') ->
  exists m2',
    play p n m2 = Some (tt, m2') /\ in_step m' m2' /\ same_leds m' m2'.
Proof.
  intros Hi Hn. rewrite !play_steps. unfold finish, bind.
  destruct (for_ (steps p n) stepc m) as [[b m1]|] eqn:E; [|discriminate].
  eapply for_in_step in E; eauto using steps_below_21.
  destruct E as (m2' & E2 & Hi' & K). rewrite E2.
  inversion 1; subst. exists m2'. split; [reflexivity|].
  split; [exact Hi'|]. apply K. left. now apply steps_nonempty.
Qed.

Lemma pin_determined_sound l : forall wires p q,
  forallb (pin_determined l) wires = true ->
  side_pins wires p = side_pins wires q ->
  side_pins wires (exec l p) = side_pins wires (exec l q).
Proof.
  induction wires as [|[[c d] bit] wires IH]; intros p q H E;
    simpl in *; auto.
  apply andb_true_iff in H. destruct H as [H1 H2].
  injection E as E1 E2. f_equal; [|now apply IH].
  unfold pin in *. rewrite !testbit_exec.
  unfold pin_determined in H1. cbn [fst snd] in H1.
  destruct (Z.testbit (rd c p) bit), (Z.testbit (rd d p) bit),
    (Z.testbit (rd c q) bit), (Z.testbit (rd d q) bit);
    simpl in E1; try discriminate; cbn [forallb fst snd] in H1;
    rewrite ?andb_true_iff in H1; apply drive_eqb_eq; tauto.
Qed.

Lemma syncpulse_in_step time m m2 m' :
  in_step m m2 ->
  syncpulse time m = Some (tt, m') ->
  exists m2',
    syncpulse time m2 = Some (tt, m2') /\ in_step m' m2' /\
    (same_leds m m2 -> same_leds m' m2').
Proof.
  intros (Hs & Hp & He & Hf). rewrite !syncpulse_eq. unfold syncpulse_summary.
  rewrite <- Hf, <- Hp, <- Hs.
  destruct (future m) as [|i w]; [discriminate|]. cbv zeta.
  destruct (hold _ _ _ _ _) as [[[e' pa'] w']|] eqn:E; [|discriminate].
  eapply (hold_shift _ _ (wrap32 (elapsedmillis m2 + Z.of_nat (ticks i)))
            _ _ (wrap32 (elapsedmillis m2 + Z.of_nat (ticks i)))) in E;
    [|now rewrite !Z.sub_diag].
  destruct E as (e2' & E2 & He'). rewrite E2.
  inversion 1; subst. eexists. split; [reflexivity|].
  split; [unfold in_step, elapsed; simpl; auto|].
  unfold same_leds, left_pins, right_pins. cbn [io].
  intros [L R]. split.
  - exact (pin_determined_sound syncpulse_ops left_wires (io m) (io m2)
             eq_refl L).
  - exact (pin_determined_sound syncpulse_ops right_wires (io m) (io m2)
             eq_refl R).
Qed.

Lemma schedule_repeats k p n :
  nth_error schedule k = Some (p, n) -> 0 < n.
Proof.
  do 8 (destruct k as [|k]; [inversion 1; lia|]).
  destruct k; discriminate.
Qed.

Lemma loop_in_step m m2 m' :
  in_step m m2 -> 0 <= state m <= 7 \/ same_leds m m2 ->
  loop m = Some (tt, m') ->
  exists m2', loop m2 = Some (tt, m2') /\ in_step m' m2' /\ same_leds m' m2'.
Proof.
  intros Hi Hc. unfold loop, bind, advance, modify.
  set (m0 := set_state (wrap8 (state m + 1)) m).
  set (m20 := set_state (wrap8 (state m2 + 1)) m2).
  assert (Hi0 : in_step m0 m20).
  { destruct Hi as (Hs & Hp & He & Hf). unfold m0, m20. rewrite <- Hs.
    destruct m, m2. exact (conj eq_refl (conj Hp (conj He Hf))). }
  assert (Hl0 : same_leds m m2 -> same_leds m0 m20)
    by (destruct m, m2; exact (fun H => H)).
  destruct (dispatch_cases m0) as [(k & p & n & Hk & Hs & Hd)|[Hs Hd]];
    rewrite Hd.
  - destruct (dispatch_cases m20) as [(k2 & p2 & n2 & Hk2 & Hs2 & Hd2)|[Hs2 _]].
    + rewrite Hd2. pose proof Hi0 as (E & _). rewrite Hs, Hs2 in E.
      assert (k2 = k) by lia. subst k2. rewrite Hk in Hk2.
      inversion Hk2; subst p2 n2.
      apply play_in_step; [exact Hi0|]. eapply schedule_repeats; eauto.
    + pose proof Hi0 as (E & _). assert (Hlt : (k < length schedule)%nat)
        by (apply nth_error_Some; congruence).
      change (length schedule) with 8%nat in Hlt. lia.
  - destruct (dispatch_cases m20) as [(k2 & p2 & n2 & Hk2 & Hs2 & _)|[_ Hd2]].
    + pose proof Hi0 as (E & _). assert (Hlt : (k2 < length schedule)%nat)
        by (apply nth_error_Some; congruence).
      change (length schedule) with 8%nat in Hlt. lia.
    + rewrite Hd2. unfold pulse_and_reset, bind.
      destruct (syncpulse 25 m0) as [[[] m1]|] eqn:E; [|discriminate].
      eapply syncpulse_in_step in E; eauto.
      destruct E as (m1' & E2 & Hi1 & K). rewrite E2.
      inversion 1; subst. eexists. split; [reflexivity|].
      assert (Hleds : same_leds m m2).
      { destruct Hc as [Hc|Hc]; [|exact Hc].
        assert (A : state m0 = state m + 1) by (apply advance_state; lia).
        lia. }
      split.
      * destruct Hi1 as (_ & Hp & He & Hf).
        destruct m1, m1'. exact (conj eq_refl (conj Hp (conj He Hf))).
      * specialize (K (Hl0 Hleds)). destruct m1, m1'. exact K.
Qed.

Lemma ticks_of_loop_in_step : forall n m m2 m',
  in_step m m2 -> 0 <= state m <= 7 \/ same_leds m m2 ->
  ticks_of_loop n m = Some (tt, m') ->
  exists m2',
    ticks_of_loop n m2 = Some (tt, m2') /\ in_step m' m2' /\
    ((0 < n)%nat -> same_leds m' m2').
Proof.
  induction n as [|n IH]; intros m m2 m' Hi Hc H; simpl in *.
  - inversion H; subst. exists m2. split; [reflexivity|].
    split; [exact Hi|]. lia.
  - unfold bind in *.
    destruct (loop m) as [[[] m1]|] eqn:E; [|discriminate].
    eapply loop_in_step in E; eauto.
    destruct E as (m1' & E2 & Hi1 & Hl1). rewrite E2.
    destruct (IH _ _ _ Hi1 (or_intror Hl1) H) as (m2' & F & Hi2 & K).
    exists m2'. split; [exact F|]. split; [exact Hi2|].
    intros _. destruct n; [|apply K; lia].
    simpl in H, F. inversion H; inversion F; subst. exact Hl1.
Qed.

(** X17: What the sync pulse is for: two badges that have each just detected
    a sync edge, wherever they were in their sequences and whatever
    their clocks read, are in step from then on.  As long as their
    clocks tick alike and they see the same sync input, each pass of
    [loop] ends for both at the same place of the sequence, at the same
    distance from the Timing Baseline, and with the same LEDs lit. *)
Theorem synchronised_badges_stay_in_step n t t2 a a2 m m2 m' :
  waituntil t a = Some (1, m) ->
  waituntil t2 a2 = Some (1, m2) ->
  future m = future m2 ->
  ticks_of_loop n m = Some (tt, m') ->
  exists m2',
    ticks_of_loop n m2 = Some (tt, m2') /\
    state m' = state m2' /\ elapsed m' = elapsed m2' /\
    previouspinstate m' = previouspinstate m2' /\
    future m' = future m2' /\
    ((0 < n)%nat ->
     left_pins (io m') = left_pins (io m2') /\
     right_pins (io m') = right_pins (io m2')).
Proof.
  intros H1 H2 Hf H.
  apply waituntil_detected in H1, H2.
  destruct H1 as (S1 & P1 & _ & E1 & _), H2 as (S2 & P2 & _ & E2 & _).
  assert (Hi : in_step m m2)
    by (unfold in_step; rewrite S1, S2, P1, P2, E1, E2; auto).
  destruct (ticks_of_loop_in_step n m m2 m' Hi) as (m2' & F & Hi' & K);
    [left; lia|exact H|].
  exists m2'. destruct Hi' as (A & B & C & D).
  split; [exact F|]. split; [exact A|]. split; [exact C|].
  split; [exact B|]. split; [exact D|exact K].
Qed.

Lemma synchronised_badges_stay_in_step_witness :
  exists m2',
    ticks_of_loop 1 badge_b_synced = Some (tt, m2') /\
    state badge_a_later = state m2' /\
    elapsed badge_a_later = elapsed m2' /\
    left_pins (io badge_a_later) = left_pins (io m2').
Proof.
  destruct (synchronised_badges_stay_in_step 1 25 25 badge_a badge_b
              badge_a_synced badge_b_synced badge_a_later)
    as (m2' & F & A & B & _ & _ & K).
  - vm_compute. reflexivity.
  - vm_compute. reflexivity.
  - vm_compute. reflexivity.
  - vm_compute. reflexivity.
  - exists m2'. destruct K as [K _]; [lia|]. auto.
Defined.
